(** * Music-Note-Creator: the two note producers and the seeded random source

    A shallow embedding of the algorithmic core of the repository:

    - [getSeededRandom] and [generateDeterministicNotes], the seeded random
      source and the layered composer of the application component
      (src/unnamed/part_001);
    - [autoCorrelate] and [analyzeAudioSegment], the pitch estimator and the
      frame-to-note segmenter of the audio engine (src/unnamed/part_000; the
      same two methods are in src/services/audioEngine.ts).

    Numbers.  JavaScript numbers that hold integers (seed cursor, scale
    degrees, bar and sample indices, MIDI pitches) are modelled by [Z]; the
    32-bit operators are written out with their ToInt32 / ToUint32
    conversions.  Times, samples and random draws are modelled by exact
    rationals [Q]: every value of the random source is a multiple of 2^-32,
    the thresholds it is compared with are decimal constants, and sample
    arithmetic is carried out exactly.  Rounding of binary64 arithmetic is
    not modelled, nor are samples that are not finite; the concrete inputs
    used below only involve values that binary64 represents and combines
    exactly.  Where a rounded product or sum decides on which side of a bar
    line or of a note a time falls, the properties are stated on the
    integers that the code carries (the bar index in an identifier, the
    sample range of a note) and not on sums of times.  Two tests of the source go through functions that leave the
    rationals: [Math.sqrt(m) < t] is modelled by [m < t * t], and
    [Math.round(69 + 12 * Math.log2(r))] by the integer that the exact
    logarithm rounds to (characterised in [MidiFacts.hzToMidi_spec]).

    Non-finite values.  [undefined], [NaN] and [Infinity] appear in the
    source where an array is read out of range or a division has a zero
    divisor; the types [jsint] and [jsfloat] keep them.

    Loops.  A counted [for] loop is a recursion on its number of iterations;
    the [while] loop of the melody takes fuel, and
    [Placement.melodyLoop_fuel] shows that it ends by its own test.

    Strings.  Identifiers are built with stdpp's [pretty] for the decimal
    rendering of integers. *)

From Stdlib Require Import ZArith QArith Qround Qabs Qpower Lia Lqa.
From Stdlib Require Import List Bool Sorted Permutation.
From Stdlib Require Import String Ascii.
From Stdlib Require Strings.Byte.
From stdpp Require Import pretty.
Import ListNotations.

Local Open Scope Z_scope.

(** ** 32-bit integer operators of JavaScript *)

Module JS.

Definition two32 : Z := 4294967296.
Definition two31 : Z := 2147483648.

(** ToUint32 and ToInt32 on an integral number. *)
Definition toUint32 (x : Z) : Z := x mod two32.
Definition toInt32 (x : Z) : Z := (x + two31) mod two32 - two31.

(** [a ^ b], [a | b]: both operands through ToInt32, result an int32. *)
Definition xor (a b : Z) : Z := Z.lxor (toInt32 a) (toInt32 b).
Definition or (a b : Z) : Z := Z.lor (toInt32 a) (toInt32 b).

(** [a >>> n]: ToUint32 of the left operand, zero-filling shift. *)
Definition ushr (a n : Z) : Z := Z.shiftr (toUint32 a) n.

(** [Math.imul(a, b)]. *)
Definition imul (a b : Z) : Z := toInt32 (toInt32 a * toInt32 b).

End JS.

(** ** The seeded random source ([getSeededRandom], part_001 lines 17-22) *)

(** The 32 mixed bits, i.e. the operand of the final division:
<<
    let t = seed += 0x6D2B79F5;
    t = Math.imul(t ^ t >>> 15, t | 1);
    t ^= t + Math.imul(t ^ t >>> 7, t | 61);
    return ((t ^ t >>> 14) >>> 0) / 4294967296;
>> *)
Definition getSeededRandomBits (seed : Z) : Z :=
  let t := seed + 0x6D2B79F5 in
  let t := JS.imul (JS.xor t (JS.ushr t 15)) (JS.or t 1) in
  let t := JS.xor t (t + JS.imul (JS.xor t (JS.ushr t 7)) (JS.or t 61)) in
  JS.ushr (JS.xor t (JS.ushr t 14)) 0.

Definition getSeededRandom (seed : Z) : Q :=
  inject_Z (getSeededRandomBits seed) / inject_Z 4294967296.

(** The mixing sequence as the specification words it: every step on
    unsigned 32-bit words with wraparound. *)
Module SeedStreamSpec.

Definition wrap (x : Z) : Z := x mod 2 ^ 32.

Definition mix (state : Z) : Z :=
  let t := wrap (state + 0x6D2B79F5) in
  let t := wrap (Z.lxor t (Z.shiftr t 15) * Z.lor t 1) in
  let t := Z.lxor t (wrap (t + wrap (Z.lxor t (Z.shiftr t 7) * Z.lor t 61))) in
  Z.lxor t (Z.shiftr t 14).

Definition value (state : Z) : Q := inject_Z (mix state) / inject_Z (2 ^ 32).

(** [next(state) -> (value, newState)]: the cursor advances by one. *)
Definition next (state : Z) : Q * Z := (value state, state + 1).

End SeedStreamSpec.

(** ** Shared data model *)

(** An integral JavaScript number that may fail to be finite: scale degrees
    become [NaN] when a chord table is indexed out of range (the [undefined]
    that the lookup yields behaves as [NaN] in all the arithmetic and
    comparisons applied to it), and a pitch becomes [PosInf] when the
    estimated frequency is infinite. *)
Inductive jsint : Type :=
| Fin (z : Z)
| PosInf
| NaN.

Module JSInt.

Definition add (a : jsint) (k : Z) : jsint :=
  match a with Fin z => Fin (z + k) | other => other end.

(** [a < b] and [a > b]; any comparison with [NaN] is false. *)
Definition ltb (a b : jsint) : bool :=
  match a, b with
  | Fin x, Fin y => x <? y
  | Fin _, PosInf => true
  | _, _ => false
  end.
Definition gtb (a b : jsint) : bool := ltb b a.

(** [Math.abs(a - b) > 1]: [Infinity - Infinity] is [NaN]. *)
Definition far (a b : jsint) : bool :=
  match a, b with
  | Fin x, Fin y => 1 <? Z.abs (x - y)
  | Fin _, PosInf | PosInf, Fin _ => true
  | _, _ => false
  end.

End JSInt.

(** The one output type of both producers ([NoteEvent]). *)
Record NoteEvent : Type := mkNote {
  id : string;
  start_time : Q;
  duration : Q;
  midi_pitch : jsint;
  velocity : Q;
  confidence : Q
}.

(** Comparisons on exact rationals. *)
Definition Qltb (a b : Q) : bool := negb (Qle_bool b a).
Definition Qgtb (a b : Q) : bool := Qltb b a.
Definition Qgeb (a b : Q) : bool := Qle_bool b a.
Definition Qmax (a b : Q) : Q := if Qle_bool a b then b else a.

(** [notes.sort((a,b) => a.start_time - b.start_time)]: the sort is stable,
    an element is placed before the first one that does not start earlier
    among those that followed it. *)
Fixpoint insertNote (x : NoteEvent) (l : list NoteEvent) : list NoteEvent :=
  match l with
  | [] => [x]
  | y :: t =>
      if Qle_bool (start_time x) (start_time y) then x :: y :: t
      else y :: insertNote x t
  end.

Definition sortNotes (l : list NoteEvent) : list NoteEvent :=
  fold_right insertNote [] l.

(** ** The procedural composer ([generateDeterministicNotes], part_001
       lines 24-216) *)

Module Composer.

Local Open Scope Q_scope.

(** [videoId.split('').reduce((acc, char) => acc + char.charCodeAt(0), 0)] *)
Fixpoint seedOf (videoId : string) : Z :=
  match videoId with
  | EmptyString => 0%Z
  | String c rest => (Z.of_nat (nat_of_ascii c) + seedOf rest)%Z
  end.

(** One call of the closure [rng]: the value drawn at cursor [s]; the
    cursor then stands at [s + 1]. *)
Definition rng (s : Z) : Q := getSeededRandom s.

Definition PROGRESSIONS : list (list Z) :=
  [ [0; 4; 5; 3]; [1; 4; 0; 5]; [0; 5; 3; 4]; [5; 3; 0; 4] ]%Z.

(** The global musical parameters, drawn once per call from the cursor
    positions [s0 .. s0+4]. *)
Record Params : Type := mkParams {
  BPM : Z;
  SWING_FEEL : bool;
  isMinor : bool;
  rootNote : Z;
  progression : list Z
}.

Definition setup (s0 : Z) : Params :=
  {| BPM := (80 + Qfloor (rng s0 * 50))%Z;
     SWING_FEEL := Qgtb (rng (s0 + 1)%Z) (6 # 10);
     isMinor := Qgtb (rng (s0 + 2)%Z) (5 # 10);
     rootNote := (58 + Qfloor (rng (s0 + 3) * 12))%Z;
     progression :=
       nth (Z.to_nat (Qfloor (rng (s0 + 4)%Z * 4))) PROGRESSIONS [] |}.

Section Bars.

Variable P : Params.
Variables startTime endTime : Q.

Definition BEAT_DURATION : Q := 60 / inject_Z (BPM P).
Definition BAR_DURATION : Q := BEAT_DURATION * 4.

Definition scaleIntervals : list Z :=
  if isMinor P then [0; 2; 3; 5; 7; 8; 10]%Z else [0; 2; 4; 5; 7; 9; 11]%Z.

(** [getMidiPitch(degree, octaveOffset)]; [%] is the remainder with the
    sign of the dividend, [Math.floor(degree / len)] the floor quotient. *)
Definition getMidiPitch (degree : jsint) (octaveOffset : Z) : jsint :=
  match degree with
  | Fin d =>
      let len := Z.of_nat (length scaleIntervals) in
      let oct := (d / len)%Z in
      let idx := Z.rem (Z.rem d len + len) len in
      Fin (rootNote P + octaveOffset * 12 + oct * 12
           + nth (Z.to_nat idx) scaleIntervals 0)%Z
  | _ => NaN
  end.

(** [progression[bar % 4]]: [undefined] for a negative remainder. *)
Definition chordAt (bar : Z) : jsint :=
  let i := Z.rem bar 4 in
  if (i <? 0)%Z then NaN
  else match nth_error (progression P) (Z.to_nat i) with
       | Some d => Fin d
       | None => NaN
       end.

Definition inWindow (t : Q) : bool := Qgeb t startTime && Qltb t endTime.

(** Layer A, bass.  Returns the notes pushed and the cursor afterwards. *)
Definition bassLayer (bar : Z) (s : Z) : list NoteEvent * Z :=
  let barStart := inject_Z bar * BAR_DURATION in
  let chordDegree := chordAt bar in
  let bassTime := Qmax startTime barStart in
  if Qltb bassTime endTime then
    let n1 := {| id := ("bass_" +:+ pretty bar +:+ "_1")%string;
                 start_time := barStart;
                 duration := BEAT_DURATION * (12 # 10);
                 midi_pitch := getMidiPitch chordDegree (-2)%Z;
                 velocity := 85 # 100;
                 confidence := 98 # 100 |} in
    if Qgtb (rng s) (4 # 10) then
      let beat3 := barStart + BEAT_DURATION * 2 in
      if inWindow beat3 then
        let interval := if Qgtb (rng (s + 1)%Z) (5 # 10) then 4%Z else 0%Z in
        ([ n1;
           {| id := ("bass_" +:+ pretty bar +:+ "_3")%string;
              start_time := beat3;
              duration := BEAT_DURATION;
              midi_pitch := getMidiPitch (JSInt.add chordDegree interval) (-2)%Z;
              velocity := 75 # 100;
              confidence := 9 # 10 |} ], s + 2)%Z
      else ([n1], s + 1)%Z
    else ([n1], s + 1)%Z
  else ([], s).

(** Layer B, harmony: one draw of [intensity], then the three chord
    tones, each kept only when its strummed time is in the window. *)
Definition harmonyNote (bar : Z) (intensity : Q) (interval idx : Z)
  : list NoteEvent :=
  let barStart := inject_Z bar * BAR_DURATION in
  let strumDelay := inject_Z idx * (3 # 100) in
  let time := barStart + BEAT_DURATION + strumDelay in
  if inWindow time then
    [ {| id := ("harm_" +:+ pretty bar +:+ "_" +:+ pretty idx)%string;
         start_time := time;
         duration := BEAT_DURATION * 2;
         midi_pitch := getMidiPitch (JSInt.add (chordAt bar) interval) (-1)%Z;
         velocity := (4 # 10) + intensity * (2 # 10);
         confidence := 85 # 100 |} ]
  else [].

Definition harmonyLayer (bar : Z) (s : Z) : list NoteEvent * Z :=
  let intensity := rng s in
  if Qgtb intensity (3 # 10) then
    (harmonyNote bar intensity 0%Z 0%Z ++ harmonyNote bar intensity 2%Z 1%Z
       ++ harmonyNote bar intensity 4%Z 2%Z, s + 1)%Z
  else ([], s + 1)%Z.

(** Layer C, melody.  [currentBeat] only takes the values k/2 (it starts
    at 0 and grows by 0.5, 1 or 2), so the model stores the number of
    half beats [currentBeat2 = 2 * currentBeat]; likewise [duration2]. *)
Definition renderBeat (currentBeat2 : Z) : string :=
  if Z.even currentBeat2 then pretty (currentBeat2 / 2)%Z
  else (pretty (currentBeat2 / 2)%Z +:+ ".5")%string.

(** Step 3: on an even beat, one step towards the chord tone. *)
Definition gravitate (currentBeat2 : Z) (candidateDegree chordTone : jsint)
  : jsint :=
  if (Z.rem currentBeat2 4 =? 0)%Z then
    if JSInt.ltb candidateDegree chordTone then JSInt.add candidateDegree 1
    else if JSInt.gtb candidateDegree chordTone
         then JSInt.add candidateDegree (-1)
         else candidateDegree
  else candidateDegree.

(** Step 4: the phrase ending. *)
Definition phraseEnd (bar currentBeat2 duration2 : Z)
  (candidateDegree : jsint) : jsint :=
  if (6 <=? currentBeat2)%Z && (2 <=? duration2)%Z then
    if (Z.rem bar 2 =? 0)%Z then JSInt.add (chordAt bar) 4 else chordAt bar
  else candidateDegree.

(** The range clamp: two independent tests, one octave each. *)
Definition clampRange (candidateDegree : jsint) : jsint :=
  let c :=
    if JSInt.gtb (getMidiPitch candidateDegree 0) (Fin 84)
    then JSInt.add candidateDegree (-7) else candidateDegree in
  if JSInt.ltb (getMidiPitch c 0) (Fin 60) then JSInt.add c 7 else c.

Definition rhythm (rhythmRoll : Q) : Z :=
  if Qgtb rhythmRoll (7 # 10) then 4%Z
  else if Qltb rhythmRoll (3 # 10) then 1%Z else 2%Z.

(** The [while (currentBeat < 4)] loop.  The state threaded through is
    the cursor [s] and [lastMelodyDegree]. *)
Fixpoint melodyLoop (fuel : nat) (bar currentBeat2 : Z) (s : Z)
  (lastMelodyDegree : jsint) : list NoteEvent * (Z * jsint) :=
  match fuel with
  | O => ([], (s, lastMelodyDegree))
  | S fuel' =>
      if (currentBeat2 <? 8)%Z then
        let barStart := inject_Z bar * BAR_DURATION in
        let duration2 := rhythm (rng s) in
        let noteTime :=
          barStart + (inject_Z currentBeat2 / 2) * BEAT_DURATION in
        let '(shouldPlay, s1) :=
          if (currentBeat2 =? 0)%Z then (true, (s + 1)%Z)
          else (Qgtb (rng (s + 1)%Z) (3 # 10), (s + 2)%Z) in
        if shouldPlay && inWindow noteTime then
          let chordTone :=
            JSInt.add (chordAt bar)
              (if Qgtb (rng s1) (5 # 10) then 0 else 2)%Z in
          let step := (if Qgtb (rng (s1 + 1)%Z) (5 # 10) then 1 else -1)%Z in
          let candidateDegree := JSInt.add lastMelodyDegree step in
          let candidateDegree :=
            gravitate currentBeat2 candidateDegree chordTone in
          let candidateDegree :=
            phraseEnd bar currentBeat2 duration2 candidateDegree in
          let candidateDegree := clampRange candidateDegree in
          let note :=
            {| id := ("mel_" +:+ pretty bar +:+ "_"
                        +:+ renderBeat currentBeat2 +:+ "_"
                        +:+ pretty (Qfloor (rng (s1 + 2)%Z * 100)))%string;
               start_time := noteTime;
               duration :=
                 (inject_Z duration2 / 2) * BEAT_DURATION * (9 # 10);
               midi_pitch := getMidiPitch candidateDegree 0;
               velocity :=
                 if (Z.rem currentBeat2 4 =? 0)%Z then 9 # 10 else 7 # 10;
               confidence := 95 # 100 |} in
          let '(rest, final) :=
            melodyLoop fuel' bar (currentBeat2 + duration2)%Z (s1 + 3)%Z
              candidateDegree in
          (note :: rest, final)
        else
          melodyLoop fuel' bar (currentBeat2 + duration2)%Z s1
            lastMelodyDegree
      else ([], (s, lastMelodyDegree))
  end.

(** Every iteration advances by at least half a beat: eight suffice. *)
Definition melodyLayer (bar : Z) (s : Z) (lastMelodyDegree : jsint)
  : list NoteEvent * (Z * jsint) :=
  melodyLoop 8 bar 0 s lastMelodyDegree.

(** The body of [for (let bar = startBar; bar < endBar; bar++)]. *)
Definition genBar (bar : Z) (st : Z * jsint) : list NoteEvent * (Z * jsint) :=
  let '(s, lastMelodyDegree) := st in
  let '(bass, s) := bassLayer bar s in
  let '(harm, s) := harmonyLayer bar s in
  let '(mel, st') := melodyLayer bar s lastMelodyDegree in
  (bass ++ harm ++ mel, st').

(** [count] iterations of the bar loop, from bar [bar]. *)
Fixpoint barLoop (count : nat) (bar : Z) (st : Z * jsint)
  : list NoteEvent * (Z * jsint) :=
  match count with
  | O => ([], st)
  | S count' =>
      let '(notes, st1) := genBar bar st in
      let '(rest, st2) := barLoop count' (bar + 1)%Z st1 in
      (notes ++ rest, st2)
  end.

End Bars.

(** The notes pushed by the bar loop, before the final sort. *)
Definition generated (videoId : string) (startTime endTime : Q)
  : list NoteEvent :=
  let s0 := seedOf videoId in
  let P := setup s0 in
  let startBar := Qfloor (startTime / BAR_DURATION P) in
  let endBar := Qceiling (endTime / BAR_DURATION P) in
  fst (barLoop P startTime endTime (Z.to_nat (endBar - startBar)) startBar
         ((s0 + 5)%Z, Fin 0)).

Definition generateDeterministicNotes (videoId : string)
  (startTime endTime : Q) : list NoteEvent :=
  sortNotes (generated videoId startTime endTime).

End Composer.

(** ** The analytical path (part_000 lines 402-535) *)

(** [Array.prototype.slice(start, end)] (and the typed-array one): a negative
    bound counts from the end, both bounds are clamped to the length. *)
Definition jsSlice {A : Type} (l : list A) (start fin : Z) : list A :=
  let len := Z.of_nat (length l) in
  let k := if start <? 0 then Z.max (len + start) 0 else Z.min start len in
  let e := if fin <? 0 then Z.max (len + fin) 0 else Z.min fin len in
  firstn (Z.to_nat (e - k)) (skipn (Z.to_nat k) l).

(** A JavaScript number that is the result of a division. *)
Inductive jsfloat : Type :=
| Finite (q : Q)
| Infinite (positive : bool)
| NotANumber.

Module Analyzer.

Local Open Scope Q_scope.

(** [a / b] for a finite [a] and an integral [b]. *)
Definition jsDiv (a : Q) (b : Z) : jsfloat :=
  if (b =? 0)%Z then
    if Qltb 0 a then Infinite true
    else if Qltb a 0 then Infinite false else NotANumber
  else Finite (a / inject_Z b).

(** [Math.sqrt(x) < t] for a threshold [t > 0], on exact numbers. *)
Definition sqrtLtb (x t : Q) : bool := Qltb x (t * t).

Definition sumSquares (buffer : list Q) : Q :=
  fold_left (fun acc val => acc + val * val) buffer 0.

(** *** [autoCorrelate] *)

Definition thres : Q := 2 # 10.

(** First loop: the first index [i < SIZE / 2] whose sample is quiet. *)
Fixpoint scanHead (buffer : list Q) (i SIZE : Z) : option Z :=
  match buffer with
  | [] => None
  | x :: rest =>
      if (2 * i <? SIZE)%Z then
        if Qltb (Qabs x) thres then Some i else scanHead rest (i + 1)%Z SIZE
      else None
  end.

(** Second loop, over [buffer[SIZE - i]] for [1 <= i < SIZE / 2]: it walks
    the reversed buffer. *)
Fixpoint scanTail (reversed : list Q) (i SIZE : Z) : option Z :=
  match reversed with
  | [] => None
  | x :: rest =>
      if (2 * i <? SIZE)%Z then
        if Qltb (Qabs x) thres then Some (SIZE - i)%Z
        else scanTail rest (i + 1)%Z SIZE
      else None
  end.

(** [c[i] = sum over j < n - i of buffer2[j] * buffer2[j + i]]. *)
Fixpoint dot (acc : Q) (xs ys : list Q) : Q :=
  match xs, ys with
  | x :: xs', y :: ys' => dot (acc + x * y) xs' ys'
  | _, _ => acc
  end.

Fixpoint correlations (buffer2 shifted : list Q) : list Q :=
  match shifted with
  | [] => []
  | _ :: rest => dot 0 buffer2 shifted :: correlations buffer2 rest
  end.

(** [let d = 0; while (c[d] > c[d + 1]) d++;] -- reading past the end of
    [c] yields [undefined], and the comparison with it is false. *)
Fixpoint firstRise (c : list Q) : Z :=
  match c with
  | x :: ((y :: _) as rest) => if Qgtb x y then (1 + firstRise rest)%Z else 0%Z
  | _ => 0%Z
  end.

(** [for (let i = d; i < buffer2.length; i++) if (c[i] > maxval) ...] *)
Fixpoint peak (c : list Q) (i : Z) (maxval : Q) (maxpos : Z) : Z :=
  match c with
  | [] => maxpos
  | x :: rest =>
      if Qgtb x maxval then peak rest (i + 1)%Z x i
      else peak rest (i + 1)%Z maxval maxpos
  end.

Definition trimmed (buffer : list Q) : list Q :=
  let SIZE := Z.of_nat (length buffer) in
  let r1 := match scanHead buffer 0 SIZE with Some i => i | None => 0%Z end in
  let r2 := match scanTail (rev buffer) 1 SIZE with
            | Some i => i | None => (SIZE - 1)%Z end in
  jsSlice buffer r1 r2.

(** The lag [T0] found by the peak search, [-1] when there is none. *)
Definition period (buffer : list Q) : Z :=
  let buffer2 := trimmed buffer in
  let c := correlations buffer2 buffer2 in
  let d := firstRise c in
  peak (skipn (Z.to_nat d) c) d (-1) (-1)%Z.

Definition unvoiced : jsfloat := Finite (-1).

(** For an empty buffer the quotient [rms / SIZE] is [NaN] in the source,
    the first test fails and the sentinel comes from the peak search; here
    the quotient is 0 and the sentinel comes from the first test. *)

Definition autoCorrelate (buffer : list Q) (sampleRate : Q) : jsfloat :=
  let SIZE := Z.of_nat (length buffer) in
  if sqrtLtb (sumSquares buffer / inject_Z SIZE) (1 # 100) then unvoiced
  else
    let T0 := period buffer in
    if (T0 =? -1)%Z then unvoiced else jsDiv sampleRate T0.

(** *** Frequency to MIDI pitch *)

(** The integer [e] with [2^e <= x < 2^(e+1)], for [x > 0]. *)
Definition floorLog2 (x : Q) : Z :=
  let p := Qnum x in
  let q := Z.pos (Qden x) in
  let k := (Z.log2 p - Z.log2 q)%Z in
  if (if 0 <=? k then q * 2 ^ k <=? p else q <=? p * 2 ^ (- k))%Z
  then k else (k - 1)%Z.

(** [Math.round(69 + 12 * Math.log2(frequency / 440))] on exact numbers.
    [Math.round y] is [floor (y + 1/2)], and
    [floor (69 + 1/2 + 12 * log2 r) = floor ((139 + floor (log2 (r^24))) / 2)]. *)
Definition hzToMidi (frequency : Q) : Z :=
  ((139 + floorLog2 ((frequency / 440) ^ 24)) / 2)%Z.

Definition midiOf (frequency : jsfloat) : jsint :=
  match frequency with
  | Finite f => Fin (hzToMidi f)
  | Infinite true => PosInf
  | _ => NaN
  end.

(** [frequency > 0] *)
Definition isPositive (frequency : jsfloat) : bool :=
  match frequency with
  | Finite f => Qltb 0 f
  | Infinite positive => positive
  | NotANumber => false
  end.

(** *** [analyzeAudioSegment] *)

Definition windowSize : Z := 2048.
Definition hopSize : Z := 1024.
Definition rmsThreshold : Q := 2 # 100.

(** An entry of the intermediate array [notes]. *)
Record RawNote : Type := mkRaw {
  start : Q;
  rawDuration : Q;
  pitch : jsint;
  rawConfidence : Q
}.

(** The loop variables: [currentNoteStart] is [-1] when no note is open. *)
Record Sweep : Type := mkSweep {
  currentNoteStart : Z;
  currentNotePitch : jsint;
  framesInNote : Z;
  notes : list RawNote
}.

Definition initial : Sweep :=
  {| currentNoteStart := (-1)%Z; currentNotePitch := Fin (-1);
     framesInNote := 0%Z; notes := [] |}.

(** What one analysis window looks like to the state machine. *)
Inductive Frame : Type :=
| Silent
| Unvoiced
| Voiced (midiPitch : jsint).

Definition classify (chunk : list Q) (sampleRate : Q) : Frame :=
  let sumSq := sumSquares chunk in
  if sqrtLtb (sumSq / inject_Z (Z.of_nat (length chunk))) rmsThreshold
  then Silent
  else
    let frequency := autoCorrelate chunk sampleRate in
    if isPositive frequency then Voiced (midiOf frequency) else Unvoiced.

Section Segment.

Variable sampleRate : Q.
Variable startTime : Q.

(** The note that is closed at sample index [closeAt]. *)
Definition closing (st : Sweep) (closeAt : Z) (conf : Q) : RawNote :=
  {| start := startTime + inject_Z (currentNoteStart st) / sampleRate;
     rawDuration := inject_Z (closeAt - currentNoteStart st) / sampleRate;
     pitch := currentNotePitch st;
     rawConfidence := conf |}.

Definition pushIfStable (st : Sweep) (closeAt : Z) (conf : Q)
  : list RawNote :=
  if (4 <? framesInNote st)%Z then notes st ++ [closing st closeAt conf]
  else notes st.

(** The body of the window loop at offset [i]. *)
Definition step (i : Z) (frame : Frame) (st : Sweep) : Sweep :=
  match frame with
  | Silent =>
      if (currentNoteStart st =? -1)%Z then st
      else {| currentNoteStart := (-1)%Z;
              currentNotePitch := currentNotePitch st;
              framesInNote := 0%Z;
              notes := pushIfStable st i (8 # 10) |}
  | Unvoiced => st
  | Voiced midiPitch =>
      if (currentNoteStart st =? -1)%Z then
        {| currentNoteStart := i; currentNotePitch := midiPitch;
           framesInNote := 1%Z; notes := notes st |}
      else if JSInt.far midiPitch (currentNotePitch st) then
        {| currentNoteStart := i; currentNotePitch := midiPitch;
           framesInNote := 1%Z;
           notes := pushIfStable st i (85 # 100) |}
      else
        {| currentNoteStart := currentNoteStart st;
           currentNotePitch := currentNotePitch st;
           framesInNote := (framesInNote st + 1)%Z;
           notes := notes st |}
  end.

Variable segmentData : list Q.

Definition frameAt (i : Z) : Frame :=
  classify (jsSlice segmentData i (i + windowSize)%Z) sampleRate.

(** [for (let i = 0; i < segmentData.length - windowSize; i += hopSize)]:
    the number of iterations, and the loop from offset [i]. *)
Definition frameCount : nat :=
  Z.to_nat ((Z.of_nat (length segmentData) - windowSize + hopSize - 1)
            / hopSize).

Fixpoint sweep (count : nat) (i : Z) (st : Sweep) : Sweep :=
  match count with
  | O => st
  | S count' => sweep count' (i + hopSize)%Z (step i (frameAt i) st)
  end.

(** "Close final note". *)
Definition closeFinal (st : Sweep) : list RawNote :=
  if negb (currentNoteStart st =? -1)%Z && (4 <? framesInNote st)%Z then
    notes st ++ [closing st (Z.of_nat (length segmentData)) (85 # 100)]
  else notes st.

Definition rawNotes : list RawNote :=
  closeFinal (sweep frameCount 0 initial).

End Segment.

(** [notes.map((n, idx) => ({ ... }))] *)
Definition toEvent (n : RawNote) (idx : Z) : NoteEvent :=
  {| id := ("evt_real_" +:+ pretty (Qfloor (start n * 1000)) +:+ "_"
              +:+ pretty idx)%string;
     start_time := start n;
     duration := Qmax (1 # 10) (rawDuration n);
     midi_pitch := pitch n;
     velocity := 7 # 10;
     confidence := rawConfidence n |}.

Fixpoint mapIdx (l : list RawNote) (idx : Z) : list NoteEvent :=
  match l with
  | [] => []
  | n :: rest => toEvent n idx :: mapIdx rest (idx + 1)%Z
  end.

(** An [AudioBuffer]: its sample rate and the samples of channel 0. *)
Record AudioBuffer : Type := mkBuffer {
  bufferRate : Q;
  channelData : list Q
}.

Definition segmentOf (audioBuffer : AudioBuffer) (startTime duration : Q)
  : list Q :=
  let sampleRate := bufferRate audioBuffer in
  let startSample := Qfloor (startTime * sampleRate) in
  let endSample := Qfloor ((startTime + duration) * sampleRate) in
  let data := channelData audioBuffer in
  jsSlice data (Z.max 0 startSample)
    (Z.min (Z.of_nat (length data)) endSample).

Definition analyzeAudioSegment (audioBuffer : AudioBuffer)
  (startTime duration : Q) : list NoteEvent :=
  mapIdx
    (rawNotes (bufferRate audioBuffer) startTime
       (segmentOf audioBuffer startTime duration))
    0.

End Analyzer.

(** ** Test signals *)

Module Signals.

(** A full-scale tone at half the sample rate: +1, -1, +1, ... *)
Definition alternating (n : nat) : list Q :=
  map (fun k => if Nat.even k then 1%Q else (-1)%Q) (seq 0 n).

(** Ten loud samples followed by digital silence (one window). *)
Definition click : list Q := repeat 1%Q 10 ++ repeat 0%Q 2038.

(** One sample at full scale, then a constant level of -1. *)
Definition offset (n : nat) : list Q := 1%Q :: repeat (-1)%Q n.

(** One sample at half scale followed by [n] samples of silence. *)
Definition pop (n : nat) : list Q := (1 # 2)%Q :: repeat 0%Q n.

(** The buffers used below. *)
Definition tone : list Q := alternating (Z.to_nat 6145).
Definition toneThenSilence : list Q := tone ++ repeat 0%Q (Z.to_nat 44100).
Definition levelShift : list Q := offset (Z.to_nat 2048).
Definition quietPop : list Q := pop (Z.to_nat 3072).

End Signals.

(** ** Vocabulary of the properties *)

(** Non-decreasing start times. *)
Definition byStart (a b : NoteEvent) : Prop :=
  (start_time a <= start_time b)%Q.

(** The musical content of a note: every field but the identifier, the
    rationals in lowest terms. *)
Definition content (n : NoteEvent) : Q * Q * jsint * Q * Q :=
  (Qred (start_time n), Qred (duration n), midi_pitch n,
   Qred (velocity n), Qred (confidence n)).

(** Bar [b] of a composition is the time interval
    [[b * BAR_DURATION, (b + 1) * BAR_DURATION)]. *)
Definition barEnd (P : Composer.Params) (bar : Z) : Q :=
  inject_Z (bar + 1) * Composer.BAR_DURATION P.

Definition inBar (P : Composer.Params) (b : Z) (n : NoteEvent) : bool :=
  Qgeb (start_time n) (inject_Z b * Composer.BAR_DURATION P)
  && Qltb (start_time n) (barEnd P b).

(** The notes of a call that start inside bar [b]. *)
Definition barNotes (videoId : string) (b : Z) (l : list NoteEvent)
  : list NoteEvent :=
  List.filter (inBar (Composer.setup (Composer.seedOf videoId)) b) l.

(** The window that the sweep reads at offset [i]. *)
Definition window (segmentData : list Q) (i : Z) : list Q :=
  jsSlice segmentData i (i + Analyzer.windowSize).

(** RMS below the silence threshold. *)
Definition quiet (chunk : list Q) : Prop :=
  Analyzer.sqrtLtb
    (Analyzer.sumSquares chunk / inject_Z (Z.of_nat (length chunk)))
    Analyzer.rmsThreshold = true.

(** RMS at or above the silence threshold, and no pitch found. *)
Definition loudButUnvoiced (chunk : list Q) (sampleRate : Q) : Prop :=
  Analyzer.sqrtLtb
    (Analyzer.sumSquares chunk / inject_Z (Z.of_nat (length chunk)))
    Analyzer.rmsThreshold = false
  /\ Analyzer.autoCorrelate chunk sampleRate = Analyzer.unvoiced.

(** ** The application component (part_001) *)

(** [segmentDuration], of type [30 | 60 | 90]. *)
Inductive SegmentDuration : Type := seconds30 | seconds60 | seconds90.

Definition seconds (d : SegmentDuration) : Z :=
  match d with
  | seconds30 => 30
  | seconds60 => 60
  | seconds90 => 90
  end.

(** [Math.min] on exact rationals. *)
Definition Qmin (a b : Q) : Q := if Qle_bool a b then a else b.

(** *** The score (lines 311-314 and 340-387) *)

Module Score.

Local Open Scope Q_scope.

(** [existingIds.has(n.id)] for [existingIds = new Set(prev.map(n => n.id))] *)
Definition hasId (existingIds : list string) (i : string) : bool :=
  existsb (String.eqb i) existingIds.

(** The updater passed to [setNotes]:
<<
    const existingIds = new Set(prev.map(n => n.id));
    const filteredNew = newNotes.filter(n => !existingIds.has(n.id));
    return [...prev, ...filteredNew].sort((a, b) => a.start_time - b.start_time);
>> *)
Definition mergeNotes (prev newNotes : list NoteEvent) : list NoteEvent :=
  let existingIds := map id prev in
  let filteredNew :=
    List.filter (fun n => negb (hasId existingIds (id n))) newNotes in
  sortNotes (prev ++ filteredNew).

Inductive SourceType : Type := file | youtube.

Inductive ToastType : Type := success | error | info | loading.

(** What [analyzeSegment] reads without changing it.  [ytVideoId] and the
    buffer reference may be null. *)
Record Source : Type := mkSource {
  sourceType : SourceType;
  audioBuffer : option Analyzer.AudioBuffer;
  ytVideoId : option string;
  segmentDuration : SegmentDuration
}.

(** What it changes. *)
Record Session : Type := mkSession {
  notes : list NoteEvent;
  processedSegments : list Z;
  isProcessing : bool;
  toast : option (string * ToastType)
}.

(** [showToast(message, type)]: two [setToast] calls, the second one only
    for a loading toast with a message. *)
Definition showToast (message : string) (type : ToastType) : string * ToastType :=
  let first :=
    match type with
    | loading => ("Loading..."%string, type)
    | _ => (message, type)
    end in
  match type, message with
  | loading, String _ _ => (message, type)
  | _, _ => first
  end.

(** The notes of one segment: the analyser for an uploaded file, the
    composer for a video with a non-empty identifier.  The file path passes
    [segmentDuration] itself, the composer the end clipped to the total
    duration. *)
Definition newNotes (src : Source) (index : Z) (totalDuration : Q)
  : list NoteEvent :=
  let startTime := inject_Z (index * seconds (segmentDuration src)) in
  let endTime :=
    Qmin (startTime + inject_Z (seconds (segmentDuration src))) totalDuration in
  match sourceType src, audioBuffer src with
  | file, Some buffer =>
      Analyzer.analyzeAudioSegment buffer startTime
        (inject_Z (seconds (segmentDuration src)))
  | _, _ =>
      match sourceType src, ytVideoId src with
      | youtube, Some (String c rest) =>
          Composer.generateDeterministicNotes (String c rest) startTime endTime
      | _, _ => []
      end
  end.

(** The callback that [analyzeSegment] defers by 500 ms. *)
Definition analysis (src : Source) (index : Z) (totalDuration : Q)
  (s : Session) : Session :=
  {| notes := mergeNotes (notes s) (newNotes src index totalDuration);
     processedSegments :=
       if existsb (Z.eqb index) (processedSegments s) then processedSegments s
       else processedSegments s ++ [index];
     isProcessing := false;
     toast := Some (showToast "Notes Generated" success) |}.

(** [analyzeSegment(index, totalDuration)]: the guards, and what is done
    before the deferred callback.  The result tells whether the callback
    was scheduled. *)
Definition analyzeSegment (src : Source) (index : Z) (totalDuration : Q)
  (s : Session) : Session * bool :=
  if existsb (Z.eqb index) (processedSegments s) then (s, false)
  else if Qeq_bool totalDuration 0 then (s, false)
  else
    match sourceType src, audioBuffer src with
    | file, None =>
        ({| notes := notes s;
            processedSegments := processedSegments s;
            isProcessing := isProcessing s;
            toast :=
              Some (showToast "Audio buffer missing. Please reload file."
                      error) |}, false)
    | _, _ =>
        ({| notes := notes s;
            processedSegments := processedSegments s;
            isProcessing := true;
            toast := Some (showToast "Generating notes..." loading) |}, true)
    end.

End Score.
(** *** Segments and the sequencer (lines 316-320 and 492-661) *)

Module Player.

Local Open Scope Q_scope.

(** Callbacks handed to [setTimeout]. *)
Inductive Deferred : Type :=
| clearSeekTarget
| resumePlaying.

(** Calls that leave the component, in the order they are made. *)
Inductive Call : Type :=
| cancelAnimationFrame
| requestAnimationFrame
| stopAllTones
| resume
| pause
| playTone (midiPitch : jsint) (seconds : Q)
| setTimeout (callback : Deferred) (ms : Z).

(** What the handlers below read without changing it; [audioDuration] is
    [audioState.duration], [notes] and [sequencerSpeed] are read through
    their refs. *)
Record Config : Type := mkConfig {
  segmentDuration : SegmentDuration;
  audioDuration : Q;
  sourceType : Score.SourceType;
  isRestricted : bool;
  notes : list NoteEvent;
  sequencerSpeed : Q
}.

(** What they change: [currentTime] and [isPlaying] are the fields of
    [audioState]; [audioElement] is [audioRef.current], absent or with its
    [currentTime]; [sequencerRef] tells whether a frame was ever requested. *)
Record View : Type := mkView {
  currentTime : Q;
  isPlaying : bool;
  currentSegmentIndex : Z;
  segmentConfirmationOpen : bool;
  isSequencing : bool;
  seekTarget : option Q;
  audioElement : option Q;
  sequencerRef : bool;
  lastFrameTime : Q;
  calls : list Call
}.

Definition setCurrentTime (x : Q) (v : View) : View :=
  mkView x (isPlaying v) (currentSegmentIndex v) (segmentConfirmationOpen v)
    (isSequencing v) (seekTarget v) (audioElement v) (sequencerRef v)
    (lastFrameTime v) (calls v).

Definition setIsPlaying (x : bool) (v : View) : View :=
  mkView (currentTime v) x (currentSegmentIndex v) (segmentConfirmationOpen v)
    (isSequencing v) (seekTarget v) (audioElement v) (sequencerRef v)
    (lastFrameTime v) (calls v).

Definition setCurrentSegmentIndex (x : Z) (v : View) : View :=
  mkView (currentTime v) (isPlaying v) x (segmentConfirmationOpen v)
    (isSequencing v) (seekTarget v) (audioElement v) (sequencerRef v)
    (lastFrameTime v) (calls v).

Definition setSegmentConfirmationOpen (x : bool) (v : View) : View :=
  mkView (currentTime v) (isPlaying v) (currentSegmentIndex v) x
    (isSequencing v) (seekTarget v) (audioElement v) (sequencerRef v)
    (lastFrameTime v) (calls v).

Definition setIsSequencing (x : bool) (v : View) : View :=
  mkView (currentTime v) (isPlaying v) (currentSegmentIndex v)
    (segmentConfirmationOpen v) x (seekTarget v) (audioElement v)
    (sequencerRef v) (lastFrameTime v) (calls v).

Definition setSeekTarget (x : option Q) (v : View) : View :=
  mkView (currentTime v) (isPlaying v) (currentSegmentIndex v)
    (segmentConfirmationOpen v) (isSequencing v) x (audioElement v)
    (sequencerRef v) (lastFrameTime v) (calls v).

(** [if (audioRef.current) audioRef.current.currentTime = x] *)
Definition setElementTime (x : Q) (v : View) : View :=
  mkView (currentTime v) (isPlaying v) (currentSegmentIndex v)
    (segmentConfirmationOpen v) (isSequencing v) (seekTarget v)
    (match audioElement v with Some _ => Some x | None => None end)
    (sequencerRef v) (lastFrameTime v) (calls v).

Definition setLastFrameTime (x : Q) (v : View) : View :=
  mkView (currentTime v) (isPlaying v) (currentSegmentIndex v)
    (segmentConfirmationOpen v) (isSequencing v) (seekTarget v)
    (audioElement v) (sequencerRef v) x (calls v).

Definition call (c : Call) (v : View) : View :=
  mkView (currentTime v) (isPlaying v) (currentSegmentIndex v)
    (segmentConfirmationOpen v) (isSequencing v) (seekTarget v)
    (audioElement v) (sequencerRef v) (lastFrameTime v) (calls v ++ [c]).

(** [sequencerRef.current = requestAnimationFrame(loop)] *)
Definition requestFrame (v : View) : View :=
  mkView (currentTime v) (isPlaying v) (currentSegmentIndex v)
    (segmentConfirmationOpen v) (isSequencing v) (seekTarget v)
    (audioElement v) true (lastFrameTime v)
    (calls v ++ [requestAnimationFrame]).

Definition isFile (cfg : Config) : bool :=
  match sourceType cfg with Score.file => true | Score.youtube => false end.

Definition segmentSeconds (cfg : Config) : Z := seconds (segmentDuration cfg).

(** [stopSequencer] *)
Definition stopSequencer (v : View) : View :=
  let v := if sequencerRef v then call cancelAnimationFrame v else v in
  call stopAllTones (setIsSequencing false v).

(** The tail shared by the three handlers that move to a time: the element
    is set when there is one, a video is sought and the target cleared
    100 ms later. *)
Definition seekVideo (time : Q) (v : View) : View :=
  call (setTimeout clearSeekTarget 100) (setSeekTarget (Some time) v).

Definition moveTo (cfg : Config) (newIndex : Z) (v : View) : View :=
  let time := inject_Z (newIndex * segmentSeconds cfg) in
  let v := setCurrentSegmentIndex newIndex v in
  let v := setCurrentTime time v in
  let v := setElementTime time v in
  if isFile cfg then v else seekVideo time v.

(** [handlePrevSegment] *)
Definition handlePrevSegment (cfg : Config) (v : View) : View :=
  let v' := stopSequencer v in
  if (0 <? currentSegmentIndex v)%Z
  then moveTo cfg (currentSegmentIndex v - 1)%Z v'
  else v'.

(** [handleNextSegment]: [audioState.duration || 0] is the duration. *)
Definition handleNextSegment (cfg : Config) (v : View) : View :=
  let v' := stopSequencer v in
  let maxIndex := Qfloor (audioDuration cfg / inject_Z (segmentSeconds cfg)) in
  if (currentSegmentIndex v <? maxIndex)%Z
  then moveTo cfg (currentSegmentIndex v + 1)%Z v'
  else v'.

(** The [disabled] attribute of the Next button:
    [(currentSegmentIndex + 1) * segmentDuration >= (audioState.duration || Infinity)] *)
Definition nextDisabled (cfg : Config) (v : View) : bool :=
  if Qeq_bool (audioDuration cfg) 0 then false
  else Qgeb (inject_Z ((currentSegmentIndex v + 1) * segmentSeconds cfg))
         (audioDuration cfg).

(** [checkSegmentBoundary(time)] *)
Definition checkSegmentBoundary (cfg : Config) (time : Q) (v : View) : View :=
  if isSequencing v then v
  else
    let segmentIndex := Qfloor (time / inject_Z (segmentSeconds cfg)) in
    if (currentSegmentIndex v <? segmentIndex)%Z then
      let v1 := setIsPlaying false v in
      let v2 :=
        match isFile cfg, audioElement v with
        | true, Some _ => call pause v1
        | _, _ => v1
        end in
      let boundaryTime := inject_Z (segmentIndex * segmentSeconds cfg) in
      let v3 := setCurrentTime boundaryTime v2 in
      let v4 := setElementTime boundaryTime v3 in
      let v5 := setSeekTarget (Some boundaryTime) v4 in
      setSegmentConfirmationOpen true v5
    else v.

(** [proceedToNextSegment] *)
Definition proceedToNextSegment (cfg : Config) (v : View) : View :=
  let v1 := setSegmentConfirmationOpen false v in
  let v2 := stopSequencer v1 in
  let v3 := setCurrentSegmentIndex (currentSegmentIndex v + 1)%Z v2 in
  if isRestricted cfg then v3 else call (setTimeout resumePlaying 100) v3.

(** [handleSeek], for the parsed value [time] of the slider. *)
Definition handleSeek (cfg : Config) (time : Q) (v : View) : View :=
  let v1 := stopSequencer v in
  let v2 := setCurrentTime time v1 in
  let v3 := setSegmentConfirmationOpen false v2 in
  let newSegmentIndex := Qfloor (time / inject_Z (segmentSeconds cfg)) in
  let v4 := setCurrentSegmentIndex newSegmentIndex v3 in
  match isFile cfg, audioElement v with
  | true, Some _ => setElementTime time v4
  | true, None => v4
  | false, _ => if isRestricted cfg then v4 else seekVideo time v4
  end.

(** [handleNativeTimeUpdate] and [handleYoutubeTimeUpdate] *)
Definition handleNativeTimeUpdate (cfg : Config) (v : View) : View :=
  match audioElement v with
  | Some time =>
      if isSequencing v then v
      else checkSegmentBoundary cfg time (setCurrentTime time v)
  | None => v
  end.

Definition handleYoutubeTimeUpdate (cfg : Config) (time : Q) (v : View)
  : View :=
  if isSequencing v then v
  else checkSegmentBoundary cfg time (setCurrentTime time v).

(** *** The segment sequencer *)

(** [start] and [end] of [toggleSegmentSequencer]. *)
Definition segmentStart (cfg : Config) (v : View) : Q :=
  inject_Z (currentSegmentIndex v * segmentSeconds cfg).

Definition segmentEnd (cfg : Config) (v : View) : Q :=
  segmentStart cfg v + inject_Z (segmentSeconds cfg).

(** [toggleSegmentSequencer], at the time [now] of [performance.now()]. *)
Definition toggleSegmentSequencer (cfg : Config) (now : Q) (v : View) : View :=
  if isSequencing v then stopSequencer v
  else
    let v1 := setIsPlaying false v in
    let v2 := match audioElement v with
              | Some _ => call pause v1
              | None => v1
              end in
    let v3 := call resume v2 in
    let start := segmentStart cfg v in
    let v4 :=
      if Qltb (currentTime v) start
         || Qgeb (currentTime v) (segmentEnd cfg v - (1 # 2))
      then setCurrentTime start v3 else v3 in
    requestFrame (setLastFrameTime now (setIsSequencing true v4)).

(** [notesRef.current.filter(n => n.start_time >= prev.currentTime
                                  && n.start_time < newTime)] *)
Definition notesToPlay (cfg : Config) (from newTime : Q) : list NoteEvent :=
  List.filter
    (fun n => Qgeb (start_time n) from && Qltb (start_time n) newTime)
    (notes cfg).

Definition playAll (l : list NoteEvent) (v : View) : View :=
  fold_left (fun v n => call (playTone (midi_pitch n) (duration n)) v) l v.

(** The updater that [loop] passes to [setAudioState], for the delta [dt]
    and the bounds captured by the closure; it is taken to run once for
    each frame, in the order of the frames. *)
Definition advance (cfg : Config) (start fin dt : Q) (v : View) : View :=
  let newTime := currentTime v + dt in
  let v1 := playAll (notesToPlay cfg (currentTime v) newTime) v in
  if Qgeb newTime fin
  then setIsPlaying false (setCurrentTime start (stopSequencer v1))
  else setCurrentTime newTime v1.

(** [loop(time)], one animation frame. *)
Definition loop (cfg : Config) (start fin time : Q) (v : View) : View :=
  let dt := ((time - lastFrameTime v) / 1000) * sequencerSpeed cfg in
  requestFrame (advance cfg start fin dt (setLastFrameTime time v)).

(** The frames delivered at the given times. *)
Definition frames (cfg : Config) (start fin : Q) (times : list Q) (v : View)
  : View :=
  fold_left (fun v time => loop cfg start fin time v) times v.

(** *** The playback speed *)

(** [x.toFixed(2)] read back by [parseFloat], for [x >= 0]: the nearest
    multiple of 1/100, the larger one of two nearest. *)
Definition toFixed2 (x : Q) : Q := Qfloor (x * 100 + (1 # 2)) # 100.

(** The updater of [changeSequencerSpeed(delta)]. *)
Definition changeSequencerSpeed (delta prev : Q) : Q :=
  let next := Qmax (1 # 4) (Qmin 2 (prev + delta)) in
  toFixed2 next.

End Player.
(** ** Note labels ([formatPitch], the second unit of
       src/components/Equalizer.tsx, lines 96-143) *)

Module PitchUtils.

Inductive Format : Type := scientific | note_only | solfege.
Inductive AccidentalStyle : Type := sharp | flat | double_sharp.
Inductive Position : Type := above | below | inside.

(** [LabelSettings]; [formatPitch] reads [format], [accidentalStyle] and
    [showOctave]. *)
Record LabelSettings : Type := mkSettings {
  showLabels : bool;
  format : Format;
  accidentalStyle : AccidentalStyle;
  showOctave : bool;
  showCentOffset : bool;
  position : Position;
  minConfidence : Q
}.

Record NoteLabel : Type := mkLabel {
  display : string;
  isAccidental : bool;
  octave : Z
}.

Definition noteNamesSharp : list string :=
  ["C"; "C#"; "D"; "D#"; "E"; "F"; "F#"; "G"; "G#"; "A"; "A#"; "B"]%string.
Definition noteNamesFlat : list string :=
  ["C"; "Db"; "D"; "Eb"; "E"; "F"; "Gb"; "G"; "Ab"; "A"; "Bb"; "B"]%string.
Definition solfegeNames : list string :=
  ["Do"; "Di"; "Re"; "Ri"; "Mi"; "Fa"; "Fi"; "Sol"; "Si"; "La"; "Li"; "Ti"]%string.

(** The signs U+266D and U+266F, as their UTF-8 bytes.  Strings are
    sequences of bytes here; the only length that the code tests is that
    of a solfege name, which is ASCII. *)
Definition flatSign : string :=
  String (ascii_of_nat 226)
    (String (ascii_of_nat 153) (String (ascii_of_nat 173) EmptyString)).
Definition sharpSign : string :=
  String (ascii_of_nat 226)
    (String (ascii_of_nat 153) (String (ascii_of_nat 175) EmptyString)).

(** [s.includes(c)], [s.endsWith(c)] and [s.replace(c, t)] for a
    one-character pattern; [replace] changes the first occurrence only. *)
Fixpoint includes (c : ascii) (s : string) : bool :=
  match s with
  | EmptyString => false
  | String d rest => Ascii.eqb d c || includes c rest
  end.

Fixpoint endsWith (c : ascii) (s : string) : bool :=
  match s with
  | EmptyString => false
  | String d EmptyString => Ascii.eqb d c
  | String _ rest => endsWith c rest
  end.

Fixpoint replace (c : ascii) (t : string) (s : string) : string :=
  match s with
  | EmptyString => EmptyString
  | String d rest =>
      if Ascii.eqb d c then (t +:+ rest)%string else String d (replace c t rest)
  end.

(** [names[semitone]]: [undefined] for a negative remainder. *)
Definition nameAt (names : list string) (semitone : Z) : option string :=
  if semitone <? 0 then None else nth_error names (Z.to_nat semitone).

(** The standard names with the replacement of the accidental sign. *)
Definition standardName (style : AccidentalStyle) (baseName : string)
  : string * bool :=
  let useSharps := match style with flat => false | _ => true end in
  let isAccidental := includes "#" baseName || includes "b" baseName in
  let baseName :=
    match style with
    | double_sharp =>
        if isAccidental && useSharps then
          if includes "#" baseName then replace "#" "x" baseName else baseName
        else baseName
    | flat =>
        if isAccidental && negb useSharps then
          if includes "b" baseName then replace "b" flatSign baseName
          else baseName
        else baseName
    | sharp =>
        if isAccidental && useSharps then
          if includes "#" baseName then replace "#" sharpSign baseName
          else baseName
        else baseName
    end in
  (baseName, isAccidental).

(** [formatPitch(midiPitch, settings)].  [None] stands for the [TypeError]
    raised when [names[semitone]] is [undefined] and the code reads its
    [length] or calls [includes] on it. *)
Definition formatPitch (midiPitch : jsint) (settings : LabelSettings)
  : option NoteLabel :=
  match midiPitch with
  | Fin z =>
      let octave := z / 12 - 1 in
      let semitone := Z.rem z 12 in
      let named :=
        match format settings with
        | solfege =>
            match nameAt solfegeNames semitone with
            | Some baseName =>
                Some (baseName,
                      Nat.eqb (String.length baseName) 2
                      && endsWith "i" baseName)
            | None => None
            end
        | _ =>
            let names :=
              match accidentalStyle settings with
              | flat => noteNamesFlat
              | _ => noteNamesSharp
              end in
            match nameAt names semitone with
            | Some baseName =>
                Some (standardName (accidentalStyle settings) baseName)
            | None => None
            end
        end in
      match named with
      | Some (baseName, isAccidental) =>
          let display :=
            if showOctave settings
               && match format settings with note_only => false | _ => true end
            then (baseName +:+ pretty octave)%string
            else baseName in
          Some {| display := display; isAccidental := isAccidental;
                  octave := octave |}
      | None => None
      end
  | _ => None
  end.

End PitchUtils.

(** ** The sheet ([SheetMusic], the second unit of
       src/components/ConfidenceHeatmap.tsx, lines 54-228) *)

Module SheetMusic.

Import PitchUtils.
Local Open Scope Q_scope.

Definition STAFF_LINE_SPACING : Q := 10.
Definition PIXELS_PER_SECOND : Q := 80.
Definition PADDING_LEFT : Q := 40.

(** [getYForPitch]; the pitch of an analysed note can be infinite. *)
Definition getYForPitch (midiPitch : jsint) : jsfloat :=
  match midiPitch with
  | Fin z =>
      let semitoneDiff := inject_Z (z - 71) in
      Finite (80 - semitoneDiff * (STAFF_LINE_SPACING / 2))
  | PosInf => Infinite false
  | NaN => NotANumber
  end.

(** [renderStaffLines]: the heights of the five lines. *)
Definition staffLines : list Q :=
  map (fun i => 60 + inject_Z i * STAFF_LINE_SPACING) [0; 1; 2; 3; 4]%Z.

(** [new Date(s * 1000).toISOString().substr(14, 5)], minutes and seconds
    of the time of day, for [s] seconds from the epoch. *)
Definition pad2 (n : Z) : string :=
  if (n <? 10)%Z then ("0" +:+ pretty n)%string else pretty n.

Definition timeLabel (s : Z) : string :=
  (pad2 ((s / 60) mod 60) +:+ ":" +:+ pad2 (s mod 60))%string.

Record Tick : Type := mkTick {
  second : Z;
  tickX : Q;
  isMajor : bool;
  tickLabel : option string
}.

(** The ruler loop from second [s], at most [count] more iterations, with
    its [break]. *)
Fixpoint rulerFrom (count : nat) (s : Z) (width : Q) : list Tick :=
  match count with
  | O => []
  | S count' =>
      let x := PADDING_LEFT + inject_Z s * PIXELS_PER_SECOND in
      if Qgtb x width then []
      else
        let isMajor := (Z.rem s 5 =? 0)%Z in
        {| second := s; tickX := x; isMajor := isMajor;
           tickLabel := if isMajor then Some (timeLabel s) else None |}
          :: rulerFrom count' (s + 1)%Z width
  end.

(** [renderRuler(width)]: [s] runs from 0 to [totalSeconds] inclusive. *)
Definition renderRuler (width : Q) : list Tick :=
  let totalSeconds := Qceiling (width / PIXELS_PER_SECOND) in
  rulerFrom (Z.to_nat (totalSeconds + 1)) 0 width.

Definition totalWidth (totalDuration : Q) : Q :=
  let minWidth := 1000 in
  let computedWidth :=
    PADDING_LEFT + Qmax 1 totalDuration * PIXELS_PER_SECOND + 100 in
  Qmax minWidth computedWidth.

(** The abscissae of the bar lines, one every four seconds. *)
Definition barLines (totalDuration : Q) : list Q :=
  map (fun i => PADDING_LEFT + inject_Z (Z.of_nat i) * 4 * PIXELS_PER_SECOND)
    (seq 0 (Z.to_nat (Qfloor (totalDuration / 4) + 1))).

(** Comparisons of a height with a finite bound. *)
Definition lessThan (y : jsfloat) (bound : Q) : bool :=
  match y with
  | Finite q => Qltb q bound
  | Infinite positive => negb positive
  | NotANumber => false
  end.

Definition greaterThan (y : jsfloat) (bound : Q) : bool :=
  match y with
  | Finite q => Qgtb q bound
  | Infinite positive => positive
  | NotANumber => false
  end.

Definition shift (y : jsfloat) (d : Q) : jsfloat :=
  match y with
  | Finite q => Finite (q + d)
  | other => other
  end.

(** What is drawn for one note. *)
Record Glyph : Type := mkGlyph {
  x : Q;
  y : jsfloat;
  isSelected : bool;
  ledgerAbove : bool;
  ledgerBelow : bool;
  labelContent : option string;
  labelY : jsfloat;
  lowConfidenceMark : bool
}.

(** A label used as a condition: [null] and the empty string are false. *)
Definition shown (labelContent : option string) : bool :=
  match labelContent with
  | Some (String _ _) => true
  | _ => false
  end.

(** The body of [notes.map((note) => ...)].  [None] when [formatPitch]
    throws. *)
Definition renderNote (selectedNoteId : option string)
  (labelSettings : LabelSettings) (note : NoteEvent) : option Glyph :=
  let x := PADDING_LEFT + start_time note * PIXELS_PER_SECOND in
  let y := getYForPitch (midi_pitch note) in
  let isSelected :=
    match selectedNoteId with
    | Some i => String.eqb i (id note)
    | None => false
    end in
  let labelled :=
    if showLabels labelSettings
       && Qgeb (confidence note) (minConfidence labelSettings)
    then match formatPitch (midi_pitch note) labelSettings with
         | Some labelData => Some (Some (display labelData))
         | None => None
         end
    else Some None in
  match labelled with
  | Some labelContent =>
      let labelY :=
        match position labelSettings with
        | below => shift y 25
        | inside => shift y 3
        | above => shift y (-15)
        end in
      Some {| x := x; y := y; isSelected := isSelected;
              ledgerAbove := lessThan y 60;
              ledgerBelow := greaterThan y 100;
              labelContent := labelContent;
              labelY := labelY;
              lowConfidenceMark :=
                Qltb (confidence note) (8 # 10) && negb (shown labelContent) |}
  | None => None
  end.

End SheetMusic.

(** ** The spectrum bars ([draw], the first unit of
       src/components/Equalizer.tsx, lines 12-56) *)

Module Equalizer.

Local Open Scope Q_scope.

Record Rect : Type := mkRect {
  left : Q;
  top : Q;
  rectWidth : Q;
  rectHeight : Q
}.

(** [(width / data.length) * 2.5]; the loop that reads it does not run for
    an empty array. *)
Definition barWidth (width : Z) (len : nat) : Q :=
  (inject_Z width / inject_Z (Z.of_nat len)) * (25 # 10).

(** The loop from abscissa [x] over the remaining bins, with its [break]. *)
Fixpoint drawFrom (data : list Byte.byte) (x barWidth : Q) (width height : Z)
  : list Rect :=
  match data with
  | [] => []
  | b :: rest =>
      let barHeight :=
        (inject_Z (Z.of_N (Byte.to_N b)) / 255) * inject_Z height in
      let bar := {| left := x; top := inject_Z height - barHeight;
                    rectWidth := barWidth; rectHeight := barHeight |} in
      let x' := x + (barWidth + 1) in
      if Qgtb x' (inject_Z width) then [bar]
      else bar :: drawFrom rest x' barWidth width height
  end.

(** The rectangles filled by one call of [draw] on a canvas of the given
    size. *)
Definition draw (data : list Byte.byte) (width height : Z) : list Rect :=
  drawFrom data 0 (barWidth width (length data)) width height.

End Equalizer.
(** ** The rhythm engine (part_000 lines 13-19 and 328-372) *)

Module Rhythm.

Local Open Scope Q_scope.

(** A step of a [RhythmPattern], with the fields that the engine reads. *)
Record Step : Type := mkStep {
  beat : Q;
  sound : string;
  velocity : Q
}.

Module RhythmPattern.

Record t : Type := mk {
  length : Q;
  steps : list Step
}.

End RhythmPattern.

(** A call [playDrumSound(sound, velocity)]; the sound starts at the
    [currentTime] of the audio context at the call. *)
Record Hit : Type := mkHit {
  at_time : Q;
  hit_sound : string;
  hit_velocity : Q
}.

(** The fields of the engine used by the rhythm methods.  [timers] are the
    pending timeouts with their identifiers, [nextTimer] the identifier that
    [setTimeout] returns next, [played] the drum sounds started so far. *)
Record Engine : Type := mkEngine {
  hasContext : bool;
  nextNoteTime : jsfloat;
  currentBeatIndex : Q;
  rhythmTimerID : option nat;
  isRhythmPlaying : bool;
  currentPattern : option RhythmPattern.t;
  currentBpm : Q;
  timers : list nat;
  nextTimer : nat;
  played : list Hit
}.

(** [secondsPerBeat * 0.5] for [secondsPerBeat = 60.0 / bpm]: infinite for
    a zero tempo. *)
Definition halfBeat (bpm : Q) : jsfloat :=
  if Qeq_bool bpm 0 then Infinite true else Finite ((60 / bpm) * (1 # 2)).

(** [t + d] *)
Definition plus (t d : jsfloat) : jsfloat :=
  match t, d with
  | Finite a, Finite b => Finite (a + b)
  | Finite _, Infinite s => Infinite s
  | Infinite s, Finite _ => Infinite s
  | Infinite s, Infinite s' => if Bool.eqb s s' then Infinite s else NotANumber
  | _, _ => NotANumber
  end.

(** [nextNoteTime < currentTime + 0.1] *)
Definition due (t : jsfloat) (now : Q) : bool :=
  match t with
  | Finite a => Qltb a (now + (1 # 10))
  | Infinite positive => negb positive
  | NotANumber => false
  end.

(** [a % b]: the remainder has the sign of [a]; [None] is [NaN]. *)
Definition truncate (q : Q) : Z :=
  if Qle_bool 0 q then Qfloor q else Qceiling q.

Definition remainder (a b : Q) : option Q :=
  if Qeq_bool b 0 then None else Some (a - b * inject_Z (truncate (a / b))).

(** The steps that sound at one position of the loop. *)
Definition sounding (pattern : RhythmPattern.t) (currentBeatIndex : Q)
  : list Step :=
  match remainder currentBeatIndex (RhythmPattern.length pattern) with
  | Some currentBeatInBar =>
      List.filter
        (fun step => Qltb (Qabs (beat step - currentBeatInBar)) (1 # 100))
        (RhythmPattern.steps pattern)
  | None => []
  end.

(** "Advance beat", at 8th note resolution. *)
Definition advanceBeat (pattern : RhythmPattern.t) (currentBeatIndex : Q) : Q :=
  let next := currentBeatIndex + (1 # 2) in
  if Qgeb next (RhythmPattern.length pattern) then 0 else next.

(** The [while] loop of [scheduleNote], at the time [now] of the audio
    context.  [None]: the fuel ran out while the loop test still held. *)
Fixpoint scheduleLoop (fuel : nat) (pattern : RhythmPattern.t)
  (half : jsfloat) (now : Q) (nextNoteTime : jsfloat) (currentBeatIndex : Q)
  (hits : list Hit) : option (jsfloat * Q * list Hit) :=
  if due nextNoteTime now then
    match fuel with
    | O => None
    | S fuel' =>
        scheduleLoop fuel' pattern half now (plus nextNoteTime half)
          (advanceBeat pattern currentBeatIndex)
          (hits ++ map (fun step => mkHit now (sound step) (velocity step))
                     (sounding pattern currentBeatIndex))
    end
  else Some (nextNoteTime, currentBeatIndex, hits).

(** [scheduleNote()] *)
Definition scheduleNote (fuel : nat) (now : Q) (e : Engine) : option Engine :=
  match currentPattern e, hasContext e with
  | Some pattern, true =>
      match scheduleLoop fuel pattern (halfBeat (currentBpm e)) now
              (nextNoteTime e) (currentBeatIndex e) (played e) with
      | Some (t, b, hits) =>
          Some
            (if isRhythmPlaying e then
               mkEngine true t b (Some (nextTimer e)) true (Some pattern)
                 (currentBpm e) (timers e ++ [nextTimer e])
                 (S (nextTimer e)) hits
             else
               mkEngine true t b (rhythmTimerID e) false (Some pattern)
                 (currentBpm e) (timers e) (nextTimer e) hits)
      | None => None
      end
  | _, _ => Some e
  end.

(** [startRhythm(pattern, bpm)] *)
Definition startRhythm (fuel : nat) (pattern : RhythmPattern.t) (bpm : Q)
  (now : Q) (e : Engine) : option Engine :=
  if isRhythmPlaying e then Some e
  else
    scheduleNote fuel now
      (mkEngine (hasContext e)
         (Finite (if hasContext e then now else 0)) 0 (rhythmTimerID e) true
         (Some pattern) bpm (timers e) (nextTimer e) (played e)).

(** [stopRhythm()]: [clearTimeout] removes the timer if it is pending. *)
Definition stopRhythm (e : Engine) : Engine :=
  mkEngine (hasContext e) (nextNoteTime e) (currentBeatIndex e)
    (rhythmTimerID e) false (currentPattern e) (currentBpm e)
    (match rhythmTimerID e with
     | Some i => List.filter (fun j => negb (Nat.eqb j i)) (timers e)
     | None => timers e
     end)
    (nextTimer e) (played e).

(** The timeout [i] fires: it leaves the pending set and runs
    [scheduleNote]. *)
Definition timeout (fuel : nat) (i : nat) (now : Q) (e : Engine)
  : option Engine :=
  if existsb (Nat.eqb i) (timers e) then
    scheduleNote fuel now
      (mkEngine (hasContext e) (nextNoteTime e) (currentBeatIndex e)
         (rhythmTimerID e) (isRhythmPlaying e) (currentPattern e)
         (currentBpm e)
         (List.filter (fun j => negb (Nat.eqb j i)) (timers e))
         (nextTimer e) (played e))
  else Some e.

(** A new engine. *)
Definition initial (hasContext : bool) : Engine :=
  mkEngine hasContext (Finite 0) 0 None false None 120 [] 1 [].

(** The calls that reach the engine from outside, in some order: the two
    methods and the firing of a timeout. *)
Inductive Event : Type :=
| start (pattern : RhythmPattern.t) (bpm now : Q)
| stop
| fire (i : nat) (now : Q).

Definition react (fuel : nat) (ev : Event) (e : Engine) : option Engine :=
  match ev with
  | start pattern bpm now => startRhythm fuel pattern bpm now e
  | stop => Some (stopRhythm e)
  | fire i now => timeout fuel i now e
  end.

Fixpoint run (fuel : nat) (events : list Event) (e : Engine) : option Engine :=
  match events with
  | [] => Some e
  | ev :: rest =>
      match react fuel ev e with
      | Some e' => run fuel rest e'
      | None => None
      end
  end.

End Rhythm.

(** * Properties *)

(** ** The random source *)

Module JSFacts.

Import JS.

Lemma toUint32_range x : 0 <= toUint32 x < two32.
Proof. unfold toUint32, two32. apply Z.mod_pos_bound. lia. Qed.

Lemma toUint32_small x : 0 <= x < two32 -> toUint32 x = x.
Proof. unfold toUint32. intros H. now apply Z.mod_small. Qed.

Lemma toUint32_idem x : toUint32 (toUint32 x) = toUint32 x.
Proof. apply toUint32_small, toUint32_range. Qed.

Lemma toUint32_toInt32 x : toUint32 (toInt32 x) = toUint32 x.
Proof.
  unfold toUint32, toInt32, two32, two31.
  Z.div_mod_to_equations. lia.
Qed.

Lemma toUint32_land x : toUint32 x = Z.land x (Z.ones 32).
Proof. unfold toUint32, two32. now rewrite Z.land_ones by lia. Qed.

Lemma toUint32_lxor a b :
  toUint32 (Z.lxor a b) = Z.lxor (toUint32 a) (toUint32 b).
Proof.
  rewrite !toUint32_land. apply Z.bits_inj'. intros n Hn.
  rewrite !Z.land_spec, !Z.lxor_spec, !Z.land_spec.
  now destruct (Z.testbit a n), (Z.testbit b n), (Z.testbit (Z.ones 32) n).
Qed.

Lemma toUint32_lor a b :
  toUint32 (Z.lor a b) = Z.lor (toUint32 a) (toUint32 b).
Proof.
  rewrite !toUint32_land. apply Z.bits_inj'. intros n Hn.
  rewrite !Z.land_spec, !Z.lor_spec, !Z.land_spec.
  now destruct (Z.testbit a n), (Z.testbit b n), (Z.testbit (Z.ones 32) n).
Qed.

Lemma toUint32_mul a b : toUint32 (a * b) = toUint32 (toUint32 a * toUint32 b).
Proof. unfold toUint32. apply Zmult_mod. Qed.

Lemma toUint32_add a b : toUint32 (a + b) = toUint32 (toUint32 a + toUint32 b).
Proof. unfold toUint32. apply Zplus_mod. Qed.

Lemma toUint32_xor a b : toUint32 (xor a b) = Z.lxor (toUint32 a) (toUint32 b).
Proof. unfold xor. now rewrite toUint32_lxor, !toUint32_toInt32. Qed.

Lemma toUint32_or a b : toUint32 (or a b) = Z.lor (toUint32 a) (toUint32 b).
Proof. unfold or. now rewrite toUint32_lor, !toUint32_toInt32. Qed.

Lemma toUint32_imul a b :
  toUint32 (imul a b) = toUint32 (toUint32 a * toUint32 b).
Proof.
  unfold imul. rewrite toUint32_toInt32, toUint32_mul.
  now rewrite !toUint32_toInt32.
Qed.

Lemma ushr_range a n : 0 <= n -> 0 <= ushr a n < two32.
Proof.
  intros Hn. unfold ushr. pose proof (toUint32_range a) as [H0 H1].
  split.
  - now apply Z.shiftr_nonneg.
  - rewrite Z.shiftr_div_pow2 by assumption.
    apply Z.le_lt_trans with (toUint32 a); [|assumption].
    apply Z.div_le_upper_bound; [lia|].
    assert (1 <= 2 ^ n) by (apply Z.pow_pos_nonneg with (a := 2) in Hn; lia).
    nia.
Qed.

Lemma toUint32_ushr a n : 0 <= n -> toUint32 (ushr a n) = ushr a n.
Proof. intros Hn. now apply toUint32_small, ushr_range. Qed.

End JSFacts.

Lemma getSeededRandomBits_range seed :
  0 <= getSeededRandomBits seed < 4294967296.
Proof.
  unfold getSeededRandomBits. cbv zeta.
  apply (JSFacts.ushr_range _ 0). lia.
Qed.

(** The model of the code computes the specified mixing sequence, for every
    integral cursor. *)
Lemma getSeededRandomBits_mix seed :
  getSeededRandomBits seed = SeedStreamSpec.mix seed.
Proof.
  unfold getSeededRandomBits, SeedStreamSpec.mix, SeedStreamSpec.wrap.
  cbv zeta.
  change (2 ^ 32) with JS.two32.
  fold (JS.toUint32 (seed + 1831565813)).
  set (t0 := seed + 1831565813).
  set (t1 := JS.imul (JS.xor t0 (JS.ushr t0 15)) (JS.or t0 1)).
  set (t2 := JS.xor t1 (t1 + JS.imul (JS.xor t1 (JS.ushr t1 7)) (JS.or t1 61))).
  assert (H1 : JS.toUint32 t1
               = (Z.lxor (JS.toUint32 t0) (Z.shiftr (JS.toUint32 t0) 15)
                  * Z.lor (JS.toUint32 t0) 1) mod JS.two32).
  { unfold t1. rewrite JSFacts.toUint32_imul, JSFacts.toUint32_xor,
      JSFacts.toUint32_or, JSFacts.toUint32_ushr by lia.
    reflexivity. }
  rewrite <- H1.
  assert (H2 : JS.toUint32 t2
               = Z.lxor (JS.toUint32 t1)
                   ((JS.toUint32 t1
                     + (Z.lxor (JS.toUint32 t1) (Z.shiftr (JS.toUint32 t1) 7)
                        * Z.lor (JS.toUint32 t1) 61) mod JS.two32)
                    mod JS.two32)).
  { unfold t2. rewrite JSFacts.toUint32_xor, JSFacts.toUint32_add,
      JSFacts.toUint32_imul, JSFacts.toUint32_xor, JSFacts.toUint32_or,
      JSFacts.toUint32_ushr by lia.
    reflexivity. }
  rewrite <- H2.
  unfold JS.ushr at 1. rewrite Z.shiftr_0_r.
  rewrite JSFacts.toUint32_xor, JSFacts.toUint32_ushr by lia.
  reflexivity.
Qed.

Lemma getSeededRandom_range seed :
  (0 <= getSeededRandom seed /\ getSeededRandom seed < 1)%Q.
Proof.
  pose proof (getSeededRandomBits_range seed) as [H0 H1].
  unfold getSeededRandom. split.
  - apply Qle_shift_div_l; [reflexivity|].
    rewrite Qmult_0_l. change 0%Q with (inject_Z 0). now rewrite <- Zle_Qle.
  - apply Qlt_shift_div_r; [reflexivity|].
    rewrite Qmult_1_l. now rewrite <- Zlt_Qlt.
Qed.

(** C9. For every 32-bit integer state (read as a signed or as an unsigned
    word), one draw of the seeded random source lies in [0,1), it is a
    function of the state alone, and it is the value of the specified
    32-bit wraparound mixing sequence divided by 2^32. *)
Theorem C9_seeded_random_draw :
  forall state : Z,
    - 2 ^ 31 <= state < 2 ^ 32 ->
    (0 <= getSeededRandom state /\ getSeededRandom state < 1)%Q
    /\ (forall state', state' = state ->
          getSeededRandom state' = getSeededRandom state)
    /\ getSeededRandom state = SeedStreamSpec.value state
    /\ (Composer.rng state, state + 1) = SeedStreamSpec.next state.
Proof.
  intros state _.
  assert (Hv : getSeededRandom state = SeedStreamSpec.value state).
  { unfold getSeededRandom, SeedStreamSpec.value.
    now rewrite getSeededRandomBits_mix. }
  split; [apply getSeededRandom_range|].
  split; [now intros ? ->|].
  split; [exact Hv|].
  unfold SeedStreamSpec.next, Composer.rng. now rewrite Hv.
Qed.

Lemma C9_seeded_random_draw_witness :
  - 2 ^ 31 <= 448 < 2 ^ 32
  /\ getSeededRandom 448 = SeedStreamSpec.value 448.
Proof.
  split; [lia|].
  apply (C9_seeded_random_draw 448). lia.
Defined.

(** ** Identifiers: fields separated by a character *)

Module Ids.

Section Separator.

Variable sep : ascii.

(** The separator does not occur in the string. *)
Fixpoint lacks (s : string) : bool :=
  match s with
  | EmptyString => true
  | String c rest => negb (Ascii.eqb c sep) && lacks rest
  end.

(** The separated fields of a string. *)
Fixpoint fields (s : string) : list string :=
  match s with
  | EmptyString => [EmptyString]
  | String c rest =>
      if Ascii.eqb c sep then EmptyString :: fields rest
      else match fields rest with
           | f :: fs => String c f :: fs
           | [] => [String c EmptyString]
           end
  end.

Lemma fields_last a : lacks a = true -> fields a = [a].
Proof.
  induction a as [|c a IH]; simpl; intros H; [reflexivity|].
  apply andb_true_iff in H as [Hc Ha].
  destruct (Ascii.eqb c sep); [discriminate|].
  now rewrite IH.
Qed.

Lemma fields_cons a rest :
  lacks a = true -> fields (a +:+ String sep rest) = a :: fields rest.
Proof.
  induction a as [|c a IH]; simpl; intros H.
  - now rewrite Ascii.eqb_refl.
  - apply andb_true_iff in H as [Hc Ha].
    destruct (Ascii.eqb c sep); [discriminate|].
    now rewrite IH.
Qed.

Lemma lacks_app a b :
  lacks a = true -> lacks b = true -> lacks (a +:+ b) = true.
Proof.
  induction a as [|c a IH]; simpl; intros Ha Hb; [assumption|].
  apply andb_true_iff in Ha as [Hc Ha].
  rewrite Hc. now apply IH.
Qed.

(** Decimal numerals contain digits and a sign only. *)
Hypothesis sep_not_digit : forall x, Ascii.eqb (pretty_N_char x) sep = false.
Hypothesis sep_not_minus : Ascii.eqb "-" sep = false.

Lemma lacks_pretty_N_go x :
  forall s, lacks s = true -> lacks (pretty_N_go x s) = true.
Proof.
  induction (N.lt_wf_0 x) as [x _ IH]. intros s Hs.
  destruct (N.eq_dec x 0%N) as [->|Hx].
  - now rewrite pretty_N_go_0.
  - rewrite pretty_N_go_step by lia.
    apply IH.
    + apply N.div_lt; lia.
    + cbn [lacks]. now rewrite sep_not_digit.
Qed.

Lemma lacks_pretty_N (x : N) : lacks (pretty x) = true.
Proof.
  unfold pretty, pretty_N. destruct (decide (x = 0%N)).
  - change "0"%string with (String (pretty_N_char 0) EmptyString).
    cbn [lacks]. now rewrite sep_not_digit.
  - now apply lacks_pretty_N_go.
Qed.

Lemma lacks_pretty_Z (z : Z) : lacks (pretty z) = true.
Proof.
  destruct z as [|p|p].
  - apply (lacks_pretty_N 0%N).
  - apply (lacks_pretty_N (N.pos p)).
  - change (lacks (String "-" (pretty (N.pos p))) = true).
    cbn [lacks]. rewrite sep_not_minus. apply (lacks_pretty_N (N.pos p)).
Qed.

End Separator.

Lemma digit_not_underscore x : Ascii.eqb (pretty_N_char x) "_" = false.
Proof.
  unfold pretty_N_char.
  destruct x as [|p]; [reflexivity|].
  do 4 (destruct p as [p|p|]; try reflexivity).
Qed.

Lemma digit_not_dot x : Ascii.eqb (pretty_N_char x) "." = false.
Proof.
  unfold pretty_N_char.
  destruct x as [|p]; [reflexivity|].
  do 4 (destruct p as [p|p|]; try reflexivity).
Qed.

(** No underscore in a numeral, and no dot either. *)
Lemma clean_pretty (z : Z) : lacks "_" (pretty z) = true.
Proof. apply lacks_pretty_Z; [apply digit_not_underscore | reflexivity]. Qed.

Lemma dotless_pretty (z : Z) : lacks "." (pretty z) = true.
Proof. apply lacks_pretty_Z; [apply digit_not_dot | reflexivity]. Qed.

(** *** The identifiers of the two producers *)

Lemma renderBeat_fields currentBeat2 :
  fields "." (Composer.renderBeat currentBeat2)
  = if Z.even currentBeat2 then [pretty (currentBeat2 / 2)%Z]
    else [pretty (currentBeat2 / 2)%Z; "5"%string].
Proof.
  unfold Composer.renderBeat. destruct (Z.even currentBeat2).
  - apply fields_last, dotless_pretty.
  - change (pretty (currentBeat2 / 2) +:+ ".5")%string
      with (pretty (currentBeat2 / 2) +:+ String "." "5")%string.
    now rewrite fields_cons by apply dotless_pretty.
Qed.

Lemma renderBeat_inj a b :
  Composer.renderBeat a = Composer.renderBeat b -> a = b.
Proof.
  intros E. apply (f_equal (fields ".")) in E.
  rewrite !renderBeat_fields in E.
  destruct (Z.even a) eqn:Ha, (Z.even b) eqn:Hb; try discriminate;
    injection E as E; apply (inj pretty) in E.
  - apply Z.even_spec in Ha as [x ->], Hb as [y ->].
    rewrite !(Z.mul_comm 2), !Z.div_mul in E by lia. congruence.
  - rewrite <- Z.negb_odd in Ha, Hb. apply negb_false_iff in Ha, Hb.
    apply Z.odd_spec in Ha as [x ->], Hb as [y ->].
    rewrite !(Z.mul_comm 2), !Z.div_add_l in E by lia.
    change (1 / 2)%Z with 0%Z in E. lia.
Qed.

Lemma clean_renderBeat currentBeat2 :
  lacks "_" (Composer.renderBeat currentBeat2) = true.
Proof.
  unfold Composer.renderBeat. destruct (Z.even currentBeat2).
  - apply clean_pretty.
  - apply lacks_app; [apply clean_pretty | reflexivity].
Qed.

Lemma fields_bass (bar : Z) (k : string) :
  lacks "_" k = true ->
  fields "_" ("bass_" +:+ pretty bar +:+ String "_" k)
  = ["bass"%string; pretty bar; k].
Proof.
  intros Hk.
  change ("bass_" +:+ pretty bar +:+ String "_" k)%string
    with ("bass" +:+ String "_" (pretty bar +:+ String "_" k))%string.
  rewrite fields_cons by reflexivity.
  rewrite fields_cons by apply clean_pretty.
  now rewrite fields_last.
Qed.

Lemma fields_harm (bar idx : Z) :
  fields "_" ("harm_" +:+ pretty bar +:+ "_" +:+ pretty idx)
  = ["harm"%string; pretty bar; pretty idx].
Proof.
  change ("harm_" +:+ pretty bar +:+ "_" +:+ pretty idx)%string
    with ("harm" +:+ String "_" (pretty bar +:+ String "_" (pretty idx)))%string.
  rewrite fields_cons by reflexivity.
  rewrite fields_cons by apply clean_pretty.
  rewrite fields_last by apply clean_pretty.
  reflexivity.
Qed.

Lemma fields_mel (bar currentBeat2 r : Z) :
  fields "_" ("mel_" +:+ pretty bar +:+ "_"
                +:+ Composer.renderBeat currentBeat2 +:+ "_" +:+ pretty r)
  = ["mel"%string; pretty bar; Composer.renderBeat currentBeat2; pretty r].
Proof.
  change ("mel_" +:+ pretty bar +:+ "_" +:+ Composer.renderBeat currentBeat2
            +:+ "_" +:+ pretty r)%string
    with ("mel" +:+ String "_" (pretty bar +:+ String "_"
            (Composer.renderBeat currentBeat2 +:+ String "_" (pretty r))))%string.
  rewrite fields_cons by reflexivity.
  rewrite fields_cons by apply clean_pretty.
  rewrite fields_cons by apply clean_renderBeat.
  rewrite fields_last by apply clean_pretty.
  reflexivity.
Qed.

Lemma fields_evt (ms idx : Z) :
  fields "_" ("evt_real_" +:+ pretty ms +:+ "_" +:+ pretty idx)
  = ["evt"%string; "real"%string; pretty ms; pretty idx].
Proof.
  change ("evt_real_" +:+ pretty ms +:+ "_" +:+ pretty idx)%string
    with ("evt" +:+ String "_" ("real" +:+ String "_"
            (pretty ms +:+ String "_" (pretty idx))))%string.
  rewrite fields_cons by reflexivity.
  rewrite fields_cons by reflexivity.
  rewrite fields_cons by apply clean_pretty.
  rewrite fields_last by apply clean_pretty.
  reflexivity.
Qed.

End Ids.

(** ** Autocorrelation of integer-valued signals *)

Module ClosedForms.

Import Analyzer.

(** [dot] on integers. *)
Fixpoint dotZ (acc : Z) (xs ys : list Z) : Z :=
  match xs, ys with
  | x :: xs', y :: ys' => dotZ (acc + x * y) xs' ys'
  | _, _ => acc
  end.

Lemma step_Z acc x y :
  (inject_Z acc + inject_Z x * inject_Z y)%Q = inject_Z (acc + x * y).
Proof.
  unfold Qplus, Qmult, inject_Z. cbn [Qnum Qden Pos.mul].
  now rewrite !Z.mul_1_r.
Qed.

Lemma dot_Z xs : forall acc ys,
  dot (inject_Z acc) (map inject_Z xs) (map inject_Z ys)
  = inject_Z (dotZ acc xs ys).
Proof.
  induction xs as [|x xs IH]; intros acc [|y ys]; cbn [map dot dotZ];
    try reflexivity.
  now rewrite step_Z, IH.
Qed.

(** Two constant runs: every product is the same. *)
Lemma dotZ_repeat u v a : forall acc b,
  dotZ acc (repeat u a) (repeat v b)
  = acc + u * v * Z.of_nat (Nat.min a b).
Proof.
  induction a as [|a IH]; intros acc [|b]; cbn [repeat dotZ Nat.min];
    try lia.
  rewrite IH. lia.
Qed.

(** An alternating run that starts with the sign [s]. *)
Fixpoint altZ (s : Z) (n : nat) : list Z :=
  match n with
  | O => []
  | S n' => s :: altZ (- s) n'
  end.

Lemma dotZ_alt a : forall acc s t b,
  dotZ acc (altZ s a) (altZ t b) = acc + s * t * Z.of_nat (Nat.min a b).
Proof.
  induction a as [|a IH]; intros acc s t [|b]; cbn [altZ dotZ Nat.min];
    try lia.
  rewrite IH. lia.
Qed.

(** *** The three signals *)

(** Silence: every correlation is zero. *)
Lemma correlations_zeros a b :
  correlations (repeat 0%Q a) (repeat 0%Q b) = repeat 0%Q b.
Proof.
  assert (R : forall n, repeat 0%Q n = map inject_Z (repeat 0 n))
    by (intros n; now rewrite map_repeat).
  induction b as [|b IH]; cbn [repeat correlations]; [reflexivity|].
  f_equal; [|exact IH].
  change (0%Q :: repeat 0%Q b) with (repeat 0%Q (S b)).
  rewrite !R. change 0%Q with (inject_Z 0).
  rewrite dot_Z, dotZ_repeat. reflexivity.
Qed.

(** The alternating tone: [n, -(n-1), n-2, ...]. *)
Fixpoint altCorr (s : Z) (m : nat) : list Q :=
  match m with
  | O => []
  | S m' => inject_Z (s * Z.of_nat m) :: altCorr (- s) m'
  end.

Lemma correlations_alt n : forall s m,
  (m <= n)%nat ->
  correlations (map inject_Z (altZ 1 n)) (map inject_Z (altZ s m))
  = altCorr s m.
Proof.
  intros s m. revert s.
  induction m as [|m IH]; intros s Hm; [reflexivity|].
  cbn [altCorr]. rewrite <- IH by lia.
  cbn [altZ map correlations]. f_equal.
  change (dot (inject_Z 0) (map inject_Z (altZ 1 n))
            (map inject_Z (altZ s (S m))) = inject_Z (s * Z.of_nat (S m))).
  rewrite dot_Z, dotZ_alt. f_equal. lia.
Qed.

(** One sample at +1 before a level of -1: [n, n-3, n-4, ..., -1]. *)
Fixpoint offsetCorr (m : nat) : list Q :=
  match m with
  | O => []
  | S m' => inject_Z (Z.of_nat m' - 1) :: offsetCorr m'
  end.

Lemma correlations_offset a : forall m,
  (m <= a)%nat ->
  correlations (map inject_Z (1 :: repeat (-1) a))
    (map inject_Z (repeat (-1) m))
  = offsetCorr m.
Proof.
  induction m as [|m IH]; intros Hm; [reflexivity|].
  cbn [offsetCorr]. rewrite <- IH by lia.
  cbn [repeat map correlations]. f_equal.
  change (dot (inject_Z 0) (map inject_Z (1 :: repeat (-1) a))
            (map inject_Z (repeat (-1) (S m)))
          = inject_Z (Z.of_nat m - 1)).
  rewrite dot_Z. cbn [repeat dotZ]. rewrite dotZ_repeat. f_equal. lia.
Qed.

Lemma correlations_offset_all a :
  correlations (map inject_Z (1 :: repeat (-1) a))
    (map inject_Z (1 :: repeat (-1) a))
  = inject_Z (Z.of_nat a + 1) :: offsetCorr a.
Proof.
  cbn [map correlations]. f_equal.
  - change (dot (inject_Z 0) (map inject_Z (1 :: repeat (-1) a))
              (map inject_Z (1 :: repeat (-1) a))
            = inject_Z (Z.of_nat a + 1)).
    rewrite dot_Z. cbn [dotZ]. rewrite dotZ_repeat. f_equal. lia.
  - apply (correlations_offset a a). lia.
Qed.

End ClosedForms.

(** ** The segmenter *)

Module AnalyzerFacts.

Import Analyzer.
Local Open Scope Q_scope.

Lemma classify_quiet chunk sampleRate :
  quiet chunk -> classify chunk sampleRate = Silent.
Proof. unfold quiet, classify. now intros ->. Qed.

Lemma classify_unvoiced chunk sampleRate :
  loudButUnvoiced chunk sampleRate -> classify chunk sampleRate = Unvoiced.
Proof. unfold loudButUnvoiced, classify. now intros [-> ->]. Qed.

Section Sweeps.

Variables sampleRate startTime : Q.
Variable segmentData : list Q.

Lemma sweep_unvoiced count : forall i st,
  (forall k, (k < count)%nat ->
     frameAt sampleRate segmentData (i + Z.of_nat k * hopSize) = Unvoiced) ->
  sweep sampleRate startTime segmentData count i st = st.
Proof.
  induction count as [|count IH]; intros i st H; [reflexivity|].
  simpl.
  assert (H0 : frameAt sampleRate segmentData i = Unvoiced).
  { specialize (H O). rewrite Z.add_0_r in H. apply H. lia. }
  rewrite H0. simpl. apply IH.
  intros k Hk. specialize (H (S k)).
  replace (i + hopSize + Z.of_nat k * hopSize)%Z
    with (i + Z.of_nat (S k) * hopSize)%Z by lia.
  apply H. lia.
Qed.

Lemma sweep_silent count : forall i,
  (forall k, (k < count)%nat ->
     frameAt sampleRate segmentData (i + Z.of_nat k * hopSize) = Silent) ->
  sweep sampleRate startTime segmentData count i initial = initial.
Proof.
  induction count as [|count IH]; intros i H; [reflexivity|].
  simpl.
  assert (H0 : frameAt sampleRate segmentData i = Silent).
  { specialize (H O). rewrite Z.add_0_r in H. apply H. lia. }
  rewrite H0. simpl. apply IH.
  intros k Hk. specialize (H (S k)).
  replace (i + hopSize + Z.of_nat k * hopSize)%Z
    with (i + Z.of_nat (S k) * hopSize)%Z by lia.
  apply H. lia.
Qed.

End Sweeps.

(** The loop runs exactly for the offsets [i = 1024 k < length - 2048]. *)
Lemma frameCount_spec segmentData k :
  (k < frameCount segmentData)%nat
  <-> (Z.of_nat k * hopSize < Z.of_nat (length segmentData) - windowSize)%Z.
Proof.
  unfold frameCount, hopSize, windowSize.
  set (len := Z.of_nat (length segmentData)).
  split; intros H.
  - assert (Z.of_nat k < (len - 2048 + 1024 - 1) / 1024)%Z as H1 by lia.
    Z.div_mod_to_equations. lia.
  - assert (Z.of_nat k < (len - 2048 + 1024 - 1) / 1024)%Z as H1.
    { Z.div_mod_to_equations. lia. }
    lia.
Qed.

(** *** Silence *)

Lemma sumSquares_zero l :
  Forall (fun x => x == 0) l -> sumSquares l == 0.
Proof.
  intros H. unfold sumSquares.
  assert (G : forall acc,
             fold_left (fun acc val => acc + val * val) l acc == acc).
  { induction H as [|x l Hx Hl IH]; intros acc; simpl; [reflexivity|].
    rewrite IH, Hx. ring. }
  apply G.
Qed.

Lemma quiet_zero chunk : Forall (fun x => x == 0) chunk -> quiet chunk.
Proof.
  intros H. unfold quiet, sqrtLtb, Qltb.
  destruct (Qle_bool _ _) eqn:E; [|reflexivity].
  apply Qle_bool_iff in E.
  rewrite (sumSquares_zero _ H) in E.
  unfold Qdiv in E. rewrite Qmult_0_l in E.
  apply Qle_not_lt in E. exfalso. apply E. reflexivity.
Qed.

Lemma In_firstn {A} (x : A) n : forall l, In x (firstn n l) -> In x l.
Proof.
  induction n as [|n IH]; intros [|y l]; simpl; try tauto.
  intros [H|H]; [now left|right; now apply IH].
Qed.

Lemma In_skipn {A} (x : A) n : forall l, In x (skipn n l) -> In x l.
Proof.
  induction n as [|n IH]; intros [|y l]; simpl; try tauto.
  intros H. right. now apply IH.
Qed.

Lemma In_jsSlice {A} (x : A) l a b : In x (jsSlice l a b) -> In x l.
Proof. unfold jsSlice. intros H. now apply In_firstn, In_skipn in H. Qed.

Lemma Forall_jsSlice {A} (P : A -> Prop) l a b :
  Forall P l -> Forall P (jsSlice l a b).
Proof.
  intros H. apply List.Forall_forall. intros x Hx.
  apply In_jsSlice in Hx. revert x Hx. now apply List.Forall_forall.
Qed.

Lemma silent_rawNotes sampleRate startTime segmentData :
  (forall k, (k < frameCount segmentData)%nat ->
     quiet (window segmentData (Z.of_nat k * hopSize))) ->
  rawNotes sampleRate startTime segmentData = [].
Proof.
  intros H. unfold rawNotes.
  rewrite sweep_silent; [reflexivity|].
  intros k Hk. unfold frameAt. apply classify_quiet.
  rewrite Z.add_0_l. now apply H.
Qed.

End AnalyzerFacts.

(** C7. Whenever every window that the sweep analyses has an RMS below the
    0.02 silence threshold, the segmenter returns the empty list; this covers
    every buffer of zero samples whatever its length, the empty buffer, and
    every buffer with at most 2048 samples (no window is analysed then). *)
Theorem C7_silence_yields_no_notes :
  (forall audioBuffer startTime duration,
     (forall k,
        (k < Analyzer.frameCount
               (Analyzer.segmentOf audioBuffer startTime duration))%nat ->
        quiet
          (window
             (Analyzer.segmentOf audioBuffer startTime duration)
             (Z.of_nat k * Analyzer.hopSize))) ->
     Analyzer.analyzeAudioSegment audioBuffer startTime duration = [])
  /\ (forall sampleRate n startTime duration,
        Analyzer.analyzeAudioSegment
          (Analyzer.mkBuffer sampleRate (repeat 0%Q n)) startTime duration = [])
  /\ (forall sampleRate startTime duration,
        Analyzer.analyzeAudioSegment
          (Analyzer.mkBuffer sampleRate []) startTime duration = [])
  /\ (forall audioBuffer startTime duration,
        (length (Analyzer.channelData audioBuffer) <= 2048)%nat ->
        Analyzer.analyzeAudioSegment audioBuffer startTime duration = []).
Proof.
  assert (General : forall audioBuffer startTime duration,
     (forall k,
        (k < Analyzer.frameCount
               (Analyzer.segmentOf audioBuffer startTime duration))%nat ->
        quiet
          (window
             (Analyzer.segmentOf audioBuffer startTime duration)
             (Z.of_nat k * Analyzer.hopSize))) ->
     Analyzer.analyzeAudioSegment audioBuffer startTime duration = []).
  { intros audioBuffer startTime duration H.
    unfold Analyzer.analyzeAudioSegment.
    now rewrite AnalyzerFacts.silent_rawNotes. }
  assert (Zeros : forall sampleRate n startTime duration,
        Analyzer.analyzeAudioSegment
          (Analyzer.mkBuffer sampleRate (repeat 0%Q n)) startTime duration = []).
  { intros sampleRate n startTime duration. apply General. intros k _.
    apply AnalyzerFacts.quiet_zero.
    unfold window, Analyzer.segmentOf. simpl.
    do 2 apply AnalyzerFacts.Forall_jsSlice.
    apply List.Forall_forall. intros x Hx. apply repeat_spec in Hx. now subst. }
  split; [exact General|].
  split; [exact Zeros|].
  split.
  - intros sampleRate. apply (Zeros sampleRate O).
  - intros audioBuffer startTime duration Hlen. apply General. intros k Hk.
    apply AnalyzerFacts.frameCount_spec in Hk.
    assert (length (Analyzer.segmentOf audioBuffer startTime duration)
            <= length (Analyzer.channelData audioBuffer))%nat.
    { unfold Analyzer.segmentOf, jsSlice.
      rewrite length_firstn, length_skipn. lia. }
    unfold Analyzer.hopSize, Analyzer.windowSize in Hk. lia.
Qed.

Lemma C7_silence_yields_no_notes_witness :
  Analyzer.analyzeAudioSegment
    (Analyzer.mkBuffer 44100 (Signals.quietPop)) 0 1 = [].
Proof.
  apply (proj1 C7_silence_yields_no_notes).
  intros k Hk.
  assert (Hk' : (k < 2)%nat) by (vm_compute in Hk; vm_compute; exact Hk).
  destruct k as [|[|k]]; [| |lia]; vm_compute; reflexivity.
Defined.

(** C10. In a sweep, windows whose RMS is at or above the silence threshold
    and for which the pitch estimator returns the unvoiced sentinel leave the
    whole state untouched (start index, held pitch, frame count and the notes
    collected so far), however many of them follow one another. *)
Theorem C10_unvoiced_windows_keep_open_note :
  forall sampleRate startTime segmentData count i st,
    (forall k, (k < count)%nat ->
       loudButUnvoiced
         (window segmentData (i + Z.of_nat k * Analyzer.hopSize))
         sampleRate) ->
    Analyzer.sweep sampleRate startTime segmentData count i st = st.
Proof.
  intros sampleRate startTime segmentData count i st H.
  apply AnalyzerFacts.sweep_unvoiced.
  intros k Hk. unfold Analyzer.frameAt.
  apply AnalyzerFacts.classify_unvoiced. now apply H.
Qed.

(** ** The pitch estimator *)

Module EstimatorFacts.

Import Analyzer.
Local Open Scope Z_scope.

(** The [while] loop stops at the last element at the latest. *)
Lemma firstRise_bound c :
  0 <= firstRise c <= Z.max 0 (Z.of_nat (length c) - 1).
Proof.
  induction c as [|x c IH]; [simpl; lia|].
  destruct c as [|y rest]; [simpl; lia|].
  change (firstRise (x :: y :: rest))
    with (if Qgtb x y then 1 + firstRise (y :: rest) else 0).
  change (length (x :: y :: rest)) with (S (length (y :: rest))).
  destruct (Qgtb x y); simpl length in *; lia.
Qed.

Lemma peak_range c : forall i maxval maxpos,
  peak c i maxval maxpos = maxpos
  \/ i <= peak c i maxval maxpos < i + Z.of_nat (length c).
Proof.
  induction c as [|x rest IH]; intros i maxval maxpos; simpl peak;
    [now left|].
  simpl length.
  destruct (Qgtb x maxval).
  - right. destruct (IH (i + 1) x i) as [-> | H]; lia.
  - destruct (IH (i + 1) maxval maxpos) as [-> | H]; [now left|right; lia].
Qed.

(** The lag is [-1] (no peak) or a position of the correlation array;
    position 0 is not excluded. *)
Lemma period_range buffer : -1 <= period buffer.
Proof.
  unfold period. cbv zeta.
  pose proof (firstRise_bound
                (correlations (trimmed buffer) (trimmed buffer))) as Hd.
  match goal with |- -1 <= peak ?c ?d ?v ?p =>
    destruct (peak_range c d v p) as [-> | H]; lia end.
Qed.

(** What the estimator can return for a positive sample rate. *)
Lemma autoCorrelate_cases buffer sampleRate :
  (0 < sampleRate)%Q ->
  autoCorrelate buffer sampleRate = unvoiced
  \/ (period buffer = 0 /\ autoCorrelate buffer sampleRate = Infinite true)
  \/ (0 < period buffer
      /\ autoCorrelate buffer sampleRate
         = Finite (sampleRate / inject_Z (period buffer))).
Proof.
  intros Hrate. unfold autoCorrelate. cbv zeta.
  destruct (sqrtLtb _ _); [now left|].
  pose proof (period_range buffer) as Hp.
  destruct (period buffer =? -1) eqn:E1; [now left|].
  apply Z.eqb_neq in E1. right.
  unfold jsDiv.
  destruct (period buffer =? 0) eqn:E0.
  - apply Z.eqb_eq in E0. left. split; [assumption|].
    unfold Qltb. destruct (Qle_bool sampleRate 0) eqn:E; [|reflexivity].
    apply Qle_bool_iff in E. now apply Qle_not_lt in E.
  - apply Z.eqb_neq in E0. right. split; [lia|reflexivity].
Qed.

End EstimatorFacts.

(** ** Three test signals *)

Module SignalFacts.

Import Analyzer ClosedForms.

Lemma autoCorrelate_loud buffer sampleRate T0 :
  sqrtLtb (sumSquares buffer / inject_Z (Z.of_nat (length buffer))) (1 # 100)
  = false ->
  period buffer = T0 -> T0 <> -1 ->
  autoCorrelate buffer sampleRate = jsDiv sampleRate T0.
Proof.
  intros Hrms Hp Hne. unfold autoCorrelate. cbv zeta. rewrite Hrms, Hp.
  destruct (T0 =? -1) eqn:E; [apply Z.eqb_eq in E; contradiction|].
  reflexivity.
Qed.

Lemma classify_voiced chunk sampleRate frequency :
  sqrtLtb (sumSquares chunk / inject_Z (Z.of_nat (length chunk))) rmsThreshold
  = false ->
  autoCorrelate chunk sampleRate = frequency ->
  isPositive frequency = true ->
  classify chunk sampleRate = Voiced (midiOf frequency).
Proof.
  intros Hrms Hf Hpos. unfold classify. cbv zeta. now rewrite Hrms, Hf, Hpos.
Qed.

(** *** The click: ten loud samples, then silence *)

Lemma click_trimmed : trimmed Signals.click = repeat 0%Q 2037.
Proof. vm_compute. reflexivity. Qed.

Lemma click_period : period Signals.click = 0.
Proof.
  unfold period. cbv zeta.
  rewrite click_trimmed, correlations_zeros.
  vm_compute. reflexivity.
Qed.

Lemma click_estimate : autoCorrelate Signals.click 44100 = Infinite true.
Proof.
  rewrite (autoCorrelate_loud Signals.click 44100 0).
  - reflexivity.
  - vm_compute. reflexivity.
  - exact click_period.
  - discriminate.
Qed.

(** *** One window of the tone at half the sample rate *)

Definition toneWindow : list Q := Signals.alternating 2048.

Lemma toneWindow_trimmed : trimmed toneWindow = map inject_Z (altZ 1 2047).
Proof. vm_compute. reflexivity. Qed.

Lemma toneWindow_period : period toneWindow = 2.
Proof.
  unfold period. cbv zeta.
  rewrite toneWindow_trimmed, (correlations_alt 2047 1 2047) by lia.
  vm_compute. reflexivity.
Qed.

Lemma toneWindow_classified :
  classify toneWindow 44100 = Voiced (Fin 137).
Proof.
  rewrite (classify_voiced toneWindow 44100 (Finite (44100 / inject_Z 2))).
  - vm_compute. reflexivity.
  - vm_compute. reflexivity.
  - rewrite (autoCorrelate_loud toneWindow 44100 2).
    + reflexivity.
    + vm_compute. reflexivity.
    + exact toneWindow_period.
    + discriminate.
  - reflexivity.
Qed.

(** *** One window of the level shift: +1, then -1 throughout *)

Definition shiftWindow : list Q := Signals.offset 2047.

Lemma shiftWindow_trimmed :
  trimmed shiftWindow = map inject_Z (1 :: repeat (-1) 2046).
Proof. vm_compute. reflexivity. Qed.

Lemma shiftWindow_period : period shiftWindow = -1.
Proof.
  unfold period. cbv zeta.
  rewrite shiftWindow_trimmed, correlations_offset_all.
  vm_compute. reflexivity.
Qed.

(** On this window the correlations decrease throughout: the [while] loop
    stops at the last index, on the comparison with the element one past
    the end. *)
Lemma shiftWindow_firstRise :
  firstRise (correlations (trimmed shiftWindow) (trimmed shiftWindow))
  = Z.of_nat (length (trimmed shiftWindow)) - 1.
Proof.
  rewrite shiftWindow_trimmed, correlations_offset_all.
  vm_compute. reflexivity.
Qed.

Lemma shiftWindow_unvoiced : loudButUnvoiced shiftWindow 44100.
Proof.
  split; [vm_compute; reflexivity|].
  unfold autoCorrelate. cbv zeta. rewrite shiftWindow_period.
  destruct (sqrtLtb _ _); reflexivity.
Qed.

End SignalFacts.

Lemma C10_unvoiced_windows_keep_open_note_witness :
  Analyzer.sweep 44100 0 Signals.levelShift 1 0
    (Analyzer.mkSweep 0 (Fin 60) 3 [])
  = Analyzer.mkSweep 0 (Fin 60) 3 [].
Proof.
  apply C10_unvoiced_windows_keep_open_note.
  intros k Hk.
  destruct k as [|k]; [|lia].
  replace (window Signals.levelShift (0 + Z.of_nat 0 * Analyzer.hopSize))
    with SignalFacts.shiftWindow by (vm_compute; reflexivity).
  exact SignalFacts.shiftWindow_unvoiced.
Defined.

(** C4. On a window made of ten full-scale samples followed by digital
    silence the trimmed sub-frame is all zero, the peak search settles on
    lag 0, and the estimator returns [sampleRate / 0], an infinite
    frequency. *)
Theorem C4_estimator_divides_by_zero_lag :
  length Signals.click = 2048%nat
  /\ Analyzer.period Signals.click = 0
  /\ Analyzer.autoCorrelate Signals.click 44100 = Infinite true
  /\ Analyzer.classify Signals.click 44100 = Analyzer.Voiced PosInf.
Proof.
  split; [reflexivity|].
  split; [exact SignalFacts.click_period|].
  split; [exact SignalFacts.click_estimate|].
  rewrite (SignalFacts.classify_voiced Signals.click 44100 (Infinite true)).
  - reflexivity.
  - vm_compute. reflexivity.
  - exact SignalFacts.click_estimate.
  - reflexivity.
Qed.

(** ** The Nyquist tone *)

Module NyquistFacts.

Import Analyzer.

Lemma pitch_mapIdx l : forall idx, map midi_pitch (mapIdx l idx) = map pitch l.
Proof.
  induction l as [|n l IH]; intros idx; cbn [mapIdx map]; [reflexivity|].
  now rewrite IH.
Qed.

(** While every window shows the pitch that is held, the open note only
    gains frames. *)
Lemma sweep_steady sampleRate startTime segmentData p count : forall i st,
  (forall k, (k < count)%nat ->
     frameAt sampleRate segmentData (i + Z.of_nat k * hopSize) = Voiced p) ->
  currentNoteStart st <> -1 ->
  currentNotePitch st = p ->
  JSInt.far p p = false ->
  sweep sampleRate startTime segmentData count i st
  = {| currentNoteStart := currentNoteStart st;
       currentNotePitch := p;
       framesInNote := framesInNote st + Z.of_nat count;
       notes := notes st |}.
Proof.
  induction count as [|count IH]; intros i st H Hopen Hp Hfar.
  - cbn [sweep]. destruct st as [a b c d]. cbn in *. subst b.
    f_equal. lia.
  - cbn [sweep].
    assert (H0 : frameAt sampleRate segmentData i = Voiced p).
    { specialize (H O). rewrite Z.add_0_r in H. apply H. lia. }
    rewrite H0. cbn [step].
    destruct (currentNoteStart st =? -1) eqn:E;
      [apply Z.eqb_eq in E; contradiction|].
    rewrite Hp, Hfar.
    rewrite IH; cbn [currentNoteStart currentNotePitch framesInNote notes];
      try assumption; try reflexivity.
    + f_equal. lia.
    + intros k Hk. specialize (H (S k)).
      replace (i + hopSize + Z.of_nat k * hopSize)
        with (i + Z.of_nat (S k) * hopSize) by lia.
      apply H. lia.
Qed.

Lemma sweep_succ sampleRate startTime segmentData count i st :
  sweep sampleRate startTime segmentData (S count) i st
  = sweep sampleRate startTime segmentData count (i + hopSize)
      (step sampleRate startTime i (frameAt sampleRate segmentData i) st).
Proof. reflexivity. Qed.

Lemma tone_frames k :
  (k < 5)%nat ->
  frameAt 44100 Signals.tone (0 + Z.of_nat k * hopSize) = Voiced (Fin 137).
Proof.
  intros Hk. unfold frameAt.
  replace (jsSlice Signals.tone (0 + Z.of_nat k * hopSize)
             (0 + Z.of_nat k * hopSize + windowSize))
    with SignalFacts.toneWindow.
  - exact SignalFacts.toneWindow_classified.
  - do 5 (destruct k as [|k]; [vm_compute; reflexivity|]). lia.
Qed.

(** Five windows of the tone are read; each one is voiced with lag 2, that
    is 22050 Hz, and the note is closed at the end of the sweep. *)
Lemma rawNotes_pitch :
  map pitch (rawNotes 44100 0 Signals.tone) = [Fin 137].
Proof.
  unfold rawNotes.
  replace (frameCount Signals.tone) with 5%nat by (vm_compute; reflexivity).
  rewrite (sweep_succ 44100 0 Signals.tone 4 0 initial).
  replace (frameAt 44100 Signals.tone 0) with (Voiced (Fin 137))
    by (symmetry; apply (tone_frames 0); lia).
  cbn [step initial currentNoteStart Z.eqb].
  rewrite (sweep_steady 44100 0 Signals.tone (Fin 137) 4).
  - vm_compute. reflexivity.
  - intros k Hk.
    replace (0 + hopSize + Z.of_nat k * hopSize)
      with (0 + Z.of_nat (S k) * hopSize) by lia.
    apply tone_frames. lia.
  - discriminate.
  - reflexivity.
  - reflexivity.
Qed.

Lemma segment_whole :
  segmentOf (mkBuffer 44100 Signals.tone) 0 1 = Signals.tone.
Proof. vm_compute. reflexivity. Qed.

Lemma jsSlice_drop_tail {A} (l t : list A) :
  t <> [] -> jsSlice (l ++ t) 0 (- Z.of_nat (length t)) = l.
Proof.
  intros Ht. unfold jsSlice. cbv zeta.
  assert (Hlen : (0 < length t)%nat) by (destruct t; [contradiction | cbn; lia]).
  rewrite length_app.
  destruct (0 <? 0) eqn:E0; [discriminate|].
  destruct (- Z.of_nat (length t) <? 0) eqn:E1;
    [|apply Z.ltb_ge in E1; lia].
  replace (Z.to_nat (Z.min 0 (Z.of_nat (length l + length t)))) with O by lia.
  replace (Z.to_nat _) with (length l) by lia.
  change (skipn 0 (l ++ t)) with (l ++ t).
  rewrite List.firstn_app, Nat.sub_diag, List.firstn_all.
  change (firstn 0 t) with (@nil A). apply app_nil_r.
Qed.

(** A negative end index counts from the end of the channel data. *)
Lemma segment_negative_duration :
  segmentOf (mkBuffer 44100 Signals.toneThenSilence) 0 (-1) = Signals.tone.
Proof.
  unfold segmentOf. cbv zeta. cbn [bufferRate channelData].
  change (Qfloor (0 * 44100)) with 0.
  change (Qfloor ((0 + -1) * 44100)) with (-44100).
  unfold Signals.toneThenSilence.
  rewrite length_app, repeat_length.
  replace (Z.min (Z.of_nat (length Signals.tone + Z.to_nat 44100)) (-44100))
    with (- Z.of_nat (length (repeat 0%Q (Z.to_nat 44100))))
    by (rewrite repeat_length; lia).
  change (Z.max 0 0) with 0.
  apply jsSlice_drop_tail. discriminate.
Qed.

End NyquistFacts.

(** ** The estimator: the range of the lag *)

Module LagFacts.

Import Analyzer EstimatorFacts.
Local Open Scope Z_scope.

Lemma length_correlations buffer2 shifted :
  length (correlations buffer2 shifted) = length shifted.
Proof.
  induction shifted as [|x rest IH]; cbn [correlations length]; congruence.
Qed.

Lemma scanHead_range buffer : forall i SIZE r,
  0 <= i -> scanHead buffer i SIZE = Some r -> 0 <= r.
Proof.
  induction buffer as [|x rest IH]; intros i SIZE r Hi; cbn [scanHead];
    [discriminate|].
  destruct (2 * i <? SIZE); [|discriminate].
  destruct (Qltb (Qabs x) thres).
  - intros [= <-]. assumption.
  - apply IH. lia.
Qed.

Lemma scanTail_range reversed : forall i SIZE r,
  1 <= i -> scanTail reversed i SIZE = Some r -> r <= SIZE - 1.
Proof.
  induction reversed as [|x rest IH]; intros i SIZE r Hi; cbn [scanTail];
    [discriminate|].
  destruct (2 * i <? SIZE); [|discriminate].
  destruct (Qltb (Qabs x) thres).
  - intros [= <-]. lia.
  - apply IH. lia.
Qed.

(** The trimmed frame is shorter than the frame. *)
Lemma length_trimmed buffer :
  Z.of_nat (length (trimmed buffer))
  <= Z.max 0 (Z.of_nat (length buffer) - 1).
Proof.
  unfold trimmed. cbv zeta.
  set (SIZE := Z.of_nat (length buffer)).
  assert (H0 : 0 <= SIZE) by (unfold SIZE; lia).
  assert (H1 : 0 <= match scanHead buffer 0 SIZE with
                    | Some i => i | None => 0 end).
  { destruct (scanHead buffer 0 SIZE) as [r|] eqn:E; [|lia].
    now apply (scanHead_range buffer 0 SIZE). }
  assert (H2 : match scanTail (rev buffer) 1 SIZE with
               | Some i => i | None => SIZE - 1 end <= SIZE - 1).
  { destruct (scanTail (rev buffer) 1 SIZE) as [r|] eqn:E; [|lia].
    now apply (scanTail_range (rev buffer) 1 SIZE). }
  set (r1 := match scanHead buffer 0 SIZE with Some i => i | None => 0 end) in *.
  set (r2 := match scanTail (rev buffer) 1 SIZE with
             | Some i => i | None => SIZE - 1 end) in *.
  unfold jsSlice. cbv zeta. fold SIZE.
  rewrite length_firstn.
  destruct (r1 <? 0) eqn:E1; [apply Z.ltb_lt in E1; lia|].
  destruct (r2 <? 0) eqn:E2; lia.
Qed.

(** The lag found is a position of the correlation array. *)
Lemma period_upper buffer :
  period buffer <= Z.max (-1) (Z.of_nat (length buffer) - 2).
Proof.
  unfold period. cbv zeta.
  pose proof (length_trimmed buffer) as Hlen.
  set (buffer2 := trimmed buffer) in *.
  set (c := correlations buffer2 buffer2).
  pose proof (firstRise_bound c) as Hd.
  assert (Hc : length c = length buffer2) by apply length_correlations.
  destruct (peak_range (skipn (Z.to_nat (firstRise c)) c) (firstRise c)
              (-1)%Q (-1)) as [-> | H]; [lia|].
  rewrite length_skipn in H. lia.
Qed.

End LagFacts.

(** The note that the segmenter returns for the test tone. *)
Module ToneFacts.

Definition noNote : NoteEvent := mkNote "" 0 0 NaN 0 0.

Lemma tone_pitches :
  map midi_pitch
    (Analyzer.analyzeAudioSegment (Analyzer.mkBuffer 44100 Signals.tone) 0 1)
  = [Fin 137].
Proof.
  unfold Analyzer.analyzeAudioSegment.
  rewrite NyquistFacts.pitch_mapIdx, NyquistFacts.segment_whole.
  exact NyquistFacts.rawNotes_pitch.
Qed.

Lemma tone_first :
  In (nth 0 (Analyzer.analyzeAudioSegment
               (Analyzer.mkBuffer 44100 Signals.tone) 0 1) noNote)
    (Analyzer.analyzeAudioSegment (Analyzer.mkBuffer 44100 Signals.tone) 0 1).
Proof.
  pose proof tone_pitches as H.
  destruct (Analyzer.analyzeAudioSegment _ 0 1) as [|n l];
    [discriminate H|].
  left. reflexivity.
Qed.

End ToneFacts.


(** ** Frequency to MIDI pitch *)

Module MidiFacts.

Import Analyzer.
Local Open Scope Q_scope.

Lemma pow2_pos e : 0 < 2 ^ e.
Proof. now apply Qpower_0_lt. Qed.


Lemma pow2_succ e : 2 ^ (e + 1) == 2 ^ e * 2.
Proof. rewrite Qpower_plus by discriminate. reflexivity. Qed.

Lemma log2_bounds n :
  (0 < n)%Z ->
  2 ^ Z.log2 n <= inject_Z n /\ inject_Z n < 2 ^ (Z.log2 n + 1).
Proof.
  intros Hn. destruct (Z.log2_spec n Hn) as [H1 H2].
  pose proof (Z.log2_nonneg n) as H0.
  change 2 with (inject_Z 2).
  rewrite <- !Zpower_Qpower by lia.
  split; [now rewrite <- Zle_Qle | now rewrite <- Zlt_Qlt].
Qed.

Lemma Qle_div_iff a b c : 0 < c -> (a <= b / c <-> a * c <= b).
Proof.
  intros Hc.
  assert (Hne : ~ c == 0).
  { intros E. rewrite E in Hc. now apply Qlt_irrefl in Hc. }
  split; intros H.
  - apply Qmult_le_compat_r with (z := c) in H; [|now apply Qlt_le_weak].
    assert (E : b / c * c == b) by (now field).
    now rewrite E in H.
  - now apply Qle_shift_div_l.
Qed.

(** The test inside [floorLog2] decides [2^k <= x]. *)
Lemma floorLog2_test (p : Z) (q : positive) (k : Z) :
  (if (0 <=? k)%Z then (Z.pos q * 2 ^ k <=? p)%Z
   else (Z.pos q <=? p * 2 ^ (- k))%Z) = true
  <-> 2 ^ k <= p # q.
Proof.
  rewrite (Qmake_Qdiv p q).
  assert (Hq : 0 < inject_Z (Z.pos q)) by reflexivity.
  rewrite (Qle_div_iff _ _ _ Hq), (Qmult_comm (2 ^ k)).
  destruct (0 <=? k)%Z eqn:Hk.
  - apply Z.leb_le in Hk. rewrite Z.leb_le, Zle_Qle.
    rewrite inject_Z_mult, Zpower_Qpower by assumption.
    reflexivity.
  - apply Z.leb_gt in Hk. rewrite Z.leb_le, Zle_Qle.
    rewrite inject_Z_mult, Zpower_Qpower by lia.
    change (inject_Z 2) with 2.
    rewrite Qpower_opp.
    apply (Qle_div_iff _ _ _ (pow2_pos k)).
Qed.

(** [floorLog2 x] is the integer part of the binary logarithm. *)
Lemma floorLog2_spec x :
  0 < x -> 2 ^ floorLog2 x <= x /\ x < 2 ^ (floorLog2 x + 1).
Proof.
  intros Hx. destruct x as [p q].
  assert (Hp : (0 < p)%Z).
  { unfold Qlt in Hx. cbn in Hx. lia. }
  destruct (log2_bounds p Hp) as [Hp1 Hp2].
  destruct (log2_bounds (Z.pos q) eq_refl) as [Hq1 Hq2].
  unfold floorLog2. cbn [Qnum Qden].
  set (k := (Z.log2 p - Z.log2 (Z.pos q))%Z).
  assert (Hq : 0 < inject_Z (Z.pos q)) by reflexivity.
  assert (Hfrac : p # q == inject_Z p / inject_Z (Z.pos q))
    by apply Qmake_Qdiv.
  (* 2^(k-1) < x < 2^(k+1) *)
  assert (Hlow : 2 ^ (k - 1) < p # q).
  { rewrite Hfrac. apply Qlt_shift_div_l; [assumption|].
    apply Qlt_le_trans with (2 ^ (k - 1) * 2 ^ (Z.log2 (Z.pos q) + 1)).
    - apply Qmult_lt_l; [apply pow2_pos | assumption].
    - rewrite <- Qpower_plus by discriminate.
      replace (k - 1 + (Z.log2 (Z.pos q) + 1))%Z with (Z.log2 p)
        by (unfold k; lia).
      assumption. }
  assert (Hhigh : p # q < 2 ^ (k + 1)).
  { rewrite Hfrac. apply Qlt_shift_div_r; [assumption|].
    apply Qlt_le_trans with (2 ^ (Z.log2 p + 1)); [assumption|].
    replace (Z.log2 p + 1)%Z with (k + 1 + Z.log2 (Z.pos q))%Z
      by (unfold k; lia).
    rewrite Qpower_plus by discriminate.
    apply Qmult_le_l; [apply pow2_pos | assumption]. }
  destruct (if (0 <=? k)%Z then (Z.pos q * 2 ^ k <=? p)%Z
            else (Z.pos q <=? p * 2 ^ (- k))%Z) eqn:T.
  - apply floorLog2_test in T. split; assumption.
  - split; [now apply Qlt_le_weak|].
    replace (k - 1 + 1)%Z with k by lia.
    apply Qnot_le_lt. intros H. apply floorLog2_test in H. congruence.
Qed.



End MidiFacts.


(** ** The composer: parameters and timing *)

Module ComposerFacts.

Import Composer.
Local Open Scope Q_scope.

(** *** Boolean comparisons *)

Lemma Qltb_true a b : Qltb a b = true <-> a < b.
Proof.
  unfold Qltb. rewrite negb_true_iff.
  split; intros H.
  - apply Qnot_le_lt. intros Hle. apply Qle_bool_iff in Hle. congruence.
  - destruct (Qle_bool b a) eqn:E; [|reflexivity].
    apply Qle_bool_iff in E. now apply Qle_not_lt in E.
Qed.

Lemma Qltb_false a b : Qltb a b = false <-> b <= a.
Proof.
  unfold Qltb. rewrite negb_false_iff. apply Qle_bool_iff.
Qed.

Lemma Qgeb_true a b : Qgeb a b = true <-> b <= a.
Proof. unfold Qgeb. apply Qle_bool_iff. Qed.

Lemma Qmax_lt a b c : Qltb (Qmax a b) c = true -> a < c /\ b < c.
Proof.
  unfold Qmax. destruct (Qle_bool a b) eqn:E; intros H; apply Qltb_true in H.
  - apply Qle_bool_iff in E. split; [|assumption].
    now apply Qle_lt_trans with b.
  - split; [assumption|].
    assert (b < a).
    { apply Qnot_le_lt. intros Hle. apply Qle_bool_iff in Hle. congruence. }
    now apply Qlt_trans with a.
Qed.

Lemma Qmax_lt_intro a b c : a < c -> b < c -> Qltb (Qmax a b) c = true.
Proof.
  intros Ha Hb. unfold Qmax. destruct (Qle_bool a b); now apply Qltb_true.
Qed.

(** *** Ranges of the drawn parameters *)

Lemma rng_range s : 0 <= rng s /\ rng s < 1.
Proof. apply getSeededRandom_range. Qed.

Lemma Qfloor_scaled r (k : Z) :
  (0 < k)%Z -> 0 <= r -> r < 1 ->
  (0 <= Qfloor (r * inject_Z k) <= k - 1)%Z.
Proof.
  intros Hk H0 H1.
  assert (Hk' : 0 < inject_Z k) by (change 0 with (inject_Z 0); now rewrite <- Zlt_Qlt).
  split.
  - change 0%Z with (Qfloor 0). apply Qfloor_resp_le.
    now apply Qmult_le_0_compat; [|apply Qlt_le_weak].
  - assert (H : inject_Z (Qfloor (r * inject_Z k)) < inject_Z k).
    { apply Qle_lt_trans with (r * inject_Z k); [apply Qfloor_le|].
      rewrite <- (Qmult_1_l (inject_Z k)) at 2.
      now apply Qmult_lt_compat_r. }
    rewrite <- Zlt_Qlt in H. lia.
Qed.

Lemma BPM_range s0 : (80 <= BPM (setup s0) <= 129)%Z.
Proof.
  destruct (rng_range s0) as [H0 H1].
  change (BPM (setup s0)) with (80 + Qfloor (rng s0 * 50))%Z.
  pose proof (Qfloor_scaled (rng s0) 50 eq_refl H0 H1) as H.
  change (inject_Z 50) with 50 in H. lia.
Qed.

Lemma rootNote_range s0 : (58 <= rootNote (setup s0) <= 69)%Z.
Proof.
  destruct (rng_range (s0 + 3)) as [H0 H1].
  change (rootNote (setup s0)) with (58 + Qfloor (rng (s0 + 3) * 12))%Z.
  pose proof (Qfloor_scaled (rng (s0 + 3)) 12 eq_refl H0 H1) as H.
  change (inject_Z 12) with 12 in H. lia.
Qed.

Lemma progression_cases s0 : In (progression (setup s0)) PROGRESSIONS.
Proof.
  destruct (rng_range (s0 + 4)) as [H0 H1].
  change (progression (setup s0))
    with (nth (Z.to_nat (Qfloor (rng (s0 + 4)%Z * 4))) PROGRESSIONS []).
  pose proof (Qfloor_scaled (rng (s0 + 4)) 4 eq_refl H0 H1) as H.
  change (inject_Z 4) with 4 in H.
  set (k := Qfloor (rng (s0 + 4) * 4)) in *.
  assert (k = 0 \/ k = 1 \/ k = 2 \/ k = 3)%Z as [-> | [-> | [-> | ->]]] by lia;
    simpl; tauto.
Qed.

(** The setup satisfies what the bar loop relies on. *)
Record WellFormed (P : Params) : Prop := {
  wf_bpm : (80 <= BPM P <= 129)%Z;
  wf_root : (58 <= rootNote P <= 69)%Z;
  wf_progression : In (progression P) PROGRESSIONS
}.

Lemma setup_wf s0 : WellFormed (setup s0).
Proof.
  split; [apply BPM_range | apply rootNote_range | apply progression_cases].
Qed.

Lemma BEAT_pos P : WellFormed P -> 0 < BEAT_DURATION P.
Proof.
  intros [Hb _ _]. unfold BEAT_DURATION.
  apply Qlt_shift_div_l.
  - change 0 with (inject_Z 0). rewrite <- Zlt_Qlt. lia.
  - reflexivity.
Qed.

(** At the slowest tempo a beat still lasts more than 0.46 s. *)
Lemma BEAT_lower P : WellFormed P -> 60 # 129 <= BEAT_DURATION P.
Proof.
  intros [Hb _ _]. unfold BEAT_DURATION.
  assert (H0 : 0 < inject_Z (BPM P)).
  { change 0 with (inject_Z 0). rewrite <- Zlt_Qlt. lia. }
  apply Qle_shift_div_l; [assumption|].
  assert (H1 : inject_Z (BPM P) <= inject_Z 129) by (rewrite <- Zle_Qle; lia).
  change (inject_Z 129) with 129 in H1.
  apply Qle_trans with ((60 # 129) * 129).
  - apply Qmult_le_l; [reflexivity|assumption].
  - apply Qle_lteq. right. reflexivity.
Qed.

Lemma BAR_pos P : WellFormed P -> 0 < BAR_DURATION P.
Proof.
  intros H. unfold BAR_DURATION.
  apply BEAT_pos in H.
  rewrite <- (Qmult_0_l 4). now apply Qmult_lt_compat_r.
Qed.

End ComposerFacts.

(** ** The composer: where and when notes are placed *)

Module Placement.

Import Composer ComposerFacts.
Local Open Scope Q_scope.

Section Bars.

Variable P : Params.
Variables startTime endTime : Q.


Lemma inWindow_true t : inWindow startTime endTime t = true <-> startTime <= t /\ t < endTime.
Proof.
  unfold inWindow. rewrite andb_true_iff, Qgeb_true, Qltb_true. tauto.
Qed.

(** The notes that iteration [bar] of the loop can push. *)
Inductive Placed (bar : Z) (n : NoteEvent) : Prop :=
| PlacedBass1 :
    id n = ("bass_" +:+ pretty bar +:+ "_1")%string ->
    start_time n = inject_Z bar * BAR_DURATION P ->
    inject_Z bar * BAR_DURATION P < endTime ->
    startTime < endTime ->
    Placed bar n
| PlacedBass3 :
    id n = ("bass_" +:+ pretty bar +:+ "_3")%string ->
    start_time n = inject_Z bar * BAR_DURATION P + BEAT_DURATION P * 2 ->
    inWindow startTime endTime (start_time n) = true ->
    Placed bar n
| PlacedHarm (idx : Z) :
    (0 <= idx <= 2)%Z ->
    id n = ("harm_" +:+ pretty bar +:+ "_" +:+ pretty idx)%string ->
    start_time n = inject_Z bar * BAR_DURATION P + BEAT_DURATION P + inject_Z idx * (3 # 100) ->
    inWindow startTime endTime (start_time n) = true ->
    Placed bar n
| PlacedMel (currentBeat2 r : Z) :
    (0 <= currentBeat2 < 8)%Z ->
    id n = ("mel_" +:+ pretty bar +:+ "_" +:+ renderBeat currentBeat2 +:+ "_"
              +:+ pretty r)%string ->
    start_time n = inject_Z bar * BAR_DURATION P + (inject_Z currentBeat2 / 2) * BEAT_DURATION P ->
    inWindow startTime endTime (start_time n) = true ->
    Placed bar n.

Lemma bassLayer_placed bar s n :
  In n (fst (bassLayer P startTime endTime bar s)) -> Placed bar n.
Proof.
  unfold bassLayer. cbv zeta.
  destruct (Qltb (Qmax startTime (inject_Z bar * BAR_DURATION P)) endTime) eqn:Hb;
    [|intros []].
  apply Qmax_lt in Hb as [Hse Hb].
  destruct (Qgtb (rng s) (4 # 10)).
  - destruct (inWindow _ _ _) eqn:Hw; cbn [fst In].
    + intros [<- | [<- | []]].
      * apply PlacedBass1; [reflexivity | reflexivity | exact Hb | exact Hse].
      * apply PlacedBass3; [reflexivity | reflexivity | exact Hw].
    + intros [<- | []].
      apply PlacedBass1; [reflexivity | reflexivity | exact Hb | exact Hse].
  - cbn [fst In]. intros [<- | []].
      apply PlacedBass1; [reflexivity | reflexivity | exact Hb | exact Hse].
Qed.

Lemma harmonyNote_placed bar intensity interval idx n :
  (0 <= idx <= 2)%Z ->
  In n (harmonyNote P startTime endTime bar intensity interval idx) ->
  Placed bar n.
Proof.
  intros Hidx. unfold harmonyNote. cbv zeta.
  destruct (inWindow _ _ _) eqn:Hw; [|intros []].
  cbn [In]. intros [<- | []].
  apply PlacedHarm with idx; [exact Hidx | reflexivity | reflexivity | exact Hw].
Qed.

Lemma harmonyLayer_placed bar s n :
  In n (fst (harmonyLayer P startTime endTime bar s)) -> Placed bar n.
Proof.
  unfold harmonyLayer. cbv zeta.
  destruct (Qgtb (rng s) (3 # 10)); [|intros []].
  cbn [fst]. rewrite !in_app_iff.
  intros [H | [H | H]]; eapply harmonyNote_placed; try exact H; lia.
Qed.

Lemma rhythm_cases r : (rhythm r = 1 \/ rhythm r = 2 \/ rhythm r = 4)%Z.
Proof.
  unfold rhythm. destruct (Qgtb r (7 # 10)); [tauto|].
  destruct (Qltb r (3 # 10)); tauto.
Qed.

Lemma melodyLoop_placed bar fuel : forall currentBeat2 s last n,
  (0 <= currentBeat2)%Z ->
  In n (fst (melodyLoop P startTime endTime fuel bar currentBeat2 s last)) ->
  Placed bar n.
Proof.
  induction fuel as [|fuel IH]; intros cb s last n Hcb; [intros []|].
  cbn [melodyLoop].
  destruct (cb <? 8)%Z eqn:Hlt; [|intros []].
  apply Z.ltb_lt in Hlt.
  pose proof (rhythm_cases (rng s)) as Hr.
  destruct (if (cb =? 0)%Z then (true, (s + 1)%Z)
            else (Qgtb (rng (s + 1)) (3 # 10), (s + 2)%Z)) as [shouldPlay s1].
  destruct (shouldPlay && inWindow _ _ _) eqn:Hplay.
  - apply andb_true_iff in Hplay as [_ Hw].
    match goal with
    | |- context [melodyLoop _ _ _ fuel bar ?cb' ?s' ?l'] =>
        destruct (melodyLoop P startTime endTime fuel bar cb' s' l')
          as [rest final] eqn:Hrest
    end.
    cbn [fst In]. intros [<- | Hin].
    + apply PlacedMel with cb (Qfloor (rng (s1 + 2) * 100));
        [lia | reflexivity | reflexivity | exact Hw].
    + eapply (IH _ _ _ n); [|rewrite Hrest; exact Hin]. lia.
  - apply IH. lia.
Qed.

(** The loop ends because [currentBeat] reaches 4, not because the fuel
    runs out: from [currentBeat2] on, [8 - currentBeat2] iterations are
    enough, and more fuel changes nothing. *)
Lemma melodyLoop_fuel bar fuel : forall fuel' currentBeat2 s last,
  (0 <= currentBeat2)%Z ->
  (8 - currentBeat2 <= Z.of_nat fuel)%Z -> (fuel <= fuel')%nat ->
  melodyLoop P startTime endTime fuel' bar currentBeat2 s last
  = melodyLoop P startTime endTime fuel bar currentBeat2 s last.
Proof.
  induction fuel as [|fuel IH]; intros fuel' cb s last Hcb Hfuel Hle.
  - destruct fuel' as [|fuel']; [reflexivity|].
    cbn [melodyLoop].
    destruct (cb <? 8)%Z eqn:Hlt; [apply Z.ltb_lt in Hlt; lia | reflexivity].
  - destruct fuel' as [|fuel']; [lia|].
    cbn [melodyLoop].
    destruct (cb <? 8)%Z; [|reflexivity].
    pose proof (rhythm_cases (rng s)) as Hr.
    destruct (if (cb =? 0)%Z then (true, (s + 1)%Z)
              else (Qgtb (rng (s + 1)) (3 # 10), (s + 2)%Z)) as [shouldPlay s1].
    destruct (shouldPlay && inWindow _ _ _);
      rewrite (IH fuel') by lia; reflexivity.
Qed.

Lemma melodyLayer_total bar s last fuel :
  (8 <= fuel)%nat ->
  melodyLoop P startTime endTime fuel bar 0 s last
  = melodyLayer P startTime endTime bar s last.
Proof.
  intros H. unfold melodyLayer. apply melodyLoop_fuel; lia.
Qed.

Lemma genBar_placed bar st n :
  In n (fst (genBar P startTime endTime bar st)) -> Placed bar n.
Proof.
  destruct st as [s last]. unfold genBar.
  destruct (bassLayer P startTime endTime bar s) as [bass s1] eqn:Hbass.
  destruct (harmonyLayer P startTime endTime bar s1) as [harm s2] eqn:Hharm.
  destruct (melodyLayer P startTime endTime bar s2 last) as [mel st'] eqn:Hmel.
  cbn [fst]. rewrite !in_app_iff. intros [H | [H | H]].
  - apply (bassLayer_placed bar s). now rewrite Hbass.
  - apply (harmonyLayer_placed bar s1). now rewrite Hharm.
  - apply (melodyLoop_placed bar 8 0 s2 last); [lia|].
    unfold melodyLayer in Hmel. now rewrite Hmel.
Qed.

Lemma barLoop_placed count : forall bar st n,
  In n (fst (barLoop P startTime endTime count bar st)) ->
  exists bar', (bar <= bar' < bar + Z.of_nat count)%Z /\ Placed bar' n.
Proof.
  induction count as [|count IH]; intros bar st n; [intros []|].
  cbn [barLoop].
  destruct (genBar P startTime endTime bar st) as [notes st1] eqn:Hgen.
  destruct (barLoop P startTime endTime count (bar + 1) st1)
    as [rest st2] eqn:Hrest.
  cbn [fst]. rewrite in_app_iff. intros [H | H].
  - exists bar. split; [lia|].
    apply (genBar_placed bar st). now rewrite Hgen.
  - destruct (IH (bar + 1)%Z st1 n) as [bar' [Hb Hp]];
      [now rewrite Hrest|].
    exists bar'. split; [lia|assumption].
Qed.

End Bars.

End Placement.

(** ** The final sort *)

Module SortFacts.

Local Open Scope Q_scope.

Lemma In_insertNote x n l : In n (insertNote x l) <-> n = x \/ In n l.
Proof.
  induction l as [|y l IH]; cbn [insertNote In].
  - intuition congruence.
  - destruct (Qle_bool (start_time x) (start_time y)); cbn [In].
    + intuition congruence.
    + rewrite IH. tauto.
Qed.

Lemma In_sortNotes n l : In n (sortNotes l) <-> In n l.
Proof.
  induction l as [|y l IH]; cbn [sortNotes fold_right In]; [tauto|].
  fold (sortNotes l). rewrite In_insertNote, IH. intuition congruence.
Qed.

End SortFacts.

(** ** The composer: the time window *)

Module WindowFacts.

Import Composer ComposerFacts Placement.
Local Open Scope Q_scope.

Section Bars.

Variable P : Params.
Variables startTime endTime : Q.
Hypothesis HP : WellFormed P.

Lemma placed_before_end bar n :
  Placed P startTime endTime bar n -> start_time n < endTime.
Proof.
  intros [_ Ht Hb _ | _ _ Hw | idx _ _ _ Hw | cb r _ _ _ Hw];
    try (apply inWindow_true in Hw; tauto).
  now rewrite Ht.
Qed.

(** Only the downbeat bass note escapes the lower bound. *)
Lemma placed_after_start bar n :
  Placed P startTime endTime bar n ->
  startTime <= start_time n
  \/ (id n = ("bass_" +:+ pretty bar +:+ "_1")%string
      /\ start_time n = inject_Z bar * BAR_DURATION P
      /\ startTime < endTime).
Proof.
  intros [Hid Ht Hb Hse | _ _ Hw | idx _ _ _ Hw | cb r _ _ _ Hw];
    try (apply inWindow_true in Hw; tauto).
  right. split; [assumption|]. split; assumption.
Qed.



End Bars.

End WindowFacts.




(** ** The bass layer *)

Module BassFacts.

Import Composer.
Local Open Scope Q_scope.

Lemma bass_ids_differ (bar : Z) :
  ("bass_" +:+ pretty bar +:+ "_1")%string
  <> ("bass_" +:+ pretty bar +:+ "_3")%string.
Proof.
  intros E. apply (f_equal (Ids.fields "_")) in E.
  rewrite (Ids.fields_bass bar "1"), (Ids.fields_bass bar "3") in E
    by reflexivity.
  discriminate.
Qed.

(** What the code pushes on beat 3: the coin flip is between the scale
    degree four steps above the chord root and the chord root itself. *)
Lemma second_bass_note P startTime endTime bar s n :
  In n (fst (bassLayer P startTime endTime bar s)) ->
  id n = ("bass_" +:+ pretty bar +:+ "_3")%string ->
  velocity n = 75 # 100
  /\ confidence n = 9 # 10
  /\ start_time n = inject_Z bar * BAR_DURATION P + BEAT_DURATION P * 2
  /\ (midi_pitch n = getMidiPitch P (JSInt.add (chordAt P bar) 4) (-2)
      \/ midi_pitch n = getMidiPitch P (JSInt.add (chordAt P bar) 0) (-2)).
Proof.
  unfold bassLayer. cbv zeta.
  destruct (Qltb _ endTime); [|intros []].
  destruct (Qgtb (rng s) (4 # 10)).
  - destruct (inWindow _ _ _); cbn [fst In].
    + intros [<- | [<- | []]]; cbn [id]; intros Hid.
      * now apply bass_ids_differ in Hid.
      * cbn [velocity confidence start_time midi_pitch].
        repeat split.
        destruct (Qgtb (rng (s + 1)) (5 # 10)); [now left | now right].
    + intros [<- | []]; cbn [id]; intros Hid.
      now apply bass_ids_differ in Hid.
  - cbn [fst In]. intros [<- | []]; cbn [id]; intros Hid.
    now apply bass_ids_differ in Hid.
Qed.

End BassFacts.

(** ** The composition for the seed "test" *)

Module Traces.

Import Composer.

Example seed : seedOf "test" = 448.
Proof. reflexivity. Qed.

Example parameters :
  setup 448
  = {| BPM := 114; SWING_FEEL := false; isMinor := false; rootNote := 64;
       progression := [0; 4; 5; 3] |}.
Proof. vm_compute. reflexivity. Qed.

(** The five draws of the setup, as 32-bit numerators. *)
Example setup_draws :
  map getSeededRandomBits [448; 449; 450; 451; 452]
  = [2939769884; 322868269; 1782123344; 2222995277; 314257775].
Proof. vm_compute. reflexivity. Qed.

(** In the call for [0, 4) bar 0 uses the cursor positions 453 to 465 and
    leaves the melody on degree 1. *)
Example after_bar_0 :
  snd (barLoop (setup 448) 0 4 1 0 (453, Fin 0)) = (466, Fin 1).
Proof. vm_compute. reflexivity. Qed.

(** The two bass draws of bar 1: 0.702 > 0.4, the second note is played;
    0.186 <= 0.5, the interval is 0. *)
Example bar_1_bass_draws :
  getSeededRandomBits 466 = 3015750587
  /\ getSeededRandomBits 467 = 800442789
  /\ Qgtb (rng 466) (4 # 10) = true
  /\ Qgtb (rng 467) (5 # 10) = false.
Proof. vm_compute. repeat split; reflexivity. Qed.

(** Bar 1 as two calls return it. *)
Example bar_1_from_0 :
  map (fun n => (id n, midi_pitch n))
    (barNotes "test" 1 (generateDeterministicNotes "test" 0 5))
  = [("bass_1_1", Fin 47); ("mel_1_0_73", Fin 69); ("mel_1_1_72", Fin 71);
     ("bass_1_3", Fin 47); ("mel_1_3_21", Fin 71)]%string.
Proof. vm_compute. reflexivity. Qed.

Example bar_1_from_2 :
  map (fun n => (id n, midi_pitch n))
    (barNotes "test" 1 (generateDeterministicNotes "test" 2 5))
  = [("bass_1_1", Fin 47); ("mel_1_0_70", Fin 64); ("harm_1_0", Fin 59);
     ("harm_1_1", Fin 63); ("harm_1_2", Fin 66); ("bass_1_3", Fin 47);
     ("mel_1_2.5_71", Fin 66); ("mel_1_3.5_33", Fin 71)]%string.
Proof. vm_compute. reflexivity. Qed.

End Traces.

(** C5. In bar 1 of the composition for the seed "test" the bass plays on
    beat 3, and the pitch pushed there is the pitch of the bar's own bass
    note on beat 1 (MIDI 47), neither the fifth above it (54) nor the octave
    above it (59); velocity 0.75 and confidence 0.90 are as stated. *)
Theorem C5_second_bass_note_repeats_the_root :
  let notes := Composer.generateDeterministicNotes "test" 0 4 in
  let P := Composer.setup (Composer.seedOf "test") in
  exists n1 n3,
    In n1 notes /\ In n3 notes
    /\ id n1 = "bass_1_1"%string /\ id n3 = "bass_1_3"%string
    /\ midi_pitch n1 = Fin 47 /\ midi_pitch n3 = Fin 47
    /\ Composer.getMidiPitch P (JSInt.add (Composer.chordAt P 1) 4) (-2) = Fin 54
    /\ Composer.getMidiPitch P (JSInt.add (Composer.chordAt P 1) 7) (-2) = Fin 59
    /\ (velocity n3 == 75 # 100)%Q /\ (confidence n3 == 9 # 10)%Q.
Proof.
  intros notes P.
  exists (nth 6 notes (mkNote "" 0 0 NaN 0 0)),
         (nth 9 notes (mkNote "" 0 0 NaN 0 0)).
  vm_compute.
  repeat split; try reflexivity; try discriminate.
  - do 6 right. left. reflexivity.
  - do 9 right. left. reflexivity.
Qed.

(** ** The composer: pitches *)

Module PitchFacts.

Import Composer ComposerFacts.
Local Open Scope Z_scope.

Section Scale.

Variable P : Params.
Hypothesis HP : WellFormed P.

(** The pitch of a finite degree in the melody octave. *)
Definition pitchOf (d : Z) : Z :=
  rootNote P + (d / 7) * 12 + nth (Z.to_nat (d mod 7)) (scaleIntervals P) 0.

Lemma length_scale : Z.of_nat (length (scaleIntervals P)) = 7.
Proof. unfold scaleIntervals. now destruct (isMinor P). Qed.

Lemma getMidiPitch_Fin d octaveOffset :
  getMidiPitch P (Fin d) octaveOffset = Fin (pitchOf d + 12 * octaveOffset).
Proof.
  unfold getMidiPitch, pitchOf. cbv zeta. rewrite length_scale.
  replace (Z.rem (Z.rem d 7 + 7) 7) with (d mod 7).
  - f_equal. lia.
  - Z.div_mod_to_equations. Z.quot_rem_to_equations. lia.
Qed.

Lemma pitchOf_succ d : 1 <= pitchOf (d + 1) - pitchOf d <= 2.
Proof.
  unfold pitchOf.
  assert (Hm : 0 <= d mod 7 < 7) by (apply Z.mod_pos_bound; lia).
  assert (H : ((d + 1) / 7 = d / 7 + 1 /\ (d + 1) mod 7 = 0 /\ d mod 7 = 6)
              \/ ((d + 1) / 7 = d / 7 /\ (d + 1) mod 7 = d mod 7 + 1
                  /\ d mod 7 < 6))
    by (Z.div_mod_to_equations; lia).
  destruct H as [[-> [-> Hr]] | [-> [-> Hr]]].
  - rewrite Hr. unfold scaleIntervals.
    destruct (isMinor P); simpl; lia.
  - set (r := d mod 7) in *.
    assert (r = 0 \/ r = 1 \/ r = 2 \/ r = 3 \/ r = 4 \/ r = 5)
      as [-> | [-> | [-> | [-> | [-> | ->]]]]] by lia;
      unfold scaleIntervals; destruct (isMinor P); simpl; lia.
Qed.

(** Degrees that are [k] steps apart are between [k] and [2 k] semitones
    apart. *)
Lemma pitchOf_steps d k :
  0 <= k -> k <= pitchOf (d + k) - pitchOf d <= 2 * k.
Proof.
  intros Hk. revert k Hk.
  apply natlike_ind.
  - rewrite Z.add_0_r. lia.
  - intros k Hk IH.
    pose proof (pitchOf_succ (d + k)) as Hs.
    replace (d + Z.succ k) with (d + k + 1) by lia. lia.
Qed.

Lemma pitchOf_octave d k : pitchOf (d + 7 * k) = pitchOf d + 12 * k.
Proof.
  unfold pitchOf.
  rewrite (Z.mul_comm 7 k), Z.div_add, Z.mod_add by lia. lia.
Qed.

Lemma pitchOf_zero : pitchOf 0 = rootNote P.
Proof.
  unfold pitchOf, scaleIntervals.
  change (0 / 7) with 0. change (0 mod 7) with 0.
  destruct (isMinor P); simpl; lia.
Qed.

(** Degrees 0 to 9, the ones built from a chord root. *)
Lemma pitchOf_chord d :
  0 <= d <= 9 -> rootNote P <= pitchOf d <= rootNote P + 18.
Proof.
  intros Hd. pose proof (pitchOf_steps 0 d (proj1 Hd)) as H.
  rewrite Z.add_0_l, pitchOf_zero in H. lia.
Qed.

(** *** Chord roots *)

Lemma chordAt_range bar :
  0 <= bar -> exists c, chordAt P bar = Fin c /\ 0 <= c <= 5.
Proof.
  intros Hbar. unfold chordAt. cbv zeta.
  pose proof (Z.rem_bound_pos bar 4 Hbar eq_refl) as Hr.
  destruct (Z.rem bar 4 <? 0) eqn:E; [apply Z.ltb_lt in E; lia|].
  destruct HP as [_ _ Hprog].
  assert (Hi : Z.rem bar 4 = 0 \/ Z.rem bar 4 = 1 \/ Z.rem bar 4 = 2
               \/ Z.rem bar 4 = 3) by lia.
  unfold PROGRESSIONS in Hprog. cbn [In] in Hprog.
  destruct Hprog as [<- | [<- | [<- | [<- | []]]]];
    destruct Hi as [-> | [-> | [-> | ->]]];
    simpl; eexists; (split; [reflexivity | lia]).
Qed.

(** *** The melodic walk *)

(** The carried degree is finite and sounds between 58 and 84. *)
Definition Carried (lastMelodyDegree : jsint) : Prop :=
  exists d, lastMelodyDegree = Fin d /\ 58 <= pitchOf d <= 84.

Lemma carried_initial : Carried (Fin 0).
Proof.
  exists 0. split; [reflexivity|]. rewrite pitchOf_zero.
  destruct HP as [_ Hroot _]. lia.
Qed.

Lemma clampRange_range c :
  54 <= pitchOf c <= 88 ->
  exists c', clampRange P (Fin c) = Fin c' /\ 60 <= pitchOf c' <= 84.
Proof.
  intros Hc. unfold clampRange. cbv zeta.
  rewrite getMidiPitch_Fin. cbn [JSInt.gtb JSInt.ltb].
  replace (pitchOf c + 12 * 0) with (pitchOf c) by lia.
  destruct (84 <? pitchOf c) eqn:Hhi.
  - apply Z.ltb_lt in Hhi. cbn [JSInt.add].
    rewrite getMidiPitch_Fin. cbn [JSInt.ltb].
    pose proof (pitchOf_octave c (-1)) as Ho.
    replace (c + 7 * -1) with (c + -7) in Ho by lia.
    destruct (pitchOf (c + -7) + 12 * 0 <? 60) eqn:Hlo.
    + apply Z.ltb_lt in Hlo. lia.
    + exists (c + -7). split; [reflexivity | lia].
  - apply Z.ltb_ge in Hhi.
    rewrite getMidiPitch_Fin. cbn [JSInt.ltb].
    destruct (pitchOf c + 12 * 0 <? 60) eqn:Hlo.
    + apply Z.ltb_lt in Hlo. cbn [JSInt.add].
      pose proof (pitchOf_octave c 1) as Ho.
      replace (c + 7 * 1) with (c + 7) in Ho by lia.
      exists (c + 7). split; [reflexivity | lia].
    + apply Z.ltb_ge in Hlo. exists c. split; [reflexivity | lia].
Qed.

(** One melodic decision keeps the degree within reach of the clamp. *)
Lemma candidate_range bar currentBeat2 duration2 d (up tone : bool) :
  0 <= bar -> 58 <= pitchOf d <= 84 ->
  exists c,
    phraseEnd P bar currentBeat2 duration2
      (gravitate currentBeat2
         (JSInt.add (Fin d) (if up then 1 else -1))
         (JSInt.add (chordAt P bar) (if tone then 0 else 2)))
    = Fin c
    /\ 54 <= pitchOf c <= 88.
Proof.
  intros Hbar Hd.
  destruct (chordAt_range bar Hbar) as [ch [Hch Hrange]].
  destruct HP as [_ Hroot _].
  unfold phraseEnd. rewrite Hch. cbn [JSInt.add].
  destruct ((6 <=? currentBeat2) && (2 <=? duration2)).
  - destruct (Z.rem bar 2 =? 0).
    + exists (ch + 4). split; [reflexivity|].
      pose proof (pitchOf_chord (ch + 4)). lia.
    + exists ch. split; [reflexivity|].
      pose proof (pitchOf_chord ch). lia.
  - set (c0 := d + (if up then 1 else -1)).
    assert (H0 : -2 <= pitchOf c0 - pitchOf d <= 2).
    { unfold c0. destruct up.
      - pose proof (pitchOf_succ d). lia.
      - pose proof (pitchOf_succ (d + -1)) as Hs.
        replace (d + -1 + 1) with d in Hs by lia. lia. }
    unfold gravitate.
    destruct (Z.rem currentBeat2 4 =? 0).
    + cbn [JSInt.ltb JSInt.gtb].
      destruct (c0 <? ch + (if tone then 0 else 2)).
      * exists (c0 + 1). split; [reflexivity|].
        pose proof (pitchOf_succ c0). lia.
      * destruct (ch + (if tone then 0 else 2) <? c0).
        -- exists (c0 + -1). split; [reflexivity|].
           pose proof (pitchOf_succ (c0 + -1)) as Hs.
           replace (c0 + -1 + 1) with c0 in Hs by lia. lia.
        -- exists c0. split; [reflexivity | lia].
    + exists c0. split; [reflexivity | lia].
Qed.

Variables startTime endTime : Q.

(** A pitch that one of the three layers can push. *)
Definition Playable (n : NoteEvent) : Prop :=
  exists z, midi_pitch n = Fin z /\ 34 <= z <= 87.

Lemma melodyLoop_pitches bar fuel : forall currentBeat2 s last,
  0 <= bar -> Carried last ->
  Forall Playable
    (fst (melodyLoop P startTime endTime fuel bar currentBeat2 s last))
  /\ Carried
       (snd (snd (melodyLoop P startTime endTime fuel bar currentBeat2 s last))).
Proof.
  induction fuel as [|fuel IH]; intros cb s last Hbar Hlast;
    [split; [constructor | exact Hlast]|].
  cbn [melodyLoop].
  destruct (cb <? 8); [|split; [constructor | exact Hlast]].
  destruct (if cb =? 0 then (true, s + 1)
            else (Qgtb (rng (s + 1)) (3 # 10), s + 2)) as [shouldPlay s1].
  destruct (shouldPlay && inWindow _ _ _).
  - destruct Hlast as [d [-> Hd]].
    destruct (candidate_range bar cb (rhythm (rng s)) d
                (Qgtb (rng (s1 + 1)) (5 # 10)) (Qgtb (rng s1) (5 # 10))
                Hbar Hd) as [c [Hc Hrange]].
    rewrite Hc.
    destruct (clampRange_range c Hrange) as [c' [Hc' Hrange']].
    rewrite Hc'.
    assert (Hnext : Carried (Fin c')) by (exists c'; split; [reflexivity|lia]).
    specialize (IH (cb + rhythm (rng s)) (s1 + 3) (Fin c') Hbar Hnext).
    destruct (melodyLoop P startTime endTime fuel bar
                (cb + rhythm (rng s)) (s1 + 3) (Fin c')) as [rest final].
    cbn [fst snd] in *. destruct IH as [IH1 IH2].
    split; [|exact IH2].
    constructor; [|exact IH1].
    exists (pitchOf c' + 12 * 0). cbn [midi_pitch].
    split; [apply getMidiPitch_Fin | lia].
  - now apply IH.
Qed.

Lemma bassLayer_pitches bar s :
  0 <= bar ->
  Forall Playable (fst (bassLayer P startTime endTime bar s)).
Proof.
  intros Hbar. destruct (chordAt_range bar Hbar) as [ch [Hch Hrange]].
  destruct HP as [_ Hroot _].
  assert (H1 : Playable
                 (mkNote ("bass_" +:+ pretty bar +:+ "_1")
                    (inject_Z bar * BAR_DURATION P)
                    (BEAT_DURATION P * (12 # 10))
                    (getMidiPitch P (chordAt P bar) (-2))
                    (85 # 100) (98 # 100))).
  { exists (pitchOf ch + 12 * -2). cbn [midi_pitch]. rewrite Hch.
    split; [apply getMidiPitch_Fin|].
    pose proof (pitchOf_chord ch). lia. }
  unfold bassLayer. cbv zeta.
  destruct (Qltb _ endTime); [|constructor].
  destruct (Qgtb (rng s) (4 # 10)); [|repeat constructor; exact H1].
  destruct (inWindow _ _ _); [|repeat constructor; exact H1].
  cbn [fst]. constructor; [exact H1|]. constructor; [|constructor].
  cbn [midi_pitch]. rewrite Hch. cbn [JSInt.add].
  eexists. split; [apply getMidiPitch_Fin|].
  destruct (Qgtb (rng (s + 1)) (5 # 10)).
  - pose proof (pitchOf_chord (ch + 4)). lia.
  - pose proof (pitchOf_chord (ch + 0)). lia.
Qed.

Lemma harmonyNote_pitches bar intensity interval idx :
  0 <= bar -> 0 <= interval <= 4 ->
  Forall Playable (harmonyNote P startTime endTime bar intensity interval idx).
Proof.
  intros Hbar Hi. destruct (chordAt_range bar Hbar) as [ch [Hch Hrange]].
  destruct HP as [_ Hroot _].
  unfold harmonyNote. cbv zeta.
  destruct (inWindow _ _ _); [|constructor].
  constructor; [|constructor].
  cbn [midi_pitch]. rewrite Hch. cbn [JSInt.add].
  eexists. split; [apply getMidiPitch_Fin|].
  pose proof (pitchOf_chord (ch + interval)). lia.
Qed.

Lemma harmonyLayer_pitches bar s :
  0 <= bar ->
  Forall Playable (fst (harmonyLayer P startTime endTime bar s)).
Proof.
  intros Hbar. unfold harmonyLayer. cbv zeta.
  destruct (Qgtb (rng s) (3 # 10)); [|constructor].
  cbn [fst]. repeat apply Forall_app_2;
    apply harmonyNote_pitches; lia.
Qed.

Lemma genBar_pitches bar st :
  0 <= bar -> Carried (snd st) ->
  Forall Playable (fst (genBar P startTime endTime bar st))
  /\ Carried (snd (snd (genBar P startTime endTime bar st))).
Proof.
  intros Hbar Hlast. destruct st as [s last]. cbn [snd] in Hlast.
  unfold genBar.
  pose proof (bassLayer_pitches bar s Hbar) as Hb.
  destruct (bassLayer P startTime endTime bar s) as [bass s1].
  pose proof (harmonyLayer_pitches bar s1 Hbar) as Hh.
  destruct (harmonyLayer P startTime endTime bar s1) as [harm s2].
  pose proof (melodyLoop_pitches bar 8 0 s2 last Hbar Hlast) as [Hm Hc].
  unfold melodyLayer.
  destruct (melodyLoop P startTime endTime 8 bar 0 s2 last) as [mel st'].
  cbn [fst snd] in *.
  split; [|exact Hc].
  repeat apply Forall_app_2; assumption.
Qed.

Lemma barLoop_pitches count : forall bar st,
  0 <= bar -> Carried (snd st) ->
  Forall Playable (fst (barLoop P startTime endTime count bar st)).
Proof.
  induction count as [|count IH]; intros bar st Hbar Hlast; [constructor|].
  cbn [barLoop].
  pose proof (genBar_pitches bar st Hbar Hlast) as [Hg Hc].
  destruct (genBar P startTime endTime bar st) as [notes st1].
  cbn [fst snd] in *.
  assert (Hnext : 0 <= bar + 1) by lia.
  specialize (IH (bar + 1) st1 Hnext Hc).
  destruct (barLoop P startTime endTime count (bar + 1) st1) as [rest st2].
  cbn [fst] in *. now apply Forall_app_2.
Qed.

End Scale.

End PitchFacts.

(** The composer's pitches, whatever the seed and the window from a
    non-negative start: bass and harmony are built on chord roots 0..5 one
    or two octaves down, the melody is clamped after every step. *)
Lemma composed_pitches videoId startTime endTime n :
  (0 <= startTime)%Q ->
  In n (Composer.generateDeterministicNotes videoId startTime endTime) ->
  exists z, midi_pitch n = Fin z /\ 34 <= z <= 87.
Proof.
  intros Hstart Hin.
  unfold Composer.generateDeterministicNotes in Hin.
  apply (proj1 (SortFacts.In_sortNotes _ _)) in Hin.
  unfold Composer.generated in Hin. cbv zeta in Hin.
  pose proof (ComposerFacts.setup_wf (Composer.seedOf videoId)) as HP.
  set (P := Composer.setup (Composer.seedOf videoId)) in *.
  assert (Hbar : 0 <= Qfloor (startTime / Composer.BAR_DURATION P)).
  { change 0 with (Qfloor 0). apply Qfloor_resp_le.
    apply Qle_shift_div_l; [now apply ComposerFacts.BAR_pos|].
    now rewrite Qmult_0_l. }
  pose proof (PitchFacts.barLoop_pitches P HP startTime endTime
                (Z.to_nat (Qceiling (endTime / Composer.BAR_DURATION P)
                           - Qfloor (startTime / Composer.BAR_DURATION P)))
                (Qfloor (startTime / Composer.BAR_DURATION P))
                (Composer.seedOf videoId + 5, Fin 0) Hbar
                (PitchFacts.carried_initial P HP)) as Hall.
  rewrite List.Forall_forall in Hall.
  exact (Hall n Hin).
Qed.

(** ** The segmenter: where the pitches come from *)

Module TrackerFacts.

Import Analyzer.
Local Open Scope Z_scope.




Section Sweep.

Variables sampleRate startTime : Q.
Hypothesis Hrate : (0 < sampleRate)%Q.




Variable segmentData : list Q.



End Sweep.


End TrackerFacts.




(** ** Malformed time ranges *)

Module MalformedFacts.

Local Open Scope Q_scope.

(** The composer on an empty window: nothing passes the window tests. *)
Lemma composer_empty_window videoId startTime endTime :
  endTime <= startTime ->
  Composer.generateDeterministicNotes videoId startTime endTime = [].
Proof.
  intros Hle. unfold Composer.generateDeterministicNotes.
  assert (E : Composer.generated videoId startTime endTime = []).
  { destruct (Composer.generated videoId startTime endTime) as [|n l] eqn:E;
      [reflexivity|].
    exfalso.
    assert (Hin : In n (Composer.generated videoId startTime endTime))
      by (rewrite E; now left).
    unfold Composer.generated in Hin. cbv zeta in Hin.
    apply Placement.barLoop_placed in Hin as [bar [_ Hp]].
    assert (Hlt : startTime < endTime).
    { destruct Hp as [_ _ _ H | _ _ Hw | idx _ _ _ Hw | cb r _ _ _ Hw];
        [exact H | | |];
        apply Placement.inWindow_true in Hw as [H1 H2];
        now apply Qle_lt_trans with (start_time n). }
    now apply Qle_not_lt in Hle. }
  now rewrite E.
Qed.

(** The segmenter on a range that ends at or before its start, when the end
    is not negative: the slice is empty. *)
Lemma analyzer_empty_range audioBuffer startTime duration :
  0 <= Analyzer.bufferRate audioBuffer ->
  duration <= 0 ->
  0 <= startTime + duration ->
  Analyzer.analyzeAudioSegment audioBuffer startTime duration = [].
Proof.
  intros Hrate Hdur Hend.
  assert (E : Analyzer.segmentOf audioBuffer startTime duration = []).
  { unfold Analyzer.segmentOf. cbv zeta.
    set (rate := Analyzer.bufferRate audioBuffer) in *.
    set (data := Analyzer.channelData audioBuffer).
    assert (H1 : (Qfloor ((startTime + duration) * rate)
                  <= Qfloor (startTime * rate))%Z).
    { apply Qfloor_resp_le. apply Qmult_le_compat_r; [lra | assumption]. }
    assert (H2 : (0 <= Qfloor ((startTime + duration) * rate))%Z).
    { change 0%Z with (Qfloor 0). apply Qfloor_resp_le.
      now apply Qmult_le_0_compat. }
    unfold jsSlice. cbv zeta.
    set (len := Z.of_nat (length data)).
    assert (Hlen : (0 <= len)%Z) by (unfold len; lia).
    destruct (Z.max 0 (Qfloor (startTime * rate)) <? 0)%Z eqn:Ea;
      [apply Z.ltb_lt in Ea; lia|].
    destruct (Z.min len (Qfloor ((startTime + duration) * rate)) <? 0)%Z eqn:Eb;
      [apply Z.ltb_lt in Eb; lia|].
    replace (Z.to_nat _) with O by lia. reflexivity. }
  unfold Analyzer.analyzeAudioSegment. rewrite E. reflexivity.
Qed.

End MalformedFacts.

(** C8. A negative duration that makes the end of the range negative does
    not give an empty slice: [slice] counts a negative end from the end of
    the channel data. For 6145 samples of a tone followed by one second of
    silence, start 0 and duration -1 select the tone, and a note comes back. *)
Theorem C8_negative_duration_selects_samples :
  Analyzer.segmentOf (Analyzer.mkBuffer 44100 Signals.toneThenSilence) 0 (-1)
  = Signals.tone
  /\ map midi_pitch
       (Analyzer.analyzeAudioSegment
          (Analyzer.mkBuffer 44100 Signals.toneThenSilence) 0 (-1))
     = [Fin 137]
  /\ Analyzer.analyzeAudioSegment
       (Analyzer.mkBuffer 44100 Signals.toneThenSilence) 0 (-1) <> [].
Proof.
  assert (E : map midi_pitch
                (Analyzer.analyzeAudioSegment
                   (Analyzer.mkBuffer 44100 Signals.toneThenSilence) 0 (-1))
              = [Fin 137]).
  { unfold Analyzer.analyzeAudioSegment.
    rewrite NyquistFacts.pitch_mapIdx, NyquistFacts.segment_negative_duration.
    exact NyquistFacts.rawNotes_pitch. }
  split; [exact NyquistFacts.segment_negative_duration|].
  split; [exact E|].
  intros H. apply (f_equal (map midi_pitch)) in H.
  rewrite E in H. discriminate H.
Qed.

(** ** The composer: identifiers are pairwise distinct *)

Module SlotFacts.

Import Composer.
Local Open Scope Z_scope.

(** The fields of a note's identifier. *)
Definition slot (n : NoteEvent) : list string := Ids.fields "_" (id n).

Lemma NoDup_ids l : List.NoDup (map slot l) -> List.NoDup (map id l).
Proof.
  intros H. apply List.NoDup_map_inv with (f := Ids.fields "_").
  now rewrite map_map.
Qed.

(** A list whose notes all carry layer [layer] and bar [bar] in the first
    two fields. *)
Definition Tagged (layer : string) (bar : Z) (l : list NoteEvent) : Prop :=
  Forall (fun n => exists rest, slot n = layer :: pretty bar :: rest) l.

Lemma tagged_disjoint layer layer' bar bar' l l' n :
  Tagged layer bar l -> Tagged layer' bar' l' ->
  layer <> layer' \/ bar <> bar' ->
  In (slot n) (map slot l) -> ~ In (slot n) (map slot l').
Proof.
  intros Hl Hl' Hne Hin Hin'.
  apply in_map_iff in Hin as [m [Em Hm]].
  apply in_map_iff in Hin' as [m' [Em' Hm']].
  unfold Tagged in Hl, Hl'. rewrite List.Forall_forall in Hl, Hl'.
  destruct (Hl m Hm) as [rest Hs]. destruct (Hl' m' Hm') as [rest' Hs'].
  rewrite <- Em' in Em. rewrite Hs, Hs' in Em.
  injection Em as E1 E2 _.
  destruct Hne as [Hne | Hne]; [now apply Hne|].
  apply Hne. now apply (inj pretty).
Qed.

Section Bars.

Variable P : Params.
Variables startTime endTime : Q.

Lemma bassLayer_tagged bar s :
  Tagged "bass" bar (fst (bassLayer P startTime endTime bar s)).
Proof.
  assert (H1 : forall k a b c d e,
             Ids.lacks "_" k = true ->
             exists rest,
               slot (mkNote ("bass_" +:+ pretty bar +:+ String "_" k)
                       a b c d e)
               = "bass"%string :: pretty bar :: rest).
  { intros k a b c d e Hk. exists [k]. unfold slot. cbn [id].
    now apply Ids.fields_bass. }
  unfold bassLayer. cbv zeta.
  destruct (Qltb _ endTime); [|constructor].
  destruct (Qgtb (rng s) (4 # 10)).
  - destruct (inWindow _ _ _); cbn [fst]; repeat constructor;
      now apply H1.
  - repeat constructor. now apply H1.
Qed.

Lemma bassLayer_nodup bar s :
  List.NoDup (map slot (fst (bassLayer P startTime endTime bar s))).
Proof.
  unfold bassLayer. cbv zeta.
  destruct (Qltb _ endTime); [|constructor].
  destruct (Qgtb (rng s) (4 # 10)).
  - destruct (inWindow _ _ _); cbn [fst map].
    + constructor; [|constructor; [intros [] | constructor]].
      intros [H | []]. unfold slot in H. cbn [id] in H.
      rewrite (Ids.fields_bass bar "1"), (Ids.fields_bass bar "3") in H
        by reflexivity.
      discriminate.
    + constructor; [intros [] | constructor].
  - cbn [fst map]. constructor; [intros [] | constructor].
Qed.

Lemma harmonyNote_slots bar intensity interval idx :
  map slot (harmonyNote P startTime endTime bar intensity interval idx) = []
  \/ map slot (harmonyNote P startTime endTime bar intensity interval idx)
     = [["harm"%string; pretty bar; pretty idx]].
Proof.
  unfold harmonyNote. cbv zeta.
  destruct (inWindow _ _ _); [right | now left].
  cbn [map]. unfold slot. cbn [id]. now rewrite Ids.fields_harm.
Qed.

Lemma harmonyLayer_tagged bar s :
  Tagged "harm" bar (fst (harmonyLayer P startTime endTime bar s)).
Proof.
  assert (H : forall intensity interval idx,
             Tagged "harm" bar
               (harmonyNote P startTime endTime bar intensity interval idx)).
  { intros intensity interval idx. unfold harmonyNote. cbv zeta.
    destruct (inWindow _ _ _); [|constructor].
    constructor; [|constructor].
    exists [pretty idx]. unfold slot. cbn [id]. apply Ids.fields_harm. }
  unfold harmonyLayer. cbv zeta.
  destruct (Qgtb (rng s) (3 # 10)); [|constructor].
  cbn [fst]. repeat apply Forall_app_2; apply H.
Qed.

Lemma harmonyLayer_nodup bar s :
  List.NoDup (map slot (fst (harmonyLayer P startTime endTime bar s))).
Proof.
  unfold harmonyLayer. cbv zeta.
  destruct (Qgtb (rng s) (3 # 10)); [|constructor].
  cbn [fst]. rewrite !map_app.
  assert (H01 : pretty 0 <> pretty 1) by discriminate.
  assert (H02 : pretty 0 <> pretty 2) by discriminate.
  assert (H12 : pretty 1 <> pretty 2) by discriminate.
  destruct (harmonyNote_slots bar (rng s) 0 0) as [-> | ->],
           (harmonyNote_slots bar (rng s) 2 1) as [-> | ->],
           (harmonyNote_slots bar (rng s) 4 2) as [-> | ->];
    cbn [app];
    repeat (constructor; [cbn [In]; intuition congruence|]);
    constructor.
Qed.

(** Melody notes carry the beat they sound on, and the loop only moves
    forward. *)
Lemma melodyLoop_slots bar fuel : forall currentBeat2 s last n,
  In n (fst (melodyLoop P startTime endTime fuel bar currentBeat2 s last)) ->
  exists beat r : Z,
    currentBeat2 <= beat
    /\ slot n = ["mel"%string; pretty bar; renderBeat beat; pretty r].
Proof.
  induction fuel as [|fuel IH]; intros cb s last n; [intros []|].
  cbn [melodyLoop].
  destruct (cb <? 8); [|intros []].
  pose proof (Placement.rhythm_cases (rng s)) as Hr.
  destruct (if cb =? 0 then (true, s + 1)
            else (Qgtb (rng (s + 1)) (3 # 10), s + 2)) as [shouldPlay s1].
  destruct (shouldPlay && inWindow _ _ _).
  - match goal with
    | |- context [melodyLoop _ _ _ fuel bar ?cb' ?s' ?l'] =>
        specialize (IH cb' s' l' n);
        destruct (melodyLoop P startTime endTime fuel bar cb' s' l')
          as [rest final]
    end.
    cbn [fst In] in *. intros [<- | Hin].
    + exists cb, (Qfloor (rng (s1 + 2) * 100)). split; [lia|].
      unfold slot. cbn [id]. apply Ids.fields_mel.
    + destruct (IH Hin) as [beat [r [Hb Hs]]].
      exists beat, r. split; [lia | exact Hs].
  - intros Hin. destruct (IH _ _ _ n Hin) as [beat [r [Hb Hs]]].
    exists beat, r. split; [lia | exact Hs].
Qed.

Lemma melodyLoop_tagged bar fuel currentBeat2 s last :
  Tagged "mel" bar
    (fst (melodyLoop P startTime endTime fuel bar currentBeat2 s last)).
Proof.
  apply List.Forall_forall. intros n Hin.
  apply melodyLoop_slots in Hin as [beat [r [_ Hs]]].
  rewrite Hs. now eexists.
Qed.

Lemma melodyLoop_nodup bar fuel : forall currentBeat2 s last,
  List.NoDup (map slot
           (fst (melodyLoop P startTime endTime fuel bar currentBeat2 s last))).
Proof.
  induction fuel as [|fuel IH]; intros cb s last; [constructor|].
  cbn [melodyLoop].
  destruct (cb <? 8); [|constructor].
  pose proof (Placement.rhythm_cases (rng s)) as Hr.
  destruct (if cb =? 0 then (true, s + 1)
            else (Qgtb (rng (s + 1)) (3 # 10), s + 2)) as [shouldPlay s1].
  destruct (shouldPlay && inWindow _ _ _); [|apply IH].
  match goal with
  | |- context [melodyLoop _ _ _ fuel bar ?cb' ?s' ?l'] =>
      pose proof (melodyLoop_slots bar fuel cb' s' l') as Hrest;
      specialize (IH cb' s' l');
      destruct (melodyLoop P startTime endTime fuel bar cb' s' l')
        as [rest final]
  end.
  cbn [fst map] in *. constructor; [|exact IH].
  intros Hin. apply in_map_iff in Hin as [m [Em Hm]].
  destruct (Hrest m Hm) as [beat [r [Hb Hs]]].
  unfold slot at 2 in Em. cbn [id] in Em.
  rewrite Ids.fields_mel, Hs in Em.
  apply (f_equal (fun fs => nth 2 fs EmptyString)) in Em. cbn [nth] in Em.
  apply Ids.renderBeat_inj in Em. lia.
Qed.

Lemma genBar_tagged bar st :
  Forall (fun n => exists layer rest, slot n = layer :: pretty bar :: rest)
    (fst (genBar P startTime endTime bar st)).
Proof.
  destruct st as [s last]. unfold genBar.
  pose proof (bassLayer_tagged bar s) as Hb.
  destruct (bassLayer P startTime endTime bar s) as [bass s1].
  pose proof (harmonyLayer_tagged bar s1) as Hh.
  destruct (harmonyLayer P startTime endTime bar s1) as [harm s2].
  pose proof (melodyLoop_tagged bar 8 0 s2 last) as Hm.
  unfold melodyLayer.
  destruct (melodyLoop P startTime endTime 8 bar 0 s2 last) as [mel st'].
  cbn [fst] in *.
  repeat apply Forall_app_2;
    [revert Hb | revert Hh | revert Hm]; apply List.Forall_impl;
    intros n [rest Hs]; eauto.
Qed.

Lemma genBar_nodup bar st :
  List.NoDup (map slot (fst (genBar P startTime endTime bar st))).
Proof.
  destruct st as [s last]. unfold genBar.
  pose proof (bassLayer_tagged bar s) as Hb.
  pose proof (bassLayer_nodup bar s) as Nb.
  destruct (bassLayer P startTime endTime bar s) as [bass s1].
  pose proof (harmonyLayer_tagged bar s1) as Hh.
  pose proof (harmonyLayer_nodup bar s1) as Nh.
  destruct (harmonyLayer P startTime endTime bar s1) as [harm s2].
  pose proof (melodyLoop_tagged bar 8 0 s2 last) as Hm.
  pose proof (melodyLoop_nodup bar 8 0 s2 last) as Nm.
  unfold melodyLayer.
  destruct (melodyLoop P startTime endTime 8 bar 0 s2 last) as [mel st'].
  cbn [fst] in *. rewrite !map_app.
  apply List.NoDup_app; [exact Nb | |].
  - apply List.NoDup_app; [exact Nh | exact Nm |].
    intros k Hk. apply in_map_iff in Hk as [n [<- Hn]].
    apply (tagged_disjoint "harm" "mel" bar bar harm mel n Hh Hm);
      [left; discriminate|].
    now apply in_map.
  - intros k Hk. apply in_map_iff in Hk as [n [<- Hn]].
    rewrite in_app_iff. intros [H | H]; revert H.
    + apply (tagged_disjoint "bass" "harm" bar bar bass harm n Hb Hh);
        [left; discriminate|].
      now apply in_map.
    + apply (tagged_disjoint "bass" "mel" bar bar bass mel n Hb Hm);
        [left; discriminate|].
      now apply in_map.
Qed.

Lemma barLoop_tagged count : forall bar st,
  Forall (fun n => exists bar' layer rest,
            bar <= bar' /\ slot n = layer :: pretty bar' :: rest)
    (fst (barLoop P startTime endTime count bar st)).
Proof.
  induction count as [|count IH]; intros bar st; [constructor|].
  cbn [barLoop].
  pose proof (genBar_tagged bar st) as Hg.
  destruct (genBar P startTime endTime bar st) as [notes st1].
  specialize (IH (bar + 1) st1).
  destruct (barLoop P startTime endTime count (bar + 1) st1) as [rest st2].
  cbn [fst] in *. apply Forall_app_2.
  - revert Hg. apply List.Forall_impl. intros n [layer [r Hs]].
    exists bar, layer, r. split; [lia | exact Hs].
  - revert IH. apply List.Forall_impl. intros n [bar' [layer [r [Hb Hs]]]].
    exists bar', layer, r. split; [lia | exact Hs].
Qed.

Lemma barLoop_nodup count : forall bar st,
  List.NoDup (map slot (fst (barLoop P startTime endTime count bar st))).
Proof.
  induction count as [|count IH]; intros bar st; [constructor|].
  cbn [barLoop].
  pose proof (genBar_tagged bar st) as Hg.
  pose proof (genBar_nodup bar st) as Ng.
  destruct (genBar P startTime endTime bar st) as [notes st1].
  pose proof (barLoop_tagged count (bar + 1) st1) as Hr.
  specialize (IH (bar + 1) st1).
  destruct (barLoop P startTime endTime count (bar + 1) st1) as [rest st2].
  cbn [fst] in *. rewrite map_app.
  apply List.NoDup_app; [exact Ng | exact IH |].
  intros k Hk Hk'.
  apply in_map_iff in Hk as [n [<- Hn]].
  apply in_map_iff in Hk' as [m [Em Hm]].
  rewrite List.Forall_forall in Hg, Hr.
  destruct (Hg n Hn) as [layer [r Hs]].
  destruct (Hr m Hm) as [bar' [layer' [r' [Hb Hs']]]].
  rewrite Hs, Hs' in Em. injection Em as _ E _.
  apply (inj pretty) in E. lia.
Qed.

End Bars.

End SlotFacts.

(** ** Sorted output *)

Module OrderFacts.

Local Open Scope Q_scope.

Lemma insertNote_hd x y l :
  byStart y x -> HdRel byStart y l -> HdRel byStart y (insertNote x l).
Proof.
  intros Hyx Hl. destruct l as [|z l]; cbn [insertNote].
  - now constructor.
  - destruct (Qle_bool (start_time x) (start_time z)); constructor;
      [assumption|]. now inversion Hl.
Qed.

Lemma insertNote_sorted x l :
  Sorted byStart l -> Sorted byStart (insertNote x l).
Proof.
  induction l as [|y l IH]; intros Hl; cbn [insertNote].
  - repeat constructor.
  - destruct (Qle_bool (start_time x) (start_time y)) eqn:E.
    + constructor; [assumption|]. constructor. now apply Qle_bool_iff.
    + inversion Hl as [|? ? Hs Hh]; subst.
      constructor; [now apply IH|].
      apply insertNote_hd; [|assumption].
      unfold byStart. apply Qlt_le_weak. apply Qnot_le_lt.
      intros Hle. apply Qle_bool_iff in Hle. congruence.
Qed.

Lemma sortNotes_sorted l : Sorted byStart (sortNotes l).
Proof.
  induction l as [|x l IH]; cbn [sortNotes fold_right]; [constructor|].
  now apply insertNote_sorted.
Qed.

Lemma insertNote_perm x l : Permutation (insertNote x l) (x :: l).
Proof.
  induction l as [|y l IH]; cbn [insertNote]; [reflexivity|].
  destruct (Qle_bool (start_time x) (start_time y)); [reflexivity|].
  rewrite IH. apply perm_swap.
Qed.

Lemma sortNotes_perm l : Permutation (sortNotes l) l.
Proof.
  induction l as [|x l IH]; cbn [sortNotes fold_right]; [reflexivity|].
  fold (sortNotes l). rewrite insertNote_perm. now constructor.
Qed.

Lemma Sorted_snoc {A} (R : A -> A -> Prop) l y :
  Sorted R l -> (forall x, In x l -> R x y) -> Sorted R (l ++ [y]).
Proof.
  induction l as [|x l IH]; intros Hl Hy; cbn [app]; [repeat constructor|].
  inversion Hl as [|? ? Hs Hh]; subst.
  constructor.
  - apply IH; [assumption|]. intros z Hz. apply Hy. now right.
  - destruct l as [|z l]; cbn [app]; constructor.
    + apply Hy. now left.
    + now inversion Hh.
Qed.

End OrderFacts.

(** ** The segmenter: order and identifiers *)

Module SegmentFacts.

Import Analyzer OrderFacts.
Local Open Scope Q_scope.

Definition rawByStart (a b : RawNote) : Prop := start a <= start b.

Section Sweep.

Variables sampleRate startTime : Q.
Hypothesis Hrate : 0 < sampleRate.

Definition startAt (c : Z) : Q := startTime + inject_Z c / sampleRate.

Lemma startAt_mono c c' : (c <= c')%Z -> startAt c <= startAt c'.
Proof.
  intros H. unfold startAt. apply Qplus_le_r.
  apply Qmult_le_compat_r; [now rewrite <- Zle_Qle|].
  apply Qlt_le_weak. now apply Qinv_lt_0_compat.
Qed.

(** The sample index below which every collected note was opened. *)
Definition frontier (i : Z) (st : Sweep) : Z :=
  if (currentNoteStart st =? -1)%Z then i else currentNoteStart st.

Record Inv (i : Z) (st : Sweep) : Prop := {
  inv_open : currentNoteStart st = (-1)%Z
             \/ (0 <= currentNoteStart st < i)%Z;
  inv_starts : forall n, In n (notes st) ->
               exists c, (c < frontier i st)%Z /\ start n = startAt c;
  inv_sorted : Sorted rawByStart (notes st)
}.

Lemma inv_initial : Inv 0 initial.
Proof.
  split; cbn [initial currentNoteStart notes].
  - now left.
  - intros n [].
  - constructor.
Qed.

(** Closing the open note keeps the collected notes in order. *)
Lemma push_sorted i st closeAt conf :
  Inv i st -> currentNoteStart st <> (-1)%Z ->
  Sorted rawByStart (notes st ++ [closing sampleRate startTime st closeAt conf]).
Proof.
  intros [Ho Hs Hsort] Hne.
  apply Sorted_snoc; [assumption|].
  intros n Hn. destruct (Hs n Hn) as [c [Hc Hstart]].
  unfold rawByStart. rewrite Hstart. cbn [closing start].
  apply startAt_mono. unfold frontier in Hc.
  destruct (currentNoteStart st =? -1)%Z eqn:E;
    [apply Z.eqb_eq in E; contradiction | lia].
Qed.

Lemma push_starts i st closeAt conf bound :
  Inv i st -> currentNoteStart st <> (-1)%Z -> (i <= bound)%Z ->
  forall n,
    In n (notes st ++ [closing sampleRate startTime st closeAt conf]) ->
    exists c, (c < bound)%Z /\ start n = startAt c.
Proof.
  intros [Ho Hs Hsort] Hne Hb n Hn.
  assert (Hopen : (0 <= currentNoteStart st < i)%Z) by tauto.
  apply in_app_iff in Hn as [Hn | [<- | []]].
  - destruct (Hs n Hn) as [c [Hc Hstart]]. exists c. split; [|assumption].
    unfold frontier in Hc.
    destruct (currentNoteStart st =? -1)%Z; lia.
  - exists (currentNoteStart st). split; [lia | reflexivity].
Qed.

Lemma pushIfStable_cases st closeAt conf :
  pushIfStable sampleRate startTime st closeAt conf = notes st
  \/ pushIfStable sampleRate startTime st closeAt conf
     = notes st ++ [closing sampleRate startTime st closeAt conf].
Proof. unfold pushIfStable. destruct (4 <? framesInNote st)%Z; tauto. Qed.

Lemma step_inv i frame st :
  (0 <= i)%Z -> Inv i st ->
  Inv (i + hopSize) (step sampleRate startTime i frame st).
Proof.
  intros Hi HI. pose proof HI as [Ho Hs Hsort].
  assert (Hhop : (0 < hopSize)%Z) by reflexivity.
  assert (Hkeep : Inv (i + hopSize) st).
  { split; [lia | | assumption].
    intros n Hn. destruct (Hs n Hn) as [c [Hc Hstart]].
    exists c. split; [|assumption]. unfold frontier in *.
    destruct (currentNoteStart st =? -1)%Z; lia. }
  destruct frame as [| | midiPitch]; cbn [step]; [| exact Hkeep |].
  - destruct (currentNoteStart st =? -1)%Z eqn:E; [exact Hkeep|].
    apply Z.eqb_neq in E.
    split; cbn [currentNoteStart notes].
    + now left.
    + unfold frontier. cbn [currentNoteStart]. rewrite Z.eqb_refl.
      destruct (pushIfStable_cases st i (8 # 10)) as [-> | ->].
      * intros n Hn. destruct (Hs n Hn) as [c [Hc Hstart]].
        exists c. split; [|assumption]. unfold frontier in Hc.
        destruct (currentNoteStart st =? -1)%Z; lia.
      * apply (push_starts i); [assumption | assumption | lia].
    + destruct (pushIfStable_cases st i (8 # 10)) as [-> | ->];
        [assumption | now apply (push_sorted i)].
  - destruct (currentNoteStart st =? -1)%Z eqn:E.
    + apply Z.eqb_eq in E.
      split; cbn [currentNoteStart notes]; [lia | | assumption].
      intros n Hn. destruct (Hs n Hn) as [c [Hc Hstart]].
      exists c. split; [|assumption].
      unfold frontier in *. cbn [currentNoteStart].
      rewrite E, Z.eqb_refl in Hc.
      destruct (i =? -1)%Z; lia.
    + apply Z.eqb_neq in E.
      destruct (JSInt.far midiPitch (currentNotePitch st)).
      * split; cbn [currentNoteStart notes]; [lia | |].
        -- unfold frontier. cbn [currentNoteStart].
           destruct (i =? -1)%Z eqn:Ei; [apply Z.eqb_eq in Ei; lia|].
           destruct (pushIfStable_cases st i (85 # 100)) as [-> | ->].
           ++ intros n Hn. destruct (Hs n Hn) as [c [Hc Hstart]].
              exists c. split; [|assumption]. unfold frontier in Hc.
              destruct (currentNoteStart st =? -1)%Z; lia.
           ++ apply (push_starts i); [assumption | assumption | lia].
        -- destruct (pushIfStable_cases st i (85 # 100)) as [-> | ->];
             [assumption | now apply (push_sorted i)].
      * split; cbn [currentNoteStart notes]; [lia | | assumption].
        intros n Hn. destruct (Hs n Hn) as [c [Hc Hstart]].
        exists c. split; [|assumption].
        unfold frontier in *. cbn [currentNoteStart].
        destruct (currentNoteStart st =? -1)%Z; lia.
Qed.

Variable segmentData : list Q.

Lemma sweep_inv count : forall i st,
  (0 <= i)%Z -> Inv i st ->
  exists j, Inv j (sweep sampleRate startTime segmentData count i st).
Proof.
  induction count as [|count IH]; intros i st Hi HI; [now exists i|].
  cbn [sweep]. apply IH.
  - unfold hopSize. lia.
  - now apply step_inv.
Qed.

Lemma rawNotes_sorted :
  Sorted rawByStart (rawNotes sampleRate startTime segmentData).
Proof.
  unfold rawNotes.
  destruct (sweep_inv (frameCount segmentData) 0 initial (Z.le_refl 0)
              inv_initial) as [j HI].
  set (st := sweep _ _ _ _ _ _) in *.
  unfold closeFinal.
  destruct (negb (currentNoteStart st =? -1)%Z && (4 <? framesInNote st)%Z)
    eqn:E; [|apply HI].
  apply andb_true_iff in E as [E _]. apply negb_true_iff, Z.eqb_neq in E.
  now apply (push_sorted j).
Qed.

End Sweep.

(** *** From raw notes to events *)

Lemma mapIdx_sorted l : forall idx,
  Sorted rawByStart l -> Sorted byStart (mapIdx l idx).
Proof.
  induction l as [|n l IH]; intros idx Hl; cbn [mapIdx]; [constructor|].
  inversion Hl as [|? ? Hs Hh]; subst.
  constructor; [now apply IH|].
  destruct l as [|m l]; cbn [mapIdx]; constructor.
  inversion Hh; subst. assumption.
Qed.

Lemma mapIdx_slots l : forall idx e,
  In e (mapIdx l idx) ->
  exists ms j : Z,
    (idx <= j)%Z
    /\ SlotFacts.slot e = ["evt"%string; "real"%string; pretty ms; pretty j].
Proof.
  induction l as [|n l IH]; intros idx e; cbn [mapIdx In]; [intros []|].
  intros [<- | Hin].
  - exists (Qfloor (start n * 1000)), idx. split; [lia|].
    unfold SlotFacts.slot, toEvent. cbn [id]. apply Ids.fields_evt.
  - destruct (IH _ _ Hin) as [ms [j [Hj Hs]]].
    exists ms, j. split; [lia | assumption].
Qed.

Lemma mapIdx_nodup l : forall idx,
  List.NoDup (map SlotFacts.slot (mapIdx l idx)).
Proof.
  induction l as [|n l IH]; intros idx; cbn [mapIdx map]; [constructor|].
  constructor; [|apply IH].
  intros Hin. apply in_map_iff in Hin as [e [Ee He]].
  destruct (mapIdx_slots _ _ _ He) as [ms [j [Hj Hs]]].
  unfold SlotFacts.slot at 2 in Ee. unfold toEvent in Ee. cbn [id] in Ee.
  rewrite Ids.fields_evt, Hs in Ee.
  apply (f_equal (fun fs => nth 3 fs EmptyString)) in Ee. cbn [nth] in Ee.
  apply (inj pretty) in Ee. lia.
Qed.

End SegmentFacts.

(** C6. One call of either producer returns its events in non-decreasing
    order of [start_time], and no two of them share an identifier. For the
    segmenter the sample rate of the buffer is positive. *)
Theorem C6_sorted_with_distinct_ids :
  (forall videoId startTime endTime,
     Sorted byStart
       (Composer.generateDeterministicNotes videoId startTime endTime)
     /\ List.NoDup
          (map id (Composer.generateDeterministicNotes videoId startTime endTime)))
  /\ (forall audioBuffer startTime duration,
        (0 < Analyzer.bufferRate audioBuffer)%Q ->
        Sorted byStart
          (Analyzer.analyzeAudioSegment audioBuffer startTime duration)
        /\ List.NoDup
             (map id (Analyzer.analyzeAudioSegment audioBuffer startTime duration))).
Proof.
  split.
  - intros videoId startTime endTime. split.
    + apply OrderFacts.sortNotes_sorted.
    + unfold Composer.generateDeterministicNotes.
      apply (Permutation_NoDup
               (l := map id (Composer.generated videoId startTime endTime))).
      * apply Permutation_map. symmetry. apply OrderFacts.sortNotes_perm.
      * apply SlotFacts.NoDup_ids. unfold Composer.generated. cbv zeta.
        apply SlotFacts.barLoop_nodup.
  - intros audioBuffer startTime duration Hrate. split.
    + apply SegmentFacts.mapIdx_sorted.
      now apply SegmentFacts.rawNotes_sorted.
    + apply SlotFacts.NoDup_ids. apply SegmentFacts.mapIdx_nodup.
Qed.

Lemma C6_sorted_with_distinct_ids_witness :
  Sorted byStart
    (Analyzer.analyzeAudioSegment
       (Analyzer.mkBuffer 44100 Signals.tone) 0 1)
  /\ List.NoDup
       (map id (Analyzer.analyzeAudioSegment
                  (Analyzer.mkBuffer 44100 Signals.tone) 0 1)).
Proof.
  apply (proj2 C6_sorted_with_distinct_ids). reflexivity.
Defined.

(** ** The composer: agreement between calls *)

(** The bar that a note of the composer belongs to is the one that its
    identifier carries, as its second field: [bass_<bar>_1],
    [harm_<bar>_<idx>], [mel_<bar>_<beat>_<r>]. *)
Definition barField (n : NoteEvent) : string :=
  nth 1 (Ids.fields "_" (id n)) EmptyString.

Definition ofBar (b : Z) (n : NoteEvent) : bool :=
  String.eqb (barField n) (pretty b).

(** The notes of a call that were pushed by iteration [b] of the bar loop. *)
Definition notesOfBar (b : Z) (l : list NoteEvent) : list NoteEvent :=
  List.filter (ofBar b) l.

Module AgreementFacts.

Import Composer ComposerFacts OrderFacts.
Local Open Scope Q_scope.

(** *** Filtering commutes with the stable sort *)

Lemma insertNote_front x l :
  (forall y, In y l -> byStart x y) -> insertNote x l = x :: l.
Proof.
  destruct l as [|y l]; intros H; cbn [insertNote]; [reflexivity|].
  assert (Hxy : byStart x y) by (apply H; now left).
  apply Qle_bool_iff in Hxy. now rewrite Hxy.
Qed.

Lemma byStart_trans : Relations_1.Transitive byStart.
Proof. intros a b c. unfold byStart. apply Qle_trans. Qed.

Lemma filter_insertNote (f : NoteEvent -> bool) x l :
  StronglySorted byStart l ->
  List.filter f (insertNote x l)
  = if f x then insertNote x (List.filter f l) else List.filter f l.
Proof.
  induction l as [|y l IH]; intros Hl; cbn [insertNote List.filter].
  - destruct (f x); reflexivity.
  - inversion Hl as [|? ? Hs Hall]; subst.
    destruct (Qle_bool (start_time x) (start_time y)) eqn:E.
    + cbn [List.filter]. destruct (f x) eqn:Fx; [|reflexivity].
      rewrite insertNote_front; [reflexivity|].
      apply Qle_bool_iff in E.
      intros z Hz.
      assert (Hz' : In z (y :: l)).
      { destruct (f y); [|now right; apply filter_In in Hz].
        destruct Hz as [<- | Hz]; [now left|].
        right. now apply filter_In in Hz. }
      destruct Hz' as [<- | Hz']; [exact E|].
      rewrite List.Forall_forall in Hall.
      apply Qle_trans with (start_time y); [exact E | now apply Hall].
    + cbn [List.filter]. rewrite IH by assumption.
      destruct (f y) eqn:Fy, (f x) eqn:Fx; try reflexivity.
      cbn [insertNote]. now rewrite E.
Qed.

Lemma filter_sortNotes (f : NoteEvent -> bool) l :
  List.filter f (sortNotes l) = sortNotes (List.filter f l).
Proof.
  induction l as [|x l IH]; cbn [sortNotes fold_right List.filter]; [reflexivity|].
  fold (sortNotes l).
  rewrite filter_insertNote.
  - rewrite IH. destruct (f x); reflexivity.
  - apply Sorted_StronglySorted; [exact byStart_trans|].
    apply sortNotes_sorted.
Qed.

Lemma filter_none {A} (f : A -> bool) l :
  (forall x, In x l -> f x = false) -> List.filter f l = [].
Proof.
  induction l as [|x l IH]; intros H; cbn [List.filter]; [reflexivity|].
  rewrite (H x) by now left.
  apply IH. intros y Hy. apply H. now right.
Qed.

(** *** The bar loop, split in two *)

Section Bars.

Variable P : Params.
Hypothesis HP : WellFormed P.
Variable startTime : Q.

Lemma barLoop_split endTime k : forall m bar st,
  barLoop P startTime endTime (k + m) bar st
  = let '(l1, st1) := barLoop P startTime endTime k bar st in
    let '(l2, st2) :=
      barLoop P startTime endTime m (bar + Z.of_nat k)%Z st1 in
    (l1 ++ l2, st2).
Proof.
  induction k as [|k IH]; intros m bar st.
  - cbn [barLoop Nat.add]. rewrite Z.add_0_r.
    now destruct (barLoop P startTime endTime m bar st).
  - cbn [barLoop Nat.add].
    destruct (genBar P startTime endTime bar st) as [notes st1].
    rewrite IH.
    destruct (barLoop P startTime endTime k (bar + 1) st1) as [l1 st2].
    replace (bar + 1 + Z.of_nat k)%Z with (bar + Z.of_nat (S k))%Z by lia.
    destruct (barLoop P startTime endTime m (bar + Z.of_nat (S k)) st2)
      as [l2 st3].
    now rewrite app_assoc.
Qed.

(** *** A bar that ends inside both windows does not see [endTime] *)

Lemma barEnd_eq bar :
  barEnd P bar == inject_Z bar * BAR_DURATION P + BEAT_DURATION P * 4.
Proof.
  unfold barEnd, BAR_DURATION. rewrite inject_Z_plus. ring.
Qed.

Lemma Qltb_eq a b c : a < b -> a < c -> Qltb a b = Qltb a c.
Proof.
  intros Hb Hc. apply Qltb_true in Hb, Hc. congruence.
Qed.

Lemma inWindow_eq e1 e2 t :
  t < e1 -> t < e2 -> inWindow startTime e1 t = inWindow startTime e2 t.
Proof.
  intros H1 H2. unfold inWindow. now rewrite (Qltb_eq t e1 e2).
Qed.

Section TwoWindows.

Variables e1 e2 : Q.
Variable bar : Z.
Hypothesis H1 : barEnd P bar <= e1.
Hypothesis H2 : barEnd P bar <= e2.
Hypothesis Hstart : startTime < barEnd P bar.

Lemma before_both t : t < barEnd P bar -> t < e1 /\ t < e2.
Proof.
  intros Ht. split; eapply Qlt_le_trans; eassumption.
Qed.

Lemma bassLayer_eq s :
  bassLayer P startTime e1 bar s = bassLayer P startTime e2 bar s.
Proof.
  pose proof (BEAT_pos P HP) as Hbeat.
  pose proof (barEnd_eq bar) as Hend.
  assert (Hbar : inject_Z bar * BAR_DURATION P < barEnd P bar) by lra.
  unfold bassLayer. cbv zeta.
  destruct (before_both _ Hbar) as [Hb1 Hb2].
  destruct (before_both _ Hstart) as [Hs1 Hs2].
  rewrite (Qmax_lt_intro startTime _ e1), (Qmax_lt_intro startTime _ e2)
    by assumption.
  assert (H3 : inject_Z bar * BAR_DURATION P + BEAT_DURATION P * 2
               < barEnd P bar) by lra.
  destruct (before_both _ H3) as [Hc1 Hc2].
  now rewrite (inWindow_eq e1 e2) by assumption.
Qed.

Lemma harmonyNote_eq intensity interval idx :
  (0 <= idx <= 2)%Z ->
  harmonyNote P startTime e1 bar intensity interval idx
  = harmonyNote P startTime e2 bar intensity interval idx.
Proof.
  intros Hidx.
  pose proof (BEAT_lower P HP) as Hbeat.
  pose proof (barEnd_eq bar) as Hend.
  assert (Hi : inject_Z idx <= 2).
  { change 2 with (inject_Z 2). rewrite <- Zle_Qle. lia. }
  assert (H60 : 0 < 60 # 129) by reflexivity.
  assert (H3 : inject_Z bar * BAR_DURATION P + BEAT_DURATION P
               + inject_Z idx * (3 # 100) < barEnd P bar) by lra.
  destruct (before_both _ H3) as [Hc1 Hc2].
  unfold harmonyNote. cbv zeta.
  now rewrite (inWindow_eq e1 e2) by assumption.
Qed.

Lemma harmonyLayer_eq s :
  harmonyLayer P startTime e1 bar s = harmonyLayer P startTime e2 bar s.
Proof.
  unfold harmonyLayer. cbv zeta.
  now rewrite !(harmonyNote_eq (rng s)) by lia.
Qed.

Lemma melodyLoop_eq fuel : forall currentBeat2 s last,
  melodyLoop P startTime e1 fuel bar currentBeat2 s last
  = melodyLoop P startTime e2 fuel bar currentBeat2 s last.
Proof.
  pose proof (BEAT_pos P HP) as Hbeat.
  pose proof (barEnd_eq bar) as Hend.
  induction fuel as [|fuel IH]; intros cb s last; [reflexivity|].
  cbn [melodyLoop].
  destruct (cb <? 8)%Z eqn:Hlt; [|reflexivity].
  apply Z.ltb_lt in Hlt.
  assert (Hcb : inject_Z cb / 2 < 4).
  { apply Qlt_shift_div_r; [reflexivity|].
    change (4 * 2) with (inject_Z 8). now rewrite <- Zlt_Qlt. }
  assert (H3 : inject_Z bar * BAR_DURATION P
               + inject_Z cb / 2 * BEAT_DURATION P < barEnd P bar).
  { rewrite Hend. apply Qplus_lt_r.
    rewrite (Qmult_comm (BEAT_DURATION P) 4).
    now apply Qmult_lt_compat_r. }
  destruct (before_both _ H3) as [Hc1 Hc2].
  rewrite (inWindow_eq e1 e2) by assumption.
  destruct (if (cb =? 0)%Z then (true, (s + 1)%Z)
            else (Qgtb (rng (s + 1)) (3 # 10), (s + 2)%Z)) as [shouldPlay s1].
  destruct (shouldPlay && inWindow _ _ _); now rewrite IH.
Qed.

Lemma genBar_eq st :
  genBar P startTime e1 bar st = genBar P startTime e2 bar st.
Proof.
  destruct st as [s last]. unfold genBar, melodyLayer.
  rewrite bassLayer_eq.
  destruct (bassLayer P startTime e2 bar s) as [bass s1].
  rewrite harmonyLayer_eq.
  destruct (harmonyLayer P startTime e2 bar s1) as [harm s2].
  now rewrite melodyLoop_eq.
Qed.

End TwoWindows.

Lemma barEnd_mono bar bar' : (bar <= bar')%Z -> barEnd P bar <= barEnd P bar'.
Proof.
  intros H. unfold barEnd.
  apply Qmult_le_compat_r.
  - rewrite <- Zle_Qle. lia.
  - apply Qlt_le_weak. now apply BAR_pos.
Qed.

(** The bars up to [b] are generated alike in both calls. *)
Lemma barLoop_eq e1 e2 b count : forall bar st,
  barEnd P b <= e1 -> barEnd P b <= e2 ->
  startTime < barEnd P bar ->
  (bar + Z.of_nat count <= b + 1)%Z ->
  barLoop P startTime e1 count bar st = barLoop P startTime e2 count bar st.
Proof.
  induction count as [|count IH]; intros bar st H1 H2 Hs Hb; [reflexivity|].
  cbn [barLoop].
  assert (Hbar : barEnd P bar <= barEnd P b) by (apply barEnd_mono; lia).
  rewrite (genBar_eq e1 e2 bar); try assumption;
    try (eapply Qle_trans; eassumption).
  destruct (genBar P startTime e2 bar st) as [notes st1].
  rewrite IH; try assumption; [reflexivity | | lia].
  apply Qlt_le_trans with (barEnd P bar); [assumption|].
  apply barEnd_mono. lia.
Qed.

(** *** Notes of other bars carry another index *)

Lemma placed_barField endTime bar n :
  Placement.Placed P startTime endTime bar n -> barField n = pretty bar.
Proof.
  intros [Hid _ _ _ | Hid _ _ | idx _ Hid _ _ | cb r _ Hid _ _];
    unfold barField; rewrite Hid.
  - rewrite (Ids.fields_bass bar "1") by reflexivity. reflexivity.
  - rewrite (Ids.fields_bass bar "3") by reflexivity. reflexivity.
  - rewrite Ids.fields_harm. reflexivity.
  - rewrite Ids.fields_mel. reflexivity.
Qed.

Lemma placed_ofBar endTime bar b n :
  Placement.Placed P startTime endTime bar n -> bar <> b -> ofBar b n = false.
Proof.
  intros Hp Hne. unfold ofBar. rewrite (placed_barField endTime bar n Hp).
  apply String.eqb_neq. intros E. apply Hne. exact (inj pretty _ _ E).
Qed.

Lemma later_bars_dropped endTime b count bar st :
  (b + 1 <= bar)%Z ->
  List.filter (ofBar b) (fst (barLoop P startTime endTime count bar st)) = [].
Proof.
  intros Hb.
  apply filter_none. intros n Hn.
  apply Placement.barLoop_placed in Hn as [bar' [Hbar' Hp]].
  apply (placed_ofBar endTime bar' b n Hp). lia.
Qed.

End Bars.

End AgreementFacts.

(** The notes pushed for bar [b], before the sort, by two calls that start
    at the same time and both end after bar [b]. *)
Lemma generated_agree videoId startTime endA endB b :
  let P := Composer.setup (Composer.seedOf videoId) in
  (barEnd P b <= endA)%Q -> (barEnd P b <= endB)%Q ->
  List.filter (ofBar b) (Composer.generated videoId startTime endA)
  = List.filter (ofBar b) (Composer.generated videoId startTime endB).
Proof.
  intros P HA HB.
  pose proof (ComposerFacts.setup_wf (Composer.seedOf videoId)) as HP.
  fold P in HP.
  pose proof (ComposerFacts.BAR_pos P HP) as Hpos.
  unfold Composer.generated. cbv zeta. fold P.
  set (BAR := Composer.BAR_DURATION P) in *.
  set (startBar := Qfloor (startTime / BAR)).
  set (st0 := (Composer.seedOf videoId + 5, Fin 0)).
  assert (Hne : ~ BAR == 0).
  { intros H0. rewrite H0 in Hpos. now apply Qlt_irrefl in Hpos. }
  assert (Hceil : forall e, (barEnd P b <= e)%Q -> b + 1 <= Qceiling (e / BAR)).
  { intros e He. rewrite <- (Qceiling_Z (b + 1)).
    apply Qceiling_resp_le.
    apply Qle_shift_div_l; [assumption|]. exact He. }
  destruct (Z_le_gt_dec startBar b) as [Hle | Hgt].
  - (* bar b is iterated: split both loops after it *)
    set (k := Z.to_nat (b + 1 - startBar)).
    assert (Hsplit : forall e, (barEnd P b <= e)%Q ->
              Z.to_nat (Qceiling (e / BAR) - startBar)
              = (k + Z.to_nat (Qceiling (e / BAR) - (b + 1)))%nat).
    { intros e He. specialize (Hceil e He). unfold k. lia. }
    rewrite (Hsplit endA HA), (Hsplit endB HB).
    rewrite !AgreementFacts.barLoop_split.
    assert (Hstart : (startTime < barEnd P startBar)%Q).
    { unfold barEnd. fold BAR.
      assert (E : (startTime == startTime / BAR * BAR)%Q) by (now field).
      rewrite E at 1. apply Qmult_lt_compat_r; [assumption|].
      apply Qlt_floor. }
    rewrite (AgreementFacts.barLoop_eq P HP startTime endA endB b k
               startBar st0 HA HB Hstart) by (unfold k; lia).
    destruct (Composer.barLoop P startTime endB k startBar st0) as [pre st1].
    pose proof (AgreementFacts.later_bars_dropped P startTime endA b
                  (Z.to_nat (Qceiling (endA / BAR) - (b + 1)))
                  (startBar + Z.of_nat k) st1) as FA.
    pose proof (AgreementFacts.later_bars_dropped P startTime endB b
                  (Z.to_nat (Qceiling (endB / BAR) - (b + 1)))
                  (startBar + Z.of_nat k) st1) as FB.
    destruct (Composer.barLoop P startTime endA _ _ st1) as [restA stA].
    destruct (Composer.barLoop P startTime endB _ _ st1) as [restB stB].
    cbn [fst] in *.
    rewrite !List.filter_app, FA, FB by (unfold k; lia).
    reflexivity.
  - (* both calls start after bar b *)
    rewrite !AgreementFacts.later_bars_dropped by lia.
    reflexivity.
Qed.

(** C1 (as the code has it). Two calls of the composer on the same seed
    that start at the same time, both with a window that is not empty,
    agree on every bar that ends no later than both end times: the notes
    that they return for such a bar (the notes whose identifier carries
    the index of the bar) are the same, in every field. *)
Theorem C1_calls_from_the_same_start_agree :
  forall videoId startTime endA endB b,
    (startTime < endA)%Q -> (startTime < endB)%Q ->
    (barEnd (Composer.setup (Composer.seedOf videoId)) b <= endA)%Q ->
    (barEnd (Composer.setup (Composer.seedOf videoId)) b <= endB)%Q ->
    notesOfBar b (Composer.generateDeterministicNotes videoId startTime endA)
    = notesOfBar b (Composer.generateDeterministicNotes videoId startTime endB).
Proof.
  intros videoId startTime endA endB b _ _ HA HB.
  unfold notesOfBar, Composer.generateDeterministicNotes.
  rewrite !AgreementFacts.filter_sortNotes.
  f_equal. apply generated_agree; assumption.
Qed.

Lemma C1_calls_from_the_same_start_agree_witness :
  notesOfBar 1 (Composer.generateDeterministicNotes "test" 0 5)
  = notesOfBar 1 (Composer.generateDeterministicNotes "test" 0 8).
Proof.
  apply C1_calls_from_the_same_start_agree;
    try reflexivity; vm_compute; discriminate.
Defined.

(** The notes of bar 1 that the two calls of seed "test" from 0 to 5 and
    from 0 to 8 share. *)
Example bar_1_by_index :
  map id (notesOfBar 1 (Composer.generateDeterministicNotes "test" 0 5))
  = ["bass_1_1"; "mel_1_0_73"; "mel_1_1_72"; "bass_1_3"; "mel_1_3_21"]%string.
Proof. vm_compute. reflexivity. Qed.

(** Seed "test", bar 1 (from 40/19 s to 80/19 s), windows [0, 5) and
    [2, 5): both contain the bar, the first call returns five notes in it
    and the second one eight. *)
Lemma C1_counterexample :
  let P := Composer.setup (Composer.seedOf "test") in
  ((0 <= inject_Z 1 * Composer.BAR_DURATION P /\ barEnd P 1 <= 5)
   /\ (2 <= inject_Z 1 * Composer.BAR_DURATION P /\ barEnd P 1 <= 5))%Q
  /\ map content
       (barNotes "test" 1 (Composer.generateDeterministicNotes "test" 0 5))
     <> map content
          (barNotes "test" 1 (Composer.generateDeterministicNotes "test" 2 5)).
Proof.
  split.
  - vm_compute. repeat split; discriminate.
  - intros H. apply (f_equal (@length _)) in H. vm_compute in H.
    discriminate H.
Qed.

(** * Further properties *)

(** ** The composer: seeds, scale and note attributes *)

Module SeedFacts.

Import Composer.

(** The seed is the sum of the character codes. *)
Lemma seedOf_sum videoId :
  seedOf videoId
  = fold_right Z.add 0
      (map (fun c => Z.of_nat (nat_of_ascii c)) (list_ascii_of_string videoId)).
Proof.
  induction videoId as [|c rest IH]; [reflexivity|].
  cbn [seedOf list_ascii_of_string map fold_right]. now rewrite IH.
Qed.

Lemma sum_perm (l l' : list Z) :
  Permutation l l' -> fold_right Z.add 0 l = fold_right Z.add 0 l'.
Proof.
  induction 1; cbn [fold_right]; lia.
Qed.

Lemma seedOf_perm a b :
  Permutation (list_ascii_of_string a) (list_ascii_of_string b) ->
  seedOf a = seedOf b.
Proof.
  intros H. rewrite !seedOf_sum. apply sum_perm. now apply Permutation_map.
Qed.

End SeedFacts.

(** X1. Two video identifiers made of the same characters in a different
    order give the same composition for every window: the seed is the sum
    of the character codes, and nothing else of the identifier is used. *)
Theorem X1_anagrams_compose_alike :
  forall a b startTime endTime,
    Permutation (list_ascii_of_string a) (list_ascii_of_string b) ->
    Composer.generateDeterministicNotes a startTime endTime
    = Composer.generateDeterministicNotes b startTime endTime.
Proof.
  intros a b startTime endTime H.
  unfold Composer.generateDeterministicNotes, Composer.generated.
  now rewrite (SeedFacts.seedOf_perm a b H).
Qed.

Lemma X1_anagrams_compose_alike_witness :
  Composer.generateDeterministicNotes "dQw4" 0 30
  = Composer.generateDeterministicNotes "4wQd" 0 30.
Proof.
  apply X1_anagrams_compose_alike.
  apply (Permutation_rev (list_ascii_of_string "dQw4")).
Defined.

(** X2. In [getMidiPitch] a scale degree seven steps higher sounds exactly
    twelve semitones higher, for negative degrees as well, and so does the
    same degree with the octave offset raised by one. *)
Theorem X2_degrees_repeat_at_the_octave :
  forall P d octaveOffset,
    Composer.getMidiPitch P (Fin (d + 7)) octaveOffset
    = JSInt.add (Composer.getMidiPitch P (Fin d) octaveOffset) 12
    /\ Composer.getMidiPitch P (Fin d) (octaveOffset + 1)
       = JSInt.add (Composer.getMidiPitch P (Fin d) octaveOffset) 12.
Proof.
  intros P d o. rewrite !PitchFacts.getMidiPitch_Fin. cbn [JSInt.add].
  pose proof (PitchFacts.pitchOf_octave P d 1) as H.
  replace (d + 7 * 1) with (d + 7) in H by lia.
  split; f_equal; lia.
Qed.

(** X3. Whatever the identifier, the tempo is between 80 and 129 beats per
    minute, so that a bar lasts between 240/129 (about 1.86) and 3 seconds;
    the root is between MIDI 58 and 69, and the progression is one of the
    four of the table. *)
Theorem X3_tempo_and_key_ranges :
  forall videoId,
    let P := Composer.setup (Composer.seedOf videoId) in
    80 <= Composer.BPM P <= 129
    /\ 58 <= Composer.rootNote P <= 69
    /\ In (Composer.progression P) Composer.PROGRESSIONS
    /\ (240 # 129 <= Composer.BAR_DURATION P)%Q
    /\ (Composer.BAR_DURATION P <= 3)%Q.
Proof.
  intros videoId P.
  pose proof (ComposerFacts.setup_wf (Composer.seedOf videoId)) as HP.
  fold P in HP. destruct HP as [Hb Hr Hp].
  split; [exact Hb|]. split; [exact Hr|]. split; [exact Hp|].
  unfold Composer.BAR_DURATION, Composer.BEAT_DURATION.
  assert (H0 : (0 < inject_Z (Composer.BPM P))%Q).
  { change 0%Q with (inject_Z 0). rewrite <- Zlt_Qlt. lia. }
  assert (H1 : (inject_Z 80 <= inject_Z (Composer.BPM P))%Q)
    by (rewrite <- Zle_Qle; lia).
  assert (H2 : (inject_Z (Composer.BPM P) <= inject_Z 129)%Q)
    by (rewrite <- Zle_Qle; lia).
  change (inject_Z 80) with 80%Q in H1.
  change (inject_Z 129) with 129%Q in H2.
  set (b := inject_Z (Composer.BPM P)) in *.
  assert (E : (60 / b * 4 == 240 / b)%Q).
  { field. intros Hz. rewrite Hz in H0. now apply Qlt_irrefl in H0. }
  rewrite E. split.
  - apply Qle_shift_div_l; [assumption|]. lra.
  - apply Qle_shift_div_r; [assumption|]. lra.
Qed.

Module AttributeFacts.

Import Composer ComposerFacts.
Local Open Scope Q_scope.

Section Bars.

Variable P : Params.
Variables startTime endTime : Q.

(** Durations in beats, loudness and certainty of a pushed note. *)
Definition Shaped (n : NoteEvent) : Prop :=
  (45 # 100) * BEAT_DURATION P <= duration n
  /\ duration n <= 2 * BEAT_DURATION P
  /\ 4 # 10 <= velocity n /\ velocity n <= 9 # 10
  /\ 85 # 100 <= confidence n /\ confidence n <= 98 # 100.

Hypothesis Hbeat : 0 < BEAT_DURATION P.

Lemma bassLayer_shaped bar s :
  Forall Shaped (fst (bassLayer P startTime endTime bar s)).
Proof.
  unfold bassLayer. cbv zeta.
  destruct (Qltb _ endTime); [|constructor].
  assert (H1 : forall i t p,
             Shaped (mkNote i t (BEAT_DURATION P * (12 # 10)) p
                       (85 # 100) (98 # 100))).
  { intros. unfold Shaped. cbn [duration velocity confidence].
    repeat split; lra. }
  destruct (Qgtb (rng s) (4 # 10)); [|repeat constructor; apply H1].
  destruct (inWindow _ _ _); [|repeat constructor; apply H1].
  cbn [fst]. constructor; [apply H1|]. constructor; [|constructor].
  unfold Shaped. cbn [duration velocity confidence]. repeat split; lra.
Qed.

Lemma harmonyNote_shaped bar intensity interval idx :
  0 <= intensity -> intensity < 1 ->
  Forall Shaped (harmonyNote P startTime endTime bar intensity interval idx).
Proof.
  intros H0 H1. unfold harmonyNote. cbv zeta.
  destruct (inWindow _ _ _); [|constructor].
  constructor; [|constructor].
  unfold Shaped. cbn [duration velocity confidence]. repeat split; lra.
Qed.

Lemma harmonyLayer_shaped bar s :
  Forall Shaped (fst (harmonyLayer P startTime endTime bar s)).
Proof.
  unfold harmonyLayer. cbv zeta.
  destruct (rng_range s) as [H0 H1].
  destruct (Qgtb (rng s) (3 # 10)); [|constructor].
  cbn [fst]. repeat apply Forall_app_2; now apply harmonyNote_shaped.
Qed.

Lemma melodyLoop_shaped bar fuel : forall currentBeat2 s last,
  Forall Shaped
    (fst (melodyLoop P startTime endTime fuel bar currentBeat2 s last)).
Proof.
  induction fuel as [|fuel IH]; intros cb s last; [constructor|].
  cbn [melodyLoop].
  destruct (cb <? 8)%Z; [|constructor].
  pose proof (Placement.rhythm_cases (rng s)) as Hr.
  destruct (if (cb =? 0)%Z then (true, (s + 1)%Z)
            else (Qgtb (rng (s + 1)) (3 # 10), (s + 2)%Z)) as [shouldPlay s1].
  destruct (shouldPlay && inWindow _ _ _); [|apply IH].
  match goal with
  | |- context [melodyLoop _ _ _ fuel bar ?cb' ?s' ?l'] =>
      specialize (IH cb' s' l');
      destruct (melodyLoop P startTime endTime fuel bar cb' s' l')
        as [rest final]
  end.
  cbn [fst] in *. constructor; [|exact IH].
  unfold Shaped. cbn [duration velocity confidence].
  assert (Hv : 4 # 10 <= (if (Z.rem cb 4 =? 0)%Z then 9 # 10 else 7 # 10)
               /\ (if (Z.rem cb 4 =? 0)%Z then 9 # 10 else 7 # 10) <= 9 # 10)
    by (destruct (Z.rem cb 4 =? 0)%Z; split; lra).
  destruct Hv as [Hv1 Hv2].
  destruct Hr as [-> | [-> | ->]];
    repeat split; try assumption; try lra;
    change (inject_Z 1 / 2) with (1 # 2);
    change (inject_Z 2 / 2) with (2 # 2);
    change (inject_Z 4 / 2) with (4 # 2); lra.
Qed.

Lemma genBar_shaped bar st :
  Forall Shaped (fst (genBar P startTime endTime bar st)).
Proof.
  destruct st as [s last]. unfold genBar.
  pose proof (bassLayer_shaped bar s) as Hb.
  destruct (bassLayer P startTime endTime bar s) as [bass s1].
  pose proof (harmonyLayer_shaped bar s1) as Hh.
  destruct (harmonyLayer P startTime endTime bar s1) as [harm s2].
  pose proof (melodyLoop_shaped bar 8 0 s2 last) as Hm.
  unfold melodyLayer.
  destruct (melodyLoop P startTime endTime 8 bar 0 s2 last) as [mel st'].
  cbn [fst] in *. repeat apply Forall_app_2; assumption.
Qed.

Lemma barLoop_shaped count : forall bar st,
  Forall Shaped (fst (barLoop P startTime endTime count bar st)).
Proof.
  induction count as [|count IH]; intros bar st; [constructor|].
  cbn [barLoop].
  pose proof (genBar_shaped bar st) as Hg.
  destruct (genBar P startTime endTime bar st) as [notes st1].
  specialize (IH (bar + 1)%Z st1).
  destruct (barLoop P startTime endTime count (bar + 1) st1) as [rest st2].
  cbn [fst] in *. now apply Forall_app_2.
Qed.

(** *** The melody of one bar *)

(** A note has ended when the next one starts. *)
Definition endsBefore (a b : NoteEvent) : Prop :=
  start_time a + duration a < start_time b.

Definition beatTime (bar currentBeat2 : Z) : Q :=
  inject_Z bar * BAR_DURATION P + (inject_Z currentBeat2 / 2) * BEAT_DURATION P.

Lemma beatTime_mono bar a b :
  (a <= b)%Z -> beatTime bar a <= beatTime bar b.
Proof.
  intros H. unfold beatTime. apply Qplus_le_r.
  apply Qmult_le_compat_r; [|now apply Qlt_le_weak].
  apply Qmult_le_compat_r; [now rewrite <- Zle_Qle | discriminate].
Qed.

Lemma melodyLoop_monophonic bar fuel : forall currentBeat2 s last,
  Sorted endsBefore
    (fst (melodyLoop P startTime endTime fuel bar currentBeat2 s last))
  /\ Forall (fun n => beatTime bar currentBeat2 <= start_time n)
       (fst (melodyLoop P startTime endTime fuel bar currentBeat2 s last)).
Proof.
  induction fuel as [|fuel IH]; intros cb s last;
    [split; constructor|].
  cbn [melodyLoop].
  destruct (cb <? 8)%Z; [|split; constructor].
  pose proof (Placement.rhythm_cases (rng s)) as Hr.
  assert (Hd : (1 <= rhythm (rng s))%Z) by lia.
  destruct (if (cb =? 0)%Z then (true, (s + 1)%Z)
            else (Qgtb (rng (s + 1)) (3 # 10), (s + 2)%Z)) as [shouldPlay s1].
  assert (Hweak : forall l,
             Forall (fun n => beatTime bar (cb + rhythm (rng s)) <= start_time n) l ->
             Forall (fun n => beatTime bar cb <= start_time n) l).
  { intros l. apply List.Forall_impl. intros n Hn.
    apply Qle_trans with (beatTime bar (cb + rhythm (rng s))); [|exact Hn].
    apply beatTime_mono. lia. }
  destruct (shouldPlay && inWindow _ _ _).
  - match goal with
    | |- context [melodyLoop _ _ _ fuel bar ?cb' ?s' ?l'] =>
        specialize (IH cb' s' l');
        destruct (melodyLoop P startTime endTime fuel bar cb' s' l')
          as [rest final]
    end.
    cbn [fst] in *. destruct IH as [IHs IHf].
    split.
    + constructor; [exact IHs|].
      destruct rest as [|m rest]; constructor.
      inversion IHf as [|? ? Hm _]; subst.
      unfold endsBefore. cbn [start_time duration].
      apply Qlt_le_trans with (beatTime bar (cb + rhythm (rng s)));
        [|exact Hm].
      unfold beatTime. rewrite inject_Z_plus.
      set (d := inject_Z (rhythm (rng s))).
      assert (Hd' : 1 <= d).
      { unfold d. change 1 with (inject_Z 1). now rewrite <- Zle_Qle. }
      set (B := BEAT_DURATION P) in *.
      set (c := inject_Z cb).
      set (S0 := inject_Z bar * BAR_DURATION P).
      assert (E : S0 + (c + d) / 2 * B - (S0 + c / 2 * B + d / 2 * B * (9 # 10))
                  == (1 # 20) * (d * B)) by (field).
      assert (Hpos : 0 < d * B).
      { apply Qmult_lt_0_compat; [lra | assumption]. }
      lra.
    + constructor; [|now apply Hweak].
      cbn [start_time]. unfold beatTime. apply Qle_refl.
  - destruct (IH (cb + rhythm (rng s))%Z s1 last) as [IHs IHf].
    split; [exact IHs | now apply Hweak].
Qed.

End Bars.

End AttributeFacts.

(** X4. Every note that the composer returns lasts more than 0.2 and at
    most 1.5 seconds, has a velocity between 0.4 and 0.9 and a confidence
    between 0.85 and 0.98. *)
Theorem X4_composed_note_attributes :
  forall videoId startTime endTime n,
    In n (Composer.generateDeterministicNotes videoId startTime endTime) ->
    (1 # 5 < duration n /\ duration n <= 3 # 2
     /\ 4 # 10 <= velocity n /\ velocity n <= 9 # 10
     /\ 85 # 100 <= confidence n /\ confidence n <= 98 # 100)%Q.
Proof.
  intros videoId startTime endTime n Hin.
  unfold Composer.generateDeterministicNotes in Hin.
  apply (proj1 (SortFacts.In_sortNotes _ _)) in Hin.
  unfold Composer.generated in Hin. cbv zeta in Hin.
  pose proof (ComposerFacts.setup_wf (Composer.seedOf videoId)) as HP.
  set (P := Composer.setup (Composer.seedOf videoId)) in *.
  pose proof (ComposerFacts.BEAT_pos P HP) as Hpos.
  pose proof (ComposerFacts.BEAT_lower P HP) as Hlow.
  assert (Hup : (Composer.BEAT_DURATION P <= 3 # 4)%Q).
  { destruct HP as [Hb _ _]. unfold Composer.BEAT_DURATION.
    assert (H0 : (0 < inject_Z (Composer.BPM P))%Q).
    { change 0%Q with (inject_Z 0). rewrite <- Zlt_Qlt. lia. }
    assert (H1 : (inject_Z 80 <= inject_Z (Composer.BPM P))%Q)
      by (rewrite <- Zle_Qle; lia).
    change (inject_Z 80) with 80%Q in H1.
    apply Qle_shift_div_r; [assumption|]. lra. }
  match type of Hin with In n (fst (Composer.barLoop _ _ _ ?c ?b ?st)) =>
    pose proof (AttributeFacts.barLoop_shaped P startTime endTime Hpos c b st)
      as Hall
  end.
  rewrite List.Forall_forall in Hall.
  destruct (Hall n Hin) as [H1 [H2 [H3 [H4 [H5 H6]]]]].
  repeat split; try assumption; lra.
Qed.

Lemma X4_composed_note_attributes_witness :
  let n := nth 0 (Composer.generateDeterministicNotes "test" 0 4)
             (mkNote "" 0 0 NaN 0 0) in
  (1 # 5 < duration n /\ duration n <= 3 # 2
   /\ 4 # 10 <= velocity n /\ velocity n <= 9 # 10
   /\ 85 # 100 <= confidence n /\ confidence n <= 98 # 100)%Q.
Proof.
  apply (X4_composed_note_attributes "test" 0%Q 4%Q).
  vm_compute. left. reflexivity.
Defined.

(** X5. The melody of one bar is monophonic: in the order in which the
    melody loop pushes them, every note has ended (its articulation gap
    included) when the next one starts. *)
Theorem X5_melody_of_a_bar_is_monophonic :
  forall videoId startTime endTime bar s lastMelodyDegree,
    let P := Composer.setup (Composer.seedOf videoId) in
    Sorted (fun a b => (start_time a + duration a < start_time b)%Q)
      (fst (Composer.melodyLayer P startTime endTime bar s lastMelodyDegree)).
Proof.
  intros videoId startTime endTime bar s last P.
  pose proof (ComposerFacts.setup_wf (Composer.seedOf videoId)) as HP.
  fold P in HP.
  pose proof (ComposerFacts.BEAT_pos P HP) as Hpos.
  unfold Composer.melodyLayer.
  apply (AttributeFacts.melodyLoop_monophonic P startTime endTime Hpos).
Qed.

(** ** The segmenter: how long notes last and where they lie *)

Module TimingFacts.

Import Analyzer OrderFacts.
Local Open Scope Q_scope.

Section Sweep.

Variables sampleRate startTime : Q.
Hypothesis Hrate : 0 < sampleRate.

(** A collected note covers the samples from [c] to [e], at least five
    hops, and ends at or before [limit]. *)
Definition Spans (limit : Z) (n : RawNote) : Prop :=
  exists c e : Z,
    start n = startTime + inject_Z c / sampleRate
    /\ rawDuration n = inject_Z (e - c) / sampleRate
    /\ (0 <= c)%Z /\ (c + 5 * hopSize <= e)%Z /\ (e <= limit)%Z.

(** A note has ended when the next one starts. *)
Definition follows (a b : RawNote) : Prop :=
  start a + rawDuration a <= start b.

Lemma spans_weaken limit limit' n :
  (limit <= limit')%Z -> Spans limit n -> Spans limit' n.
Proof.
  intros H [c [e [H1 [H2 [H3 [H4 H5]]]]]].
  exists c, e. repeat split; try assumption; lia.
Qed.

Lemma spans_end limit n :
  Spans limit n ->
  start n + rawDuration n <= startTime + inject_Z limit / sampleRate.
Proof.
  intros [c [e [H1 [H2 [H3 [H4 H5]]]]]]. rewrite H1, H2.
  assert (E : startTime + inject_Z c / sampleRate
              + inject_Z (e - c) / sampleRate
              == startTime + inject_Z e / sampleRate).
  { unfold Zminus. rewrite inject_Z_plus, inject_Z_opp. field.
    intros Hz. rewrite Hz in Hrate. now apply Qlt_irrefl in Hrate. }
  rewrite E. apply Qplus_le_r.
  apply Qmult_le_compat_r; [now rewrite <- Zle_Qle|].
  apply Qlt_le_weak. now apply Qinv_lt_0_compat.
Qed.

Record Timing (i : Z) (st : Sweep) : Prop := {
  timing_open :
    currentNoteStart st = (-1)%Z
    \/ (0 <= currentNoteStart st /\ 1 <= framesInNote st
        /\ currentNoteStart st + hopSize * framesInNote st <= i)%Z;
  timing_spans : Forall (Spans (SegmentFacts.frontier i st)) (notes st);
  timing_sorted : Sorted follows (notes st)
}.

Lemma timing_initial : Timing 0 initial.
Proof. split; cbn [initial currentNoteStart notes]; [now left | | ]; constructor. Qed.

(** Closing the open note at [closeAt], once it has more than four
    frames. *)
Lemma push_timing i st closeAt conf limit :
  Timing i st -> currentNoteStart st <> (-1)%Z ->
  (i <= closeAt)%Z -> (closeAt <= limit)%Z ->
  (4 < framesInNote st)%Z ->
  Forall (Spans limit)
    (notes st ++ [closing sampleRate startTime st closeAt conf])
  /\ Sorted follows
       (notes st ++ [closing sampleRate startTime st closeAt conf]).
Proof.
  intros [Ho Hs Hsort] Hne Hi Hl Hf.
  assert (Hopen : (0 <= currentNoteStart st /\ 1 <= framesInNote st
                   /\ currentNoteStart st + hopSize * framesInNote st <= i)%Z)
    by tauto.
  assert (Hfront : SegmentFacts.frontier i st = currentNoteStart st).
  { unfold SegmentFacts.frontier.
    destruct (currentNoteStart st =? -1)%Z eqn:E;
      [apply Z.eqb_eq in E; contradiction | reflexivity]. }
  rewrite Hfront in Hs.
  unfold hopSize in *.
  split.
  - apply Forall_app_2.
    + revert Hs. apply List.Forall_impl. intros n. apply spans_weaken. lia.
    + constructor; [|constructor].
      exists (currentNoteStart st), closeAt. cbn [closing start rawDuration].
      repeat split; try reflexivity; unfold hopSize; lia.
  - apply Sorted_snoc; [assumption|].
    intros n Hn. rewrite List.Forall_forall in Hs.
    unfold follows. cbn [closing start].
    now apply spans_end, Hs.
Qed.

Lemma step_timing i frame st :
  (0 <= i)%Z -> Timing i st ->
  Timing (i + hopSize) (step sampleRate startTime i frame st).
Proof.
  intros Hi HT. pose proof HT as [Ho Hs Hsort].
  assert (Hhop : hopSize = 1024%Z) by reflexivity.
  assert (Hfr : (SegmentFacts.frontier i st <= i)%Z).
  { unfold SegmentFacts.frontier.
    destruct (currentNoteStart st =? -1)%Z eqn:E; [lia|].
    apply Z.eqb_neq in E. nia. }
  assert (Hfr' : forall st', (currentNoteStart st' = (-1)%Z \/ currentNoteStart st' = i
                              \/ currentNoteStart st' = currentNoteStart st) ->
                 (SegmentFacts.frontier i st
                  <= SegmentFacts.frontier (i + hopSize) st')%Z).
  { intros st' H. unfold SegmentFacts.frontier.
    destruct (currentNoteStart st' =? -1)%Z eqn:E'.
    - destruct (currentNoteStart st =? -1)%Z; lia.
    - apply Z.eqb_neq in E'.
      destruct H as [H | [H | H]]; [contradiction | |]; rewrite H.
      + destruct (currentNoteStart st =? -1)%Z eqn:E; [lia|].
        apply Z.eqb_neq in E. nia.
      + destruct (currentNoteStart st =? -1)%Z eqn:E; [|lia].
        apply Z.eqb_eq in E. congruence. }
  assert (Hkeep : Timing (i + hopSize) st).
  { split; [lia | | assumption].
    revert Hs. apply List.Forall_impl. intros n. apply spans_weaken.
    apply Hfr'. tauto. }
  destruct frame as [| | midiPitch]; cbn [step]; [| exact Hkeep |].
  - destruct (currentNoteStart st =? -1)%Z eqn:E; [exact Hkeep|].
    apply Z.eqb_neq in E.
    unfold pushIfStable.
    destruct (4 <? framesInNote st)%Z eqn:F.
    + apply Z.ltb_lt in F.
      destruct (push_timing i st i (8 # 10) (i + hopSize) HT E) as [H1 H2];
        [lia | lia | assumption|].
      split; cbn [currentNoteStart notes]; [now left | | exact H2].
      unfold SegmentFacts.frontier. cbn [currentNoteStart].
      rewrite Z.eqb_refl. exact H1.
    + split; cbn [currentNoteStart notes]; [now left | | assumption].
      revert Hs. apply List.Forall_impl. intros n. apply spans_weaken.
      apply Hfr'. cbn [currentNoteStart]. tauto.
  - destruct (currentNoteStart st =? -1)%Z eqn:E.
    + split; cbn [currentNoteStart framesInNote notes];
        [right; lia | | assumption].
      revert Hs. apply List.Forall_impl. intros n. apply spans_weaken.
      apply Hfr'. cbn [currentNoteStart]. tauto.
    + apply Z.eqb_neq in E.
      destruct (JSInt.far midiPitch (currentNotePitch st)).
      * unfold pushIfStable.
        assert (Hnew : SegmentFacts.frontier (i + hopSize)
                         {| currentNoteStart := i;
                            currentNotePitch := midiPitch;
                            framesInNote := 1;
                            notes := notes st |} = i).
        { unfold SegmentFacts.frontier. cbn [currentNoteStart].
          destruct (i =? -1)%Z eqn:Ei; [apply Z.eqb_eq in Ei; lia|].
          reflexivity. }
        destruct (4 <? framesInNote st)%Z eqn:F.
        -- apply Z.ltb_lt in F.
           destruct (push_timing i st i (85 # 100) i HT E) as [H1 H2];
             [lia | lia | assumption|].
           split; cbn [currentNoteStart framesInNote notes];
             [right; lia | | exact H2].
           unfold SegmentFacts.frontier in *. cbn [currentNoteStart] in *.
           destruct (i =? -1)%Z eqn:Ei; [apply Z.eqb_eq in Ei; lia|].
           exact H1.
        -- split; cbn [currentNoteStart framesInNote notes];
             [right; lia | | assumption].
           revert Hs. apply List.Forall_impl. intros n. apply spans_weaken.
           apply Hfr'. cbn [currentNoteStart]. tauto.
      * split; cbn [currentNoteStart framesInNote notes];
          [right; lia | | assumption].
        revert Hs. apply List.Forall_impl. intros n. apply spans_weaken.
        apply Hfr'. cbn [currentNoteStart]. tauto.
Qed.

Variable segmentData : list Q.

Lemma sweep_timing count : forall i st,
  (0 <= i)%Z -> Timing i st ->
  Timing (i + hopSize * Z.of_nat count)
    (sweep sampleRate startTime segmentData count i st).
Proof.
  induction count as [|count IH]; intros i st Hi HT.
  - replace (i + hopSize * Z.of_nat 0)%Z with i by lia. exact HT.
  - cbn [sweep].
    replace (i + hopSize * Z.of_nat (S count))%Z
      with (i + hopSize + hopSize * Z.of_nat count)%Z by lia.
    apply IH; [unfold hopSize; lia | now apply step_timing].
Qed.

(** The sweep stops before the end of the segment. *)
Lemma frameCount_end :
  (hopSize * Z.of_nat (frameCount segmentData)
   <= Z.of_nat (length segmentData))%Z.
Proof.
  unfold frameCount, hopSize, windowSize.
  set (len := Z.of_nat (length segmentData)).
  assert (0 <= len)%Z by (unfold len; lia).
  set (q := ((len - 2048 + 1024 - 1) / 1024)%Z).
  assert (Hq : (q * 1024 <= len - 1025)%Z)
    by (unfold q; Z.div_mod_to_equations; lia).
  lia.
Qed.

Lemma rawNotes_timing :
  Forall (Spans (Z.of_nat (length segmentData)))
    (rawNotes sampleRate startTime segmentData)
  /\ Sorted follows (rawNotes sampleRate startTime segmentData).
Proof.
  unfold rawNotes.
  pose proof (sweep_timing (frameCount segmentData) 0 initial (Z.le_refl 0)
                timing_initial) as HT.
  pose proof frameCount_end as Hend.
  rewrite Z.add_0_l in HT.
  set (j := (hopSize * Z.of_nat (frameCount segmentData))%Z) in *.
  set (st := sweep _ _ _ _ _ _) in *.
  unfold closeFinal.
  destruct (negb (currentNoteStart st =? -1)%Z && (4 <? framesInNote st)%Z)
    eqn:E.
  - apply andb_true_iff in E as [E F].
    apply negb_true_iff, Z.eqb_neq in E. apply Z.ltb_lt in F.
    apply (push_timing j); [assumption | assumption | lia | lia | assumption].
  - destruct HT as [Ho Hs Hsort]. split; [|assumption].
    revert Hs. apply List.Forall_impl. intros n. apply spans_weaken.
    unfold SegmentFacts.frontier.
    destruct (currentNoteStart st =? -1)%Z eqn:E'; [lia|].
    apply Z.eqb_neq in E'. unfold hopSize in *. nia.
Qed.

End Sweep.

(** *** From raw notes to events *)

Lemma mapIdx_In l : forall idx e,
  In e (mapIdx l idx) -> exists n j, In n l /\ e = toEvent n j.
Proof.
  induction l as [|n l IH]; intros idx e; cbn [mapIdx In]; [intros []|].
  intros [<- | H].
  - exists n, idx. split; [now left | reflexivity].
  - destruct (IH _ _ H) as [m [j [Hm He]]].
    exists m, j. split; [now right | assumption].
Qed.

Lemma mapIdx_follows (R : NoteEvent -> NoteEvent -> Prop)
  (Q0 : RawNote -> RawNote -> Prop) l :
  (forall a b i j, In a l -> In b l -> Q0 a b -> R (toEvent a i) (toEvent b j)) ->
  forall idx, Sorted Q0 l -> Sorted R (mapIdx l idx).
Proof.
  induction l as [|n l IH]; intros HR idx Hl; cbn [mapIdx]; [constructor|].
  inversion Hl as [|? ? Hs Hh]; subst.
  constructor.
  - apply IH; [|assumption].
    intros a b i j Ha Hb. apply HR; now right.
  - destruct l as [|m l]; cbn [mapIdx]; constructor.
    inversion Hh; subst. apply HR; [now left | right; now left | assumption].
Qed.

(** The length of the analysed segment, for a range that starts at a
    non-negative time and does not run backwards. *)
Lemma segment_length audioBuffer startTime duration :
  0 < bufferRate audioBuffer -> 0 <= startTime -> 0 <= duration ->
  inject_Z (Z.of_nat (length (segmentOf audioBuffer startTime duration)))
  < duration * bufferRate audioBuffer + 1.
Proof.
  intros Hrate Hs Hd. unfold segmentOf. cbv zeta.
  set (rate := bufferRate audioBuffer) in *.
  set (data := channelData audioBuffer).
  set (a := Qfloor (startTime * rate)).
  set (b := Qfloor ((startTime + duration) * rate)).
  assert (Ha : (0 <= a)%Z).
  { change 0%Z with (Qfloor 0). apply Qfloor_resp_le.
    apply Qmult_le_0_compat; [assumption | now apply Qlt_le_weak]. }
  assert (Hab : (a <= b)%Z).
  { apply Qfloor_resp_le. apply Qmult_le_compat_r; [lra|].
    now apply Qlt_le_weak. }
  assert (Hlen : (Z.of_nat (length (jsSlice data (Z.max 0 a)
                                      (Z.min (Z.of_nat (length data)) b)))
                  <= b - a)%Z).
  { unfold jsSlice. cbv zeta.
    set (len := Z.of_nat (length data)).
    assert (0 <= len)%Z by (unfold len; lia).
    destruct (Z.max 0 a <? 0)%Z eqn:Ea; [apply Z.ltb_lt in Ea; lia|].
    destruct (Z.min len b <? 0)%Z eqn:Eb; [apply Z.ltb_lt in Eb; lia|].
    rewrite length_firstn. lia. }
  apply Qle_lt_trans with (inject_Z (b - a)); [now rewrite <- Zle_Qle|].
  unfold Zminus. rewrite inject_Z_plus, inject_Z_opp.
  pose proof (Qfloor_le ((startTime + duration) * rate)) as H1.
  pose proof (Qlt_floor (startTime * rate)) as H2.
  fold a in H2. fold b in H1. rewrite inject_Z_plus in H2.
  change (inject_Z 1) with 1 in H2.
  assert (E : (startTime + duration) * rate - startTime * rate
              == duration * rate) by ring.
  lra.
Qed.

End TimingFacts.

(** X6. For a positive sample rate every note that the segmenter returns
    lasts at least 0.1 s and at least five hops (5120 samples). *)
Theorem X6_analysed_notes_last_five_hops :
  forall audioBuffer startTime duration0 n,
    (0 < Analyzer.bufferRate audioBuffer)%Q ->
    In n (Analyzer.analyzeAudioSegment audioBuffer startTime duration0) ->
    (1 # 10 <= duration n
     /\ 5120 / Analyzer.bufferRate audioBuffer <= duration n)%Q.
Proof.
  intros audioBuffer startTime duration0 n Hrate Hin.
  unfold Analyzer.analyzeAudioSegment in Hin.
  apply TimingFacts.mapIdx_In in Hin as [r [j [Hr ->]]].
  destruct (TimingFacts.rawNotes_timing (Analyzer.bufferRate audioBuffer)
              startTime Hrate
              (Analyzer.segmentOf audioBuffer startTime duration0))
    as [Hall _].
  rewrite List.Forall_forall in Hall.
  destruct (Hall r Hr) as [c [e [_ [Hd [_ [Hce _]]]]]].
  cbn [Analyzer.toEvent duration]. rewrite Hd.
  set (rate := Analyzer.bufferRate audioBuffer) in *.
  assert (Hraw : (5120 / rate <= inject_Z (e - c) / rate)%Q).
  { apply Qmult_le_compat_r.
    - change 5120%Q with (inject_Z 5120). rewrite <- Zle_Qle.
      unfold Analyzer.hopSize in Hce. lia.
    - apply Qlt_le_weak. apply Qinv_lt_0_compat. exact Hrate. }
  unfold Qmax.
  destruct (Qle_bool (1 # 10) (inject_Z (e - c) / rate)) eqn:E.
  - apply Qle_bool_iff in E. split; assumption.
  - split; [apply Qle_refl|].
    assert ((inject_Z (e - c) / rate < 1 # 10)%Q).
    { apply Qnot_le_lt. intros H. apply Qle_bool_iff in H. congruence. }
    lra.
Qed.

Lemma X6_analysed_notes_last_five_hops_witness :
  let n := nth 0 (Analyzer.analyzeAudioSegment
                    (Analyzer.mkBuffer 44100 Signals.tone) 0 1)
             ToneFacts.noNote in
  (1 # 10 <= duration n /\ 5120 / 44100 <= duration n)%Q.
Proof.
  intros n.
  apply (X6_analysed_notes_last_five_hops
           (Analyzer.mkBuffer 44100 Signals.tone) 0%Q 1%Q n);
    [reflexivity | exact ToneFacts.tone_first].
Defined.

(** X7. For a positive sample rate the notes that the segmenter returns
    cover sample ranges of the segment that follow one another without
    overlap: a note opened at sample [c] and closed at sample [e], at
    least five hops later, has the start [startTime + c / sampleRate] and
    the duration [max (0.1, (e - c) / sampleRate)], and the next note of
    the result was opened at a sample [c' >= e]. *)
Theorem X7_analysed_notes_cover_disjoint_samples :
  forall audioBuffer startTime duration0,
    (0 < Analyzer.bufferRate audioBuffer)%Q ->
    Sorted
      (fun a b =>
         exists c e c' : Z,
           (0 <= c /\ c + 5 * Analyzer.hopSize <= e /\ e <= c')
           /\ start_time a
              = (startTime + inject_Z c / Analyzer.bufferRate audioBuffer)%Q
           /\ duration a
              = Qmax (1 # 10)
                  (inject_Z (e - c) / Analyzer.bufferRate audioBuffer)
           /\ start_time b
              = (startTime + inject_Z c' / Analyzer.bufferRate audioBuffer)%Q)
      (Analyzer.analyzeAudioSegment audioBuffer startTime duration0).
Proof.
  intros audioBuffer startTime duration0 Hrate.
  unfold Analyzer.analyzeAudioSegment.
  set (rate := Analyzer.bufferRate audioBuffer) in *.
  destruct (TimingFacts.rawNotes_timing rate startTime Hrate
              (Analyzer.segmentOf audioBuffer startTime duration0))
    as [Hall Hsorted].
  apply (TimingFacts.mapIdx_follows _ (TimingFacts.follows));
    [|exact Hsorted].
  intros a b i j Ha Hb Hab.
  rewrite List.Forall_forall in Hall.
  destruct (Hall a Ha) as [c [e [Hst [Hd [Hc [Hce _]]]]]].
  destruct (Hall b Hb) as [c' [e' [Hst' _]]].
  exists c, e, c'.
  cbn [Analyzer.toEvent start_time duration].
  split; [|split; [exact Hst | split; [rewrite Hd; reflexivity | exact Hst']]].
  split; [exact Hc|]. split; [exact Hce|].
  unfold TimingFacts.follows in Hab. rewrite Hst, Hd, Hst' in Hab.
  assert (Hinv : (0 < / rate)%Q) by (apply Qinv_lt_0_compat; exact Hrate).
  assert (E : (startTime + inject_Z c / rate + inject_Z (e - c) / rate
               == startTime + inject_Z e / rate)%Q).
  { unfold Zminus. rewrite inject_Z_plus, inject_Z_opp. field.
    intros Hz. rewrite Hz in Hrate. exact (Qlt_irrefl _ Hrate). }
  rewrite E in Hab.
  assert (Hle : (inject_Z e / rate <= inject_Z c' / rate)%Q) by lra.
  assert (Hmul : (inject_Z e <= inject_Z c')%Q).
  { apply Qmult_lt_0_le_reg_r with (z := (/ rate)%Q); [exact Hinv|].
    exact Hle. }
  rewrite <- Zle_Qle in Hmul. exact Hmul.
Qed.

Lemma X7_analysed_notes_cover_disjoint_samples_witness :
  Sorted
    (fun a b =>
       exists c e c' : Z,
         (0 <= c /\ c + 5 * Analyzer.hopSize <= e /\ e <= c')
         /\ start_time a = (0 + inject_Z c / 44100)%Q
         /\ duration a = Qmax (1 # 10) (inject_Z (e - c) / 44100)
         /\ start_time b = (0 + inject_Z c' / 44100)%Q)
    (Analyzer.analyzeAudioSegment (Analyzer.mkBuffer 44100 Signals.tone) 0 1).
Proof.
  apply (X7_analysed_notes_cover_disjoint_samples
           (Analyzer.mkBuffer 44100 Signals.tone) 0%Q 1%Q).
  reflexivity.
Defined.

(** X8. For a positive sample rate, a non-negative start and a non-negative
    duration, every note that the segmenter returns starts inside the
    requested range. *)
Theorem X8_analysed_notes_start_in_range :
  forall audioBuffer startTime duration0 n,
    (0 < Analyzer.bufferRate audioBuffer)%Q ->
    (0 <= startTime)%Q -> (0 <= duration0)%Q ->
    In n (Analyzer.analyzeAudioSegment audioBuffer startTime duration0) ->
    (startTime <= start_time n /\ start_time n < startTime + duration0)%Q.
Proof.
  intros audioBuffer startTime duration0 n Hrate Hs Hd Hin.
  unfold Analyzer.analyzeAudioSegment in Hin.
  apply TimingFacts.mapIdx_In in Hin as [r [j [Hr ->]]].
  set (rate := Analyzer.bufferRate audioBuffer) in *.
  destruct (TimingFacts.rawNotes_timing rate startTime Hrate
              (Analyzer.segmentOf audioBuffer startTime duration0))
    as [Hall _].
  rewrite List.Forall_forall in Hall.
  destruct (Hall r Hr) as [c [e [Hst [_ [Hc [Hce He]]]]]].
  pose proof (TimingFacts.segment_length audioBuffer startTime duration0
                Hrate Hs Hd) as Hlen.
  fold rate in Hlen.
  cbn [Analyzer.toEvent start_time]. rewrite Hst.
  assert (Hinv : (0 < / rate)%Q) by (apply Qinv_lt_0_compat; exact Hrate).
  assert (Hc0 : (0 <= inject_Z c / rate)%Q).
  { apply Qmult_le_0_compat; [|apply Qlt_le_weak; exact Hinv].
    change 0%Q with (inject_Z 0). rewrite <- Zle_Qle. exact Hc. }
  split; [lra|].
  assert (Hcd : (inject_Z c < duration0 * rate)%Q).
  { assert (H : (inject_Z (c + 5120)
                 <= inject_Z (Z.of_nat
                      (length (Analyzer.segmentOf audioBuffer startTime
                                 duration0))))%Q).
    { rewrite <- Zle_Qle. unfold Analyzer.hopSize in Hce. lia. }
    rewrite inject_Z_plus in H. change (inject_Z 5120) with 5120%Q in H.
    lra. }
  assert (Hq : (inject_Z c / rate < duration0)%Q).
  { apply Qlt_shift_div_r; assumption. }
  lra.
Qed.

Lemma X8_analysed_notes_start_in_range_witness :
  let n := nth 0 (Analyzer.analyzeAudioSegment
                    (Analyzer.mkBuffer 44100 Signals.tone) 0 1)
             ToneFacts.noNote in
  (0 <= start_time n /\ start_time n < 0 + 1)%Q.
Proof.
  intros n.
  apply (X8_analysed_notes_start_in_range
           (Analyzer.mkBuffer 44100 Signals.tone) 0%Q 1%Q n);
    [reflexivity | discriminate | discriminate | exact ToneFacts.tone_first].
Defined.

(** ** The pitch conversion and the estimator *)

Module ConversionFacts.

Import Analyzer MidiFacts.
Local Open Scope Q_scope.

(** The integer part of the binary logarithm is determined by its
    bounds. *)
Lemma floorLog2_unique x e :
  0 < x -> 2 ^ e <= x -> x < 2 ^ (e + 1) -> floorLog2 x = e.
Proof.
  intros Hx H1 H2. destruct (floorLog2_spec x Hx) as [F1 F2].
  assert (Ha : 2 ^ e < 2 ^ (floorLog2 x + 1))
    by (eapply Qle_lt_trans; eassumption).
  assert (Hb : 2 ^ floorLog2 x < 2 ^ (e + 1))
    by (eapply Qle_lt_trans; eassumption).
  apply Qpower_lt_compat_l_inv in Ha; [|reflexivity].
  apply Qpower_lt_compat_l_inv in Hb; [|reflexivity].
  lia.
Qed.

Lemma floorLog2_mono x y :
  0 < x -> x <= y -> (floorLog2 x <= floorLog2 y)%Z.
Proof.
  intros Hx Hxy.
  assert (Hy : 0 < y) by (eapply Qlt_le_trans; eassumption).
  destruct (floorLog2_spec x Hx) as [F1 _].
  destruct (floorLog2_spec y Hy) as [_ G2].
  assert (H : 2 ^ floorLog2 x < 2 ^ (floorLog2 y + 1)).
  { eapply Qle_lt_trans; [eassumption|].
    eapply Qle_lt_trans; eassumption. }
  apply Qpower_lt_compat_l_inv in H; [|reflexivity]. lia.
Qed.

Lemma power_mono (n : nat) a b :
  0 <= a -> a <= b -> a ^ Z.of_nat n <= b ^ Z.of_nat n.
Proof.
  intros Ha Hab. induction n as [|n IH]; [apply Qle_refl|].
  rewrite Nat2Z.inj_succ. unfold Z.succ.
  rewrite !Qpower_plus' by lia.
  change (a ^ 1) with a. change (b ^ 1) with b.
  apply Qle_trans with (a ^ Z.of_nat n * b).
  - rewrite (Qmult_comm _ a), (Qmult_comm _ b).
    apply Qmult_le_compat_r; [assumption|]. now apply Qpower_0_le.
  - apply Qmult_le_compat_r; [assumption|]. now apply Qle_trans with a.
Qed.

Lemma ratio_pos f : 0 < f -> 0 < (f / 440) ^ 24.
Proof.
  intros Hf. apply Qpower_0_lt. apply Qlt_shift_div_l; [reflexivity|].
  now rewrite Qmult_0_l.
Qed.

Lemma hzToMidi_mono f g :
  0 < f -> f <= g -> (hzToMidi f <= hzToMidi g)%Z.
Proof.
  intros Hf Hfg. unfold hzToMidi.
  assert (H : (floorLog2 ((f / 440) ^ 24) <= floorLog2 ((g / 440) ^ 24))%Z).
  { apply floorLog2_mono; [now apply ratio_pos|].
    apply (power_mono 24).
    - apply Qle_shift_div_l; [reflexivity|]. rewrite Qmult_0_l.
      now apply Qlt_le_weak.
    - apply Qmult_le_compat_r; [assumption | discriminate]. }
  Z.div_mod_to_equations. lia.
Qed.

Lemma hzToMidi_double f : 0 < f -> hzToMidi (2 * f) = (hzToMidi f + 12)%Z.
Proof.
  intros Hf. unfold hzToMidi.
  destruct (floorLog2_spec _ (ratio_pos f Hf)) as [H1 H2].
  set (e := floorLog2 ((f / 440) ^ 24)) in *.
  assert (E : (2 * f / 440) ^ 24 == 2 ^ 24 * (f / 440) ^ 24).
  { rewrite <- Qmult_power. apply Qpower_comp; [|reflexivity]. field. }
  assert (H : floorLog2 ((2 * f / 440) ^ 24) = (e + 24)%Z).
  { apply floorLog2_unique.
    - apply ratio_pos. lra.
    - rewrite E, (Z.add_comm e 24), Qpower_plus by discriminate.
      apply Qmult_le_l; [reflexivity | assumption].
    - rewrite E.
      replace (e + 24 + 1)%Z with (24 + (e + 1))%Z by lia.
      rewrite Qpower_plus by discriminate.
      apply Qmult_lt_l; [reflexivity | assumption]. }
  rewrite H. Z.div_mod_to_equations. lia.
Qed.

End ConversionFacts.

(** X9. The frequency-to-pitch conversion is monotone, and doubling the
    frequency raises the pitch by exactly twelve semitones. *)
Theorem X9_conversion_is_monotone_and_octave_exact :
  forall f g,
    (0 < f)%Q -> (f <= g)%Q ->
    Analyzer.hzToMidi f <= Analyzer.hzToMidi g
    /\ Analyzer.hzToMidi (2 * f) = Analyzer.hzToMidi f + 12.
Proof.
  intros f g Hf Hfg. split.
  - now apply ConversionFacts.hzToMidi_mono.
  - now apply ConversionFacts.hzToMidi_double.
Qed.

Lemma X9_conversion_is_monotone_and_octave_exact_witness :
  Analyzer.hzToMidi 440 <= Analyzer.hzToMidi 441
  /\ Analyzer.hzToMidi (2 * 440) = Analyzer.hzToMidi 440 + 12.
Proof.
  apply X9_conversion_is_monotone_and_octave_exact;
    [reflexivity | discriminate].
Defined.

(** X10. For a positive sample rate the estimator returns the unvoiced
    sentinel, an infinite frequency (lag 0), or a frequency between
    [sampleRate / (SIZE - 2)] and [sampleRate]: the lag is a whole number
    of samples between 1 and [SIZE - 2]. *)
Theorem X10_estimated_frequency_bounds :
  forall buffer sampleRate,
    (0 < sampleRate)%Q ->
    Analyzer.autoCorrelate buffer sampleRate = Analyzer.unvoiced
    \/ Analyzer.autoCorrelate buffer sampleRate = Infinite true
    \/ exists T0,
         1 <= T0 <= Z.of_nat (length buffer) - 2
         /\ Analyzer.autoCorrelate buffer sampleRate
            = Finite (sampleRate / inject_Z T0)
         /\ (sampleRate / inject_Z (Z.of_nat (length buffer) - 2)
             <= sampleRate / inject_Z T0)%Q
         /\ (sampleRate / inject_Z T0 <= sampleRate)%Q.
Proof.
  intros buffer sampleRate Hrate.
  destruct (EstimatorFacts.autoCorrelate_cases buffer sampleRate Hrate)
    as [H | [[_ H] | [Hpos H]]]; [now left | right; now left|].
  right. right. exists (Analyzer.period buffer).
  pose proof (LagFacts.period_upper buffer) as Hup.
  set (T0 := Analyzer.period buffer) in *.
  set (n := Z.of_nat (length buffer)) in *.
  assert (Hn : T0 <= n - 2) by lia.
  assert (HT : (0 < inject_Z T0)%Q).
  { change 0%Q with (inject_Z 0). rewrite <- Zlt_Qlt. lia. }
  assert (HN : (0 < inject_Z (n - 2))%Q).
  { change 0%Q with (inject_Z 0). rewrite <- Zlt_Qlt. lia. }
  assert (H1 : (1 <= inject_Z T0)%Q).
  { change 1%Q with (inject_Z 1). rewrite <- Zle_Qle. lia. }
  assert (H2 : (inject_Z T0 <= inject_Z (n - 2))%Q)
    by (rewrite <- Zle_Qle; lia).
  set (t := inject_Z T0) in *. set (N := inject_Z (n - 2)) in *.
  split; [lia|]. split; [exact H|]. split.
  - apply Qle_shift_div_l; [assumption|].
    assert (E : (sampleRate / N * t == sampleRate * t / N)%Q).
    { field. intros Hz. rewrite Hz in HN. now apply Qlt_irrefl in HN. }
    rewrite E. apply Qle_shift_div_r; [assumption|]. nra.
  - apply Qle_shift_div_r; [assumption|]. nra.
Qed.

Lemma X10_estimated_frequency_bounds_witness :
  Analyzer.autoCorrelate Signals.click 44100 = Analyzer.unvoiced
  \/ Analyzer.autoCorrelate Signals.click 44100 = Infinite true
  \/ exists T0,
       1 <= T0 <= Z.of_nat (length Signals.click) - 2
       /\ Analyzer.autoCorrelate Signals.click 44100
          = Finite (44100 / inject_Z T0)
       /\ (44100 / inject_Z (Z.of_nat (length Signals.click) - 2)
           <= 44100 / inject_Z T0)%Q
       /\ (44100 / inject_Z T0 <= 44100)%Q.
Proof.
  apply X10_estimated_frequency_bounds. reflexivity.
Defined.

(** ** The score: merging the notes of a segment *)

Module ScoreFacts.

Import Score.
Local Open Scope Q_scope.

Lemma hasId_In ids i : hasId ids i = true <-> In i ids.
Proof.
  unfold hasId. rewrite existsb_exists. split.
  - intros [x [Hx E]]. apply String.eqb_eq in E. now subst.
  - intros H. exists i. split; [assumption | apply String.eqb_refl].
Qed.

Lemma hasId_false ids i : hasId ids i = false <-> ~ In i ids.
Proof.
  rewrite <- hasId_In. destruct (hasId ids i); split; congruence.
Qed.

(** Sorting leaves a sorted list as it is. *)
Lemma insertNote_first x l :
  HdRel byStart x l -> insertNote x l = x :: l.
Proof.
  intros H. destruct l as [|y l]; [reflexivity|].
  cbn [insertNote]. inversion H as [|? ? Hxy]; subst.
  unfold byStart in Hxy. apply Qle_bool_iff in Hxy. now rewrite Hxy.
Qed.

Lemma sortNotes_fixed l : Sorted byStart l -> sortNotes l = l.
Proof.
  induction l as [|x l IH]; intros H; [reflexivity|].
  inversion H as [|? ? Hs Hh]; subst.
  cbn [sortNotes fold_right]. fold (sortNotes l).
  rewrite IH by assumption. now apply insertNote_first.
Qed.

Lemma filter_nothing {A} (f : A -> bool) l :
  (forall x, In x l -> f x = false) -> List.filter f l = [].
Proof.
  induction l as [|x l IH]; intros H; cbn [List.filter]; [reflexivity|].
  rewrite (H x) by (now left).
  apply IH. intros y Hy. apply H. now right.
Qed.

Lemma NoDup_map_filter {A B} (g : A -> B) (f : A -> bool) l :
  List.NoDup (map g l) -> List.NoDup (map g (List.filter f l)).
Proof.
  induction l as [|x l IH]; cbn [map List.filter]; intros H; [constructor|].
  inversion H as [|? ? Hx Hl]; subst.
  destruct (f x); [|now apply IH].
  cbn [map]. constructor; [|now apply IH].
  intros Hin. apply Hx.
  apply in_map_iff in Hin as [y [E Hy]]. apply filter_In in Hy as [Hy _].
  apply in_map_iff. now exists y.
Qed.

(** What the merged score holds. *)
Lemma In_mergeNotes prev newNotes n :
  In n (mergeNotes prev newNotes)
  <-> In n prev \/ (In n newNotes /\ ~ In (id n) (map id prev)).
Proof.
  unfold mergeNotes. cbv zeta.
  rewrite SortFacts.In_sortNotes, in_app_iff, filter_In, negb_true_iff,
    hasId_false.
  tauto.
Qed.

Lemma mergeNotes_sorted prev newNotes :
  Sorted byStart (mergeNotes prev newNotes).
Proof. apply OrderFacts.sortNotes_sorted. Qed.

Lemma mergeNotes_distinct prev newNotes :
  List.NoDup (map id prev) -> List.NoDup (map id newNotes) ->
  List.NoDup (map id (mergeNotes prev newNotes)).
Proof.
  intros Hp Hn. unfold mergeNotes. cbv zeta.
  eapply Permutation_NoDup.
  - apply Permutation_map. symmetry. apply OrderFacts.sortNotes_perm.
  - rewrite map_app. apply List.NoDup_app.
    + assumption.
    + now apply NoDup_map_filter.
    + intros i Hi Hin.
      apply in_map_iff in Hin as [n [<- Hn']].
      apply filter_In in Hn' as [_ Hf].
      apply negb_true_iff, hasId_false in Hf. contradiction.
Qed.

Lemma mergeNotes_again prev newNotes :
  mergeNotes (mergeNotes prev newNotes) newNotes = mergeNotes prev newNotes.
Proof.
  set (merged := mergeNotes prev newNotes).
  unfold mergeNotes at 1. cbv zeta.
  rewrite filter_nothing.
  - rewrite app_nil_r. apply sortNotes_fixed. apply mergeNotes_sorted.
  - intros n Hn. apply negb_false_iff, hasId_In.
    destruct (hasId (map id prev) (id n)) eqn:E.
    + apply hasId_In, in_map_iff in E as [m [Em Hm]].
      rewrite <- Em. apply in_map. apply In_mergeNotes. now left.
    + apply hasId_false in E. apply in_map. apply In_mergeNotes.
      right. now split.
Qed.

(** Both producers return notes with distinct identifiers. *)
Lemma newNotes_distinct src index totalDuration :
  List.NoDup (map id (newNotes src index totalDuration)).
Proof.
  unfold newNotes. cbv zeta.
  assert (Hfile : forall buffer startTime d,
             List.NoDup
               (map id (Analyzer.analyzeAudioSegment buffer startTime d))).
  { intros. apply SlotFacts.NoDup_ids. apply SegmentFacts.mapIdx_nodup. }
  assert (Hvideo : forall videoId startTime endTime,
             List.NoDup
               (map id (Composer.generateDeterministicNotes videoId startTime
                          endTime))).
  { intros. unfold Composer.generateDeterministicNotes.
    eapply Permutation_NoDup.
    - apply Permutation_map. symmetry. apply OrderFacts.sortNotes_perm.
    - apply SlotFacts.NoDup_ids. unfold Composer.generated. cbv zeta.
      apply SlotFacts.barLoop_nodup. }
  destruct (sourceType src), (audioBuffer src) as [buffer|],
    (ytVideoId src) as [[|c rest]|];
    try apply Hfile; try apply Hvideo; constructor.
Qed.

End ScoreFacts.

(** X11. Merging the notes of a segment into the score keeps the score in
    order of start time and, when the score and the new notes each have
    distinct identifiers, keeps the identifiers distinct. *)
Theorem X11_merged_score_is_sorted_and_distinct :
  forall prev newNotes,
    List.NoDup (map id prev) -> List.NoDup (map id newNotes) ->
    Sorted byStart (Score.mergeNotes prev newNotes)
    /\ List.NoDup (map id (Score.mergeNotes prev newNotes)).
Proof.
  intros prev newNotes Hp Hn. split.
  - apply ScoreFacts.mergeNotes_sorted.
  - now apply ScoreFacts.mergeNotes_distinct.
Qed.

Lemma X11_merged_score_is_sorted_and_distinct_witness :
  Sorted byStart
    (Score.mergeNotes [mkNote "a" 1 1 (Fin 60) 1 1] [mkNote "b" 0 1 (Fin 62) 1 1])
  /\ List.NoDup
       (map id (Score.mergeNotes [mkNote "a" 1 1 (Fin 60) 1 1]
                  [mkNote "b" 0 1 (Fin 62) 1 1])).
Proof.
  apply X11_merged_score_is_sorted_and_distinct;
    repeat constructor; intros [].
Defined.

(** X12. Merging the same notes a second time changes nothing: every one of
    them is already in the score under its identifier. *)
Theorem X12_merging_twice_changes_nothing :
  forall prev newNotes,
    Score.mergeNotes (Score.mergeNotes prev newNotes) newNotes
    = Score.mergeNotes prev newNotes.
Proof. exact ScoreFacts.mergeNotes_again. Qed.

(** X13. The merge never replaces a note of the score: the merged score
    holds every old note, and a new note only when no old note carries its
    identifier, whatever the two notes contain. *)
Theorem X13_merge_keeps_old_notes :
  forall prev newNotes n,
    In n (Score.mergeNotes prev newNotes)
    <-> In n prev \/ (In n newNotes /\ ~ In (id n) (map id prev)).
Proof. exact ScoreFacts.In_mergeNotes. Qed.

(** X14. The deferred analysis of a segment, for a file or for a video,
    keeps the score in order and its identifiers distinct, marks the
    segment as processed, and has the same result when it runs twice. *)
Theorem X14_segment_analysis_keeps_the_score :
  forall src index totalDuration s,
    List.NoDup (map id (Score.notes s)) ->
    let s' := Score.analysis src index totalDuration s in
    Sorted byStart (Score.notes s')
    /\ List.NoDup (map id (Score.notes s'))
    /\ In index (Score.processedSegments s')
    /\ Score.analysis src index totalDuration s' = s'.
Proof.
  intros src index totalDuration s Hs s'.
  assert (Hin : In index (Score.processedSegments s')).
  { unfold s', Score.analysis. cbn [Score.processedSegments].
    destruct (existsb (Z.eqb index) (Score.processedSegments s)) eqn:E.
    - apply existsb_exists in E as [j [Hj E]].
      apply Z.eqb_eq in E. now subst.
    - apply in_app_iff. right. now left. }
  split; [apply ScoreFacts.mergeNotes_sorted|].
  split.
  { apply ScoreFacts.mergeNotes_distinct;
      [assumption | apply ScoreFacts.newNotes_distinct]. }
  split; [exact Hin|].
  unfold Score.analysis at 1.
  assert (E : existsb (Z.eqb index) (Score.processedSegments s') = true).
  { apply existsb_exists. exists index. split; [assumption | apply Z.eqb_refl]. }
  rewrite E.
  unfold s' at 1. unfold Score.analysis at 1. cbn [Score.notes].
  rewrite ScoreFacts.mergeNotes_again.
  reflexivity.
Qed.

Lemma X14_segment_analysis_keeps_the_score_witness :
  let src := Score.mkSource Score.youtube None (Some "test"%string) seconds30 in
  let s' := Score.analysis src 0 4 (Score.mkSession [] [] false None) in
  Sorted byStart (Score.notes s')
  /\ List.NoDup (map id (Score.notes s'))
  /\ In 0 (Score.processedSegments s')
  /\ Score.analysis src 0 4 s' = s'.
Proof.
  apply (X14_segment_analysis_keeps_the_score
           (Score.mkSource Score.youtube None (Some "test"%string) seconds30)
           0 4%Q (Score.mkSession [] [] false None)).
  constructor.
Defined.

(** ** Segments, sequencer and speed *)

Module PlayerFacts.

Import Player.
Local Open Scope Q_scope.

Lemma seconds_pos d : (0 < seconds d)%Z.
Proof. destruct d; reflexivity. Qed.

Lemma segmentSeconds_pos cfg : 0 < inject_Z (segmentSeconds cfg).
Proof.
  change 0 with (inject_Z 0). rewrite <- Zlt_Qlt. apply seconds_pos.
Qed.

(** *** What the handlers leave and what they set *)

Lemma stopSequencer_index v :
  currentSegmentIndex (stopSequencer v) = currentSegmentIndex v.
Proof. unfold stopSequencer. now destruct (sequencerRef v). Qed.

Lemma stopSequencer_off v : isSequencing (stopSequencer v) = false.
Proof. unfold stopSequencer. now destruct (sequencerRef v). Qed.

Lemma moveTo_index cfg newIndex v :
  currentSegmentIndex (moveTo cfg newIndex v) = newIndex.
Proof. unfold moveTo. cbv zeta. now destruct (isFile cfg). Qed.

Lemma moveTo_time cfg newIndex v :
  currentTime (moveTo cfg newIndex v)
  = inject_Z (newIndex * segmentSeconds cfg).
Proof. unfold moveTo. cbv zeta. now destruct (isFile cfg). Qed.

Lemma moveTo_sequencing cfg newIndex v :
  isSequencing (moveTo cfg newIndex v) = isSequencing v.
Proof. unfold moveTo. cbv zeta. now destruct (isFile cfg). Qed.

(** The segment that holds a time. *)
Lemma floor_segment cfg time :
  inject_Z (Qfloor (time / inject_Z (segmentSeconds cfg)) * segmentSeconds cfg)
  <= time
  /\ time
     < inject_Z ((Qfloor (time / inject_Z (segmentSeconds cfg)) + 1)
                 * segmentSeconds cfg).
Proof.
  pose proof (segmentSeconds_pos cfg) as Hs.
  set (s := inject_Z (segmentSeconds cfg)) in *.
  pose proof (Qfloor_le (time / s)) as H1.
  pose proof (Qlt_floor (time / s)) as H2.
  rewrite !inject_Z_mult. fold s.
  assert (E : time == time / s * s).
  { field. intros Hz. rewrite Hz in Hs. now apply Qlt_irrefl in Hs. }
  split.
  - rewrite E at 2. apply Qmult_le_compat_r; [assumption|].
    now apply Qlt_le_weak.
  - rewrite E at 1. now apply Qmult_lt_compat_r.
Qed.

(** An index whose segment starts before the end is at most the last
    index. *)
Lemma index_below_max cfg (k : Z) :
  inject_Z (k * segmentSeconds cfg) <= audioDuration cfg ->
  (k <= Qfloor (audioDuration cfg / inject_Z (segmentSeconds cfg)))%Z.
Proof.
  intros H. pose proof (segmentSeconds_pos cfg) as Hs.
  rewrite inject_Z_mult in H.
  rewrite <- (Qfloor_Z k). apply Qfloor_resp_le.
  now apply Qle_shift_div_l.
Qed.

Lemma max_index_in_audio cfg (k : Z) :
  (k <= Qfloor (audioDuration cfg / inject_Z (segmentSeconds cfg)))%Z ->
  inject_Z (k * segmentSeconds cfg) <= audioDuration cfg.
Proof.
  intros H. pose proof (segmentSeconds_pos cfg) as Hs.
  destruct (floor_segment cfg (audioDuration cfg)) as [H1 _].
  apply Qle_trans with
    (inject_Z (Qfloor (audioDuration cfg / inject_Z (segmentSeconds cfg))
               * segmentSeconds cfg)); [|assumption].
  rewrite <- Zle_Qle. apply Z.mul_le_mono_nonneg_r; [|assumption].
  pose proof (seconds_pos (segmentDuration cfg)). unfold segmentSeconds. lia.
Qed.

(** The current segment starts inside the audio. *)
Definition insideAudio (cfg : Config) (v : View) : Prop :=
  (0 <= currentSegmentIndex v)%Z
  /\ inject_Z (currentSegmentIndex v * segmentSeconds cfg)
     <= audioDuration cfg.

(** *** The tones played by the sequencer *)

Definition tone (n : NoteEvent) : jsint * Q := (midi_pitch n, duration n).

Definition tones (l : list Call) : list (jsint * Q) :=
  flat_map (fun c => match c with
                     | playTone p d => [(p, d)]
                     | _ => []
                     end) l.

Lemma tones_app l l' : tones (l ++ l') = tones l ++ tones l'.
Proof. apply flat_map_app. Qed.

Lemma playAll_spec l : forall v,
  calls (playAll l v) = calls v ++ map (fun n => playTone (midi_pitch n) (duration n)) l
  /\ currentTime (playAll l v) = currentTime v
  /\ lastFrameTime (playAll l v) = lastFrameTime v.
Proof.
  unfold playAll.
  induction l as [|n l IH]; intros v; cbn [fold_left map].
  - now rewrite app_nil_r.
  - destruct (IH (call (playTone (midi_pitch n) (duration n)) v))
      as [H1 [H2 H3]].
    rewrite H1, H2, H3. cbn [call calls currentTime lastFrameTime].
    now rewrite <- app_assoc.
Qed.

Lemma tones_played l :
  tones (map (fun n => playTone (midi_pitch n) (duration n)) l) = map tone l.
Proof.
  induction l as [|n l IH]; [reflexivity|].
  cbn [map tones flat_map app]. now f_equal.
Qed.

(** A frame that does not reach the end of the segment. *)
Lemma loop_inside cfg start fin time v :
  let newTime :=
    currentTime v + ((time - lastFrameTime v) / 1000) * sequencerSpeed cfg in
  newTime < fin ->
  currentTime (loop cfg start fin time v) = newTime
  /\ lastFrameTime (loop cfg start fin time v) = time
  /\ tones (calls (loop cfg start fin time v))
     = tones (calls v) ++ map tone (notesToPlay cfg (currentTime v) newTime).
Proof.
  intros newTime Hlt. unfold loop, advance. cbv zeta.
  cbn [setLastFrameTime currentTime lastFrameTime].
  fold newTime.
  assert (E : Qgeb newTime fin = false).
  { unfold Qgeb. destruct (Qle_bool fin newTime) eqn:E; [|reflexivity].
    apply Qle_bool_iff in E. now apply Qle_not_lt in E. }
  rewrite E.
  match goal with |- context [playAll ?l ?w] =>
    destruct (playAll_spec l w) as [H1 [H2 H3]] end.
  cbn [requestFrame setCurrentTime currentTime lastFrameTime calls].
  rewrite H1, H3. cbn [lastFrameTime calls].
  split; [reflexivity|]. split; [reflexivity|].
  rewrite !tones_app, tones_played. cbn [tones flat_map].
  now rewrite app_nil_r.
Qed.

(** Two adjacent half-open ranges select what their union selects. *)
Lemma inRange_true a b t :
  Qgeb t a && Qltb t b = true <-> a <= t /\ t < b.
Proof.
  rewrite andb_true_iff, ComposerFacts.Qgeb_true, ComposerFacts.Qltb_true.
  tauto.
Qed.

Lemma inRange_false a b t :
  Qgeb t a && Qltb t b = false <-> t < a \/ b <= t.
Proof.
  rewrite andb_false_iff, ComposerFacts.Qltb_false.
  unfold Qgeb. split.
  - intros [H | H]; [left | now right].
    apply Qnot_le_lt. intros Hle. apply Qle_bool_iff in Hle. congruence.
  - intros [H | H]; [left | now right].
    destruct (Qle_bool a t) eqn:E; [|reflexivity].
    apply Qle_bool_iff in E. now apply Qle_not_lt in E.
Qed.

Lemma notesToPlay_split cfg a b c :
  a <= b -> b <= c ->
  Permutation (notesToPlay cfg a b ++ notesToPlay cfg b c)
    (notesToPlay cfg a c).
Proof.
  intros Hab Hbc. unfold notesToPlay.
  induction (notes cfg) as [|n l IH]; [constructor|].
  cbn [List.filter].
  set (t := start_time n).
  destruct (Qgeb t a && Qltb t b) eqn:E1;
    destruct (Qgeb t b && Qltb t c) eqn:E2;
    destruct (Qgeb t a && Qltb t c) eqn:E3;
    try apply inRange_true in E1; try apply inRange_false in E1;
    try apply inRange_true in E2; try apply inRange_false in E2;
    try apply inRange_true in E3; try apply inRange_false in E3;
    try (exfalso; lra).
  - cbn [app]. now constructor.
  - apply Permutation_sym, Permutation_cons_app, Permutation_sym. exact IH.
  - exact IH.
Qed.

(** The frames leave [isSequencing] alone, or reset it at the end of the
    segment. *)
Lemma isSequencing_playAll l : forall v,
  isSequencing (playAll l v) = isSequencing v.
Proof.
  unfold playAll.
  induction l as [|n l IH]; intros v; cbn [fold_left]; [reflexivity|].
  rewrite IH. reflexivity.
Qed.

Lemma loop_cases cfg start fin time v :
  let newTime :=
    currentTime v + ((time - lastFrameTime v) / 1000) * sequencerSpeed cfg in
  (newTime < fin
   /\ isSequencing (loop cfg start fin time v) = isSequencing v)
  \/ isSequencing (loop cfg start fin time v) = false.
Proof.
  intros newTime. unfold loop, advance. cbv zeta.
  cbn [setLastFrameTime currentTime lastFrameTime].
  fold newTime.
  destruct (Qgeb newTime fin) eqn:E.
  - right. unfold stopSequencer.
    match goal with |- context [if ?c then _ else _] => destruct c end;
      reflexivity.
  - left. split.
    + apply Qnot_le_lt. intros H. apply Qle_bool_iff in H.
      unfold Qgeb in E. congruence.
    + cbn [requestFrame setCurrentTime isSequencing].
      rewrite isSequencing_playAll. reflexivity.
Qed.

Lemma frames_stopped cfg start fin times : forall v,
  isSequencing v = false ->
  isSequencing (frames cfg start fin times v) = false.
Proof.
  induction times as [|time rest IH]; intros v Hv; [exact Hv|].
  change (frames cfg start fin (time :: rest) v)
    with (frames cfg start fin rest (loop cfg start fin time v)).
  apply IH.
  destruct (loop_cases cfg start fin time v) as [[_ H] | H];
    [rewrite H; exact Hv | exact H].
Qed.

Lemma notesToPlay_none cfg a : notesToPlay cfg a a = [].
Proof.
  apply ScoreFacts.filter_nothing. intros n _.
  unfold Qgeb, Qltb.
  destruct (Qle_bool a (start_time n)); reflexivity.
Qed.

(** While the sequencer keeps running, the frames play the notes between
    the old position and the new one. *)
Lemma frames_running cfg start fin times : forall v,
  0 <= sequencerSpeed cfg ->
  Sorted Qle (lastFrameTime v :: times) ->
  isSequencing (frames cfg start fin times v) = true ->
  let v' := frames cfg start fin times v in
  currentTime v <= currentTime v'
  /\ Permutation (tones (calls v'))
       (tones (calls v)
        ++ map tone (notesToPlay cfg (currentTime v) (currentTime v'))).
Proof.
  induction times as [|time rest IH]; intros v Hspeed Hsorted Hrun v'.
  - unfold v', frames. cbn [fold_left].
    split; [apply Qle_refl|].
    rewrite notesToPlay_none. cbn [map]. rewrite app_nil_r. reflexivity.
  - change (frames cfg start fin (time :: rest) v)
      with (frames cfg start fin rest (loop cfg start fin time v)) in *.
    inversion Hsorted as [|? ? Hs Hh]; subst.
    inversion Hh as [|? ? H01]; subst.
    set (v1 := loop cfg start fin time v) in *.
    destruct (loop_cases cfg start fin time v) as [[Hlt _] | Hoff].
    + destruct (loop_inside cfg start fin time v Hlt) as [H1 [H2 H3]].
      fold v1 in H1, H2, H3.
      assert (Hstep : 0 <= (time - lastFrameTime v) / 1000 * sequencerSpeed cfg).
      { apply Qmult_le_0_compat; [|assumption].
        apply Qle_shift_div_l; [reflexivity|]. lra. }
      destruct (IH v1 Hspeed) as [IH1 IH2];
        [rewrite H2; exact Hs | exact Hrun |].
      fold v' in IH1, IH2.
      assert (H01' : currentTime v <= currentTime v1) by (rewrite H1; lra).
      split; [apply Qle_trans with (currentTime v1); assumption|].
      rewrite IH2, H3, <- H1, <- app_assoc.
      apply Permutation_app_head.
      rewrite <- map_app. apply Permutation_map.
      apply notesToPlay_split; assumption.
    + fold v1 in Hoff.
      rewrite (frames_stopped cfg start fin rest v1 Hoff) in Hrun.
      discriminate Hrun.
Qed.

(** *** Rounding to hundredths *)

Lemma toFixed2_exact (k : Z) : toFixed2 (inject_Z k / 100) == inject_Z k / 100.
Proof.
  unfold toFixed2.
  assert (E : inject_Z k / 100 * 100 + (1 # 2) == inject_Z k + (1 # 2)) by field.
  assert (F : Qfloor (inject_Z k / 100 * 100 + (1 # 2)) = k).
  { rewrite (Qfloor_comp _ _ E).
    assert (H1 : (k <= Qfloor (inject_Z k + (1 # 2)))%Z).
    { rewrite <- (Qfloor_Z k) at 1. apply Qfloor_resp_le. lra. }
    assert (H2 : (Qfloor (inject_Z k + (1 # 2)) < k + 1)%Z).
    { rewrite Zlt_Qlt.
      apply Qle_lt_trans with (inject_Z k + (1 # 2)); [apply Qfloor_le|].
      rewrite inject_Z_plus. change (inject_Z 1) with 1. lra. }
    lia. }
  rewrite F. rewrite (Qmake_Qdiv k 100). reflexivity.
Qed.

Lemma toFixed2_range x :
  1 # 4 <= x -> x <= 2 -> 1 # 4 <= toFixed2 x /\ toFixed2 x <= 2.
Proof.
  intros H1 H2. unfold toFixed2.
  assert (Ha : (25 <= Qfloor (x * 100 + (1 # 2)))%Z).
  { change 25%Z with (Qfloor 25). apply Qfloor_resp_le. lra. }
  assert (Hb : (Qfloor (x * 100 + (1 # 2)) <= 200)%Z).
  { change 200%Z with (Qfloor (200 + (1 # 2))). apply Qfloor_resp_le. lra. }
  set (n := Qfloor (x * 100 + (1 # 2))) in *.
  rewrite (Qmake_Qdiv n 100).
  assert (H25 : inject_Z 25 <= inject_Z n) by (now rewrite <- Zle_Qle).
  assert (H200 : inject_Z n <= inject_Z 200) by (now rewrite <- Zle_Qle).
  change (inject_Z 25) with 25 in H25. change (inject_Z 200) with 200 in H200.
  change (inject_Z (Z.pos 100)) with 100.
  split.
  - apply Qle_shift_div_l; [reflexivity|]. lra.
  - apply Qle_shift_div_r; [reflexivity|]. lra.
Qed.

Lemma clamp_range x : 1 # 4 <= Qmax (1 # 4) (Qmin 2 x) /\ Qmax (1 # 4) (Qmin 2 x) <= 2.
Proof.
  unfold Qmax, Qmin.
  destruct (Qle_bool 2 x) eqn:E1.
  - cbn. split; discriminate.
  - destruct (Qle_bool (1 # 4) x) eqn:E2.
    + apply Qle_bool_iff in E2. split; [assumption|].
      apply Qlt_le_weak, Qnot_le_lt. intros H. apply Qle_bool_iff in H.
      congruence.
    + split; [apply Qle_refl | discriminate].
Qed.

End PlayerFacts.

(** X15. When the Next button is enabled for an audio of positive
    duration, [handleNextSegment] moves to the next segment: the index
    grows by one, the time is set to the start of that segment, which lies
    before the end of the audio, and the sequencer is stopped. *)
Theorem X15_enabled_next_button_moves_one_segment :
  forall cfg v,
    (0 < Player.audioDuration cfg)%Q ->
    Player.nextDisabled cfg v = false ->
    let v' := Player.handleNextSegment cfg v in
    Player.currentSegmentIndex v' = Player.currentSegmentIndex v + 1
    /\ Player.currentTime v'
       = inject_Z ((Player.currentSegmentIndex v + 1) * Player.segmentSeconds cfg)
    /\ (Player.currentTime v' < Player.audioDuration cfg)%Q
    /\ Player.isSequencing v' = false.
Proof.
  intros cfg v Hd Hen v'.
  unfold Player.nextDisabled in Hen.
  destruct (Qeq_bool (Player.audioDuration cfg) 0) eqn:E0.
  { apply Qeq_bool_iff in E0. rewrite E0 in Hd. now apply Qlt_irrefl in Hd. }
  assert (Hlt : (inject_Z ((Player.currentSegmentIndex v + 1)
                           * Player.segmentSeconds cfg)
                 < Player.audioDuration cfg)%Q).
  { apply Qnot_le_lt. intros H. apply Qle_bool_iff in H.
    unfold Qgeb in Hen. congruence. }
  assert (Hmax : Player.currentSegmentIndex v
                 < Qfloor (Player.audioDuration cfg
                           / inject_Z (Player.segmentSeconds cfg))).
  { pose proof (PlayerFacts.index_below_max cfg
                  (Player.currentSegmentIndex v + 1)
                  (Qlt_le_weak _ _ Hlt)). lia. }
  apply Z.ltb_lt in Hmax.
  unfold v', Player.handleNextSegment. cbv zeta. rewrite Hmax.
  rewrite PlayerFacts.moveTo_index, PlayerFacts.moveTo_time,
    PlayerFacts.moveTo_sequencing, PlayerFacts.stopSequencer_off.
  repeat split. exact Hlt.
Qed.

Lemma X15_enabled_next_button_moves_one_segment_witness :
  let cfg := Player.mkConfig seconds30 100 Score.youtube false [] 1 in
  let v := Player.mkView 12 true 1 false false None None false 0 [] in
  let v' := Player.handleNextSegment cfg v in
  Player.currentSegmentIndex v' = 1 + 1
  /\ Player.currentTime v' = inject_Z ((1 + 1) * 30)
  /\ (Player.currentTime v' < 100)%Q
  /\ Player.isSequencing v' = false.
Proof.
  apply (X15_enabled_next_button_moves_one_segment
           (Player.mkConfig seconds30 100 Score.youtube false [] 1)
           (Player.mkView 12 true 1 false false None None false 0 []));
    reflexivity.
Defined.

(** X16. The Prev and Next handlers keep the current segment inside the
    audio: from an index that is not negative and whose segment starts at
    or before the end, they lead to such an index again, at most one
    segment away. *)
Theorem X16_prev_and_next_stay_inside_the_audio :
  forall cfg v,
    PlayerFacts.insideAudio cfg v ->
    PlayerFacts.insideAudio cfg (Player.handlePrevSegment cfg v)
    /\ PlayerFacts.insideAudio cfg (Player.handleNextSegment cfg v)
    /\ Player.currentSegmentIndex v - 1
       <= Player.currentSegmentIndex (Player.handlePrevSegment cfg v)
       <= Player.currentSegmentIndex v
    /\ Player.currentSegmentIndex v
       <= Player.currentSegmentIndex (Player.handleNextSegment cfg v)
       <= Player.currentSegmentIndex v + 1.
Proof.
  intros cfg v [H0 Hin].
  pose proof (PlayerFacts.seconds_pos (Player.segmentDuration cfg)) as Hs.
  assert (Hprev :
    Player.currentSegmentIndex (Player.handlePrevSegment cfg v)
    = if 0 <? Player.currentSegmentIndex v
      then Player.currentSegmentIndex v - 1
      else Player.currentSegmentIndex v).
  { unfold Player.handlePrevSegment. cbv zeta.
    destruct (0 <? Player.currentSegmentIndex v).
    - apply PlayerFacts.moveTo_index.
    - apply PlayerFacts.stopSequencer_index. }
  assert (Hnext :
    Player.currentSegmentIndex (Player.handleNextSegment cfg v)
    = if Player.currentSegmentIndex v
         <? Qfloor (Player.audioDuration cfg
                    / inject_Z (Player.segmentSeconds cfg))
      then Player.currentSegmentIndex v + 1
      else Player.currentSegmentIndex v).
  { unfold Player.handleNextSegment. cbv zeta.
    destruct (Player.currentSegmentIndex v <? _).
    - apply PlayerFacts.moveTo_index.
    - apply PlayerFacts.stopSequencer_index. }
  unfold PlayerFacts.insideAudio. rewrite Hprev, Hnext.
  destruct (0 <? Player.currentSegmentIndex v) eqn:Ep;
    destruct (Player.currentSegmentIndex v <? _) eqn:En;
    try apply Z.ltb_lt in Ep; try apply Z.ltb_lt in En;
    repeat split; try lia; try assumption;
    try (apply PlayerFacts.max_index_in_audio; lia);
    (apply Qle_trans
       with (inject_Z (Player.currentSegmentIndex v
                       * Player.segmentSeconds cfg)); [|assumption];
     rewrite <- Zle_Qle; unfold Player.segmentSeconds; nia).
Qed.

Lemma X16_prev_and_next_stay_inside_the_audio_witness :
  let cfg := Player.mkConfig seconds30 100 Score.youtube false [] 1 in
  let v := Player.mkView 95 true 3 false false None None false 0 [] in
  PlayerFacts.insideAudio cfg (Player.handlePrevSegment cfg v)
  /\ PlayerFacts.insideAudio cfg (Player.handleNextSegment cfg v)
  /\ 3 - 1 <= Player.currentSegmentIndex (Player.handlePrevSegment cfg v) <= 3
  /\ 3 <= Player.currentSegmentIndex (Player.handleNextSegment cfg v) <= 3 + 1.
Proof.
  apply (X16_prev_and_next_stay_inside_the_audio
           (Player.mkConfig seconds30 100 Score.youtube false [] 1)
           (Player.mkView 95 true 3 false false None None false 0 [])).
  split; [cbn; lia | discriminate].
Defined.

(** X17. [handleSeek] selects the segment that holds the time sought:
    that segment starts at or before the time and ends after it; the time
    is stored, the sequencer is stopped and the confirmation is closed. *)
Theorem X17_seek_selects_the_segment_of_the_time :
  forall cfg time v,
    let v' := Player.handleSeek cfg time v in
    (inject_Z (Player.currentSegmentIndex v' * Player.segmentSeconds cfg)
     <= time)%Q
    /\ (time
        < inject_Z ((Player.currentSegmentIndex v' + 1)
                    * Player.segmentSeconds cfg))%Q
    /\ Player.currentTime v' = time
    /\ Player.isSequencing v' = false
    /\ Player.segmentConfirmationOpen v' = false.
Proof.
  intros cfg time v v'.
  assert (E : Player.currentSegmentIndex v'
              = Qfloor (time / inject_Z (Player.segmentSeconds cfg))
              /\ Player.currentTime v' = time
              /\ Player.isSequencing v' = false
              /\ Player.segmentConfirmationOpen v' = false).
  { unfold v', Player.handleSeek, Player.stopSequencer, Player.seekVideo.
    cbv zeta.
    destruct (Player.isFile cfg), (Player.audioElement v),
      (Player.isRestricted cfg), (Player.sequencerRef v);
      repeat split; reflexivity. }
  destruct E as [E1 [E2 [E3 E4]]]. rewrite E1.
  destruct (PlayerFacts.floor_segment cfg time) as [H1 H2].
  repeat split; assumption.
Qed.

(** X18. While the sequencer keeps running, its frames play every note
    exactly once: after frames at non-decreasing times, at a speed that is
    not negative, with [isSequencing] still set (no frame reached the end
    of the segment), the position has not moved backwards and the tones
    played are, up to order, those played before and one for every note
    whose start lies between the old position (included) and the new one
    (excluded). *)
Theorem X18_sequencer_plays_each_note_once :
  forall cfg start fin times v,
    (0 <= Player.sequencerSpeed cfg)%Q ->
    Sorted Qle (Player.lastFrameTime v :: times) ->
    Player.isSequencing (Player.frames cfg start fin times v) = true ->
    let v' := Player.frames cfg start fin times v in
    (Player.currentTime v <= Player.currentTime v')%Q
    /\ Permutation (PlayerFacts.tones (Player.calls v'))
         (PlayerFacts.tones (Player.calls v)
          ++ map PlayerFacts.tone
               (Player.notesToPlay cfg (Player.currentTime v)
                  (Player.currentTime v'))).
Proof.
  intros cfg start fin times v. apply PlayerFacts.frames_running.
Qed.

Lemma X18_sequencer_plays_each_note_once_witness :
  let cfg :=
    Player.mkConfig seconds30 100 Score.youtube false
      [mkNote "a" (1 # 100) 1 (Fin 60) 1 1; mkNote "b" 5 1 (Fin 62) 1 1] 1 in
  let v := Player.mkView 0 false 0 false true None None true 0 [] in
  let v' := Player.frames cfg 0 30 [16%Q; 32%Q] v in
  (Player.currentTime v <= Player.currentTime v')%Q
  /\ Permutation (PlayerFacts.tones (Player.calls v'))
       (PlayerFacts.tones (Player.calls v)
        ++ map PlayerFacts.tone
             (Player.notesToPlay cfg (Player.currentTime v)
                (Player.currentTime v'))).
Proof.
  intros cfg v.
  apply (X18_sequencer_plays_each_note_once cfg 0%Q 30%Q [16%Q; 32%Q] v).
  - discriminate.
  - repeat constructor; discriminate.
  - reflexivity.
Defined.

(** X19. The playback speed stays between 0.25 and 2 whatever the change
    asked for; for a speed and a change that are multiples of 0.25 the
    result is the clamped sum, exactly (the rounding to two decimals loses
    nothing). *)
Theorem X19_speed_stays_in_range :
  forall delta prev,
    (1 # 4 <= Player.changeSequencerSpeed delta prev
     /\ Player.changeSequencerSpeed delta prev <= 2)%Q
    /\ (forall k j : Z,
          (prev == inject_Z k / 4)%Q -> (delta == inject_Z j / 4)%Q ->
          (Player.changeSequencerSpeed delta prev
           == inject_Z (Z.max 1 (Z.min 8 (k + j))) / 4)%Q).
Proof.
  intros delta prev. unfold Player.changeSequencerSpeed. cbv zeta.
  destruct (PlayerFacts.clamp_range (prev + delta)) as [H1 H2].
  split; [now apply PlayerFacts.toFixed2_range|].
  intros k j Hk Hj.
  assert (Hsum : (prev + delta == inject_Z (k + j) / 4)%Q).
  { rewrite Hk, Hj, inject_Z_plus. field. }
  assert (Hclamp : (Qmax (1 # 4) (Qmin 2 (prev + delta))
                    == inject_Z (Z.max 1 (Z.min 8 (k + j))) / 4)%Q).
  { unfold Qmax, Qmin.
    assert (Hq : forall z : Z, (inject_Z z / 4 == z # 4)%Q).
    { intros z. rewrite (Qmake_Qdiv z 4). reflexivity. }
    destruct (Qle_bool 2 (prev + delta)) eqn:E1.
    - apply Qle_bool_iff in E1. rewrite Hsum, Hq in E1.
      unfold Qle in E1. cbn in E1.
      replace (Z.max 1 (Z.min 8 (k + j))) with 8%Z by lia.
      cbn. reflexivity.
    - assert (E1' : ~ (2 <= prev + delta)%Q).
      { intros H. apply Qle_bool_iff in H. congruence. }
      rewrite Hsum, Hq in E1'. unfold Qle in E1'. cbn in E1'.
      destruct (Qle_bool (1 # 4) (prev + delta)) eqn:E2.
      + apply Qle_bool_iff in E2. rewrite Hsum, Hq in E2.
        unfold Qle in E2. cbn in E2.
        rewrite Hsum.
        replace (Z.max 1 (Z.min 8 (k + j))) with (k + j)%Z by lia.
        reflexivity.
      + assert (E2' : ~ (1 # 4 <= prev + delta)%Q).
        { intros H. apply Qle_bool_iff in H. congruence. }
        rewrite Hsum, Hq in E2'. unfold Qle in E2'. cbn in E2'.
        replace (Z.max 1 (Z.min 8 (k + j))) with 1%Z by lia.
        reflexivity. }
  set (m := Z.max 1 (Z.min 8 (k + j))) in *.
  assert (E : (Qmax (1 # 4) (Qmin 2 (prev + delta))
               == inject_Z (25 * m) / 100)%Q).
  { rewrite Hclamp, inject_Z_mult. field. }
  assert (F : Player.toFixed2 (Qmax (1 # 4) (Qmin 2 (prev + delta)))
              = Player.toFixed2 (inject_Z (25 * m) / 100)).
  { unfold Player.toFixed2. f_equal. apply Qfloor_comp. now rewrite E. }
  rewrite F, PlayerFacts.toFixed2_exact, inject_Z_mult. field.
Qed.

Lemma X19_speed_stays_in_range_witness :
  (Player.changeSequencerSpeed (1 # 4) 1
   == inject_Z (Z.max 1 (Z.min 8 (4 + 1))) / 4)%Q.
Proof.
  apply (proj2 (X19_speed_stays_in_range (1 # 4) 1) 4 1); reflexivity.
Defined.

(** ** Note labels *)

Module LabelFacts.

Import PitchUtils.
Local Open Scope Z_scope.

(** *** Characters that no numeral contains *)

Definition notNumeral (c : ascii) : bool :=
  forallb (fun d => negb (Ascii.eqb d c))
    ["0"; "1"; "2"; "3"; "4"; "5"; "6"; "7"; "8"; "9"; "-"]%char.

Lemma notNumeral_digit c x :
  notNumeral c = true -> Ascii.eqb (pretty_N_char x) c = false.
Proof.
  unfold notNumeral. cbn [forallb]. rewrite !andb_true_iff, !negb_true_iff.
  intros [H0 [H1 [H2 [H3 [H4 [H5 [H6 [H7 [H8 [H9 _]]]]]]]]]].
  unfold pretty_N_char.
  destruct x as [|p]; [assumption|].
  do 4 (destruct p as [p|p|]; try assumption).
Qed.

Lemma notNumeral_minus c : notNumeral c = true -> Ascii.eqb "-" c = false.
Proof.
  unfold notNumeral. cbn [forallb]. rewrite !andb_true_iff, !negb_true_iff.
  tauto.
Qed.

Lemma numeral_lacks c (z : Z) :
  notNumeral c = true -> Ids.lacks c (pretty z) = true.
Proof.
  intros H. apply Ids.lacks_pretty_Z.
  - intros x. now apply notNumeral_digit.
  - now apply notNumeral_minus.
Qed.

(** A name made of such characters. *)
Fixpoint plain (s : string) : bool :=
  match s with
  | EmptyString => true
  | String c rest => notNumeral c && plain rest
  end.

(** A plain name followed by a numeral splits in one way only. *)
Lemma split_unique a : forall b (m n : Z),
  plain a = true -> plain b = true ->
  (a +:+ pretty m)%string = (b +:+ pretty n)%string ->
  a = b /\ m = n.
Proof.
  induction a as [|c a IH]; intros b m n Ha Hb E.
  - destruct b as [|d b].
    + split; [reflexivity|].
      change (pretty m = pretty n) in E. now apply (inj pretty).
    + exfalso.
      change (pretty m = String d (b +:+ pretty n)%string) in E.
      cbn [plain] in Hb. apply andb_true_iff in Hb as [Hd _].
      pose proof (numeral_lacks d m Hd) as Hl.
      rewrite E in Hl. cbn [Ids.lacks] in Hl.
      rewrite Ascii.eqb_refl in Hl. discriminate Hl.
  - destruct b as [|d b].
    + exfalso.
      change (String c (a +:+ pretty m)%string = pretty n) in E.
      cbn [plain] in Ha. apply andb_true_iff in Ha as [Hc _].
      pose proof (numeral_lacks c n Hc) as Hl.
      rewrite <- E in Hl. cbn [Ids.lacks] in Hl.
      rewrite Ascii.eqb_refl in Hl. discriminate Hl.
    + change (String c (a +:+ pretty m)%string
              = String d (b +:+ pretty n)%string) in E.
      cbn [plain] in Ha, Hb.
      apply andb_true_iff in Ha as [_ Ha]. apply andb_true_iff in Hb as [_ Hb].
      assert (Ecd : c = d) by congruence.
      assert (Erest : (a +:+ pretty m)%string = (b +:+ pretty n)%string)
        by congruence.
      destruct (IH b m n Ha Hb Erest) as [-> ->]. now subst.
Qed.

(** *** The twelve names of a setting *)

(** The name and the accidental flag that [formatPitch] computes for the
    semitone at position [k] of the tables. *)
Definition named (settings : LabelSettings) (k : nat) : string * bool :=
  match format settings with
  | solfege =>
      let baseName := nth k solfegeNames EmptyString in
      (baseName, Nat.eqb (String.length baseName) 2 && endsWith "i" baseName)
  | _ =>
      standardName (accidentalStyle settings)
        (nth k (match accidentalStyle settings with
                | flat => noteNamesFlat
                | _ => noteNamesSharp
                end) EmptyString)
  end.

Definition withOctave (settings : LabelSettings) : bool :=
  showOctave settings
  && match format settings with note_only => false | _ => true end.

Lemma nameAt_nth names (k : nat) :
  (k < length names)%nat ->
  nameAt names (Z.of_nat k) = Some (nth k names EmptyString).
Proof.
  intros Hk. unfold nameAt.
  destruct (Z.of_nat k <? 0) eqn:E; [apply Z.ltb_lt in E; lia|].
  rewrite Nat2Z.id. now apply nth_error_nth'.
Qed.

(** [formatPitch] on a pitch whose remainder is not negative. *)
Lemma formatPitch_Fin z settings :
  0 <= Z.rem z 12 ->
  formatPitch (Fin z) settings
  = Some {| display :=
              if withOctave settings
              then (fst (named settings (Z.to_nat (Z.rem z 12)))
                      +:+ pretty (z / 12 - 1))%string
              else fst (named settings (Z.to_nat (Z.rem z 12)));
            isAccidental := snd (named settings (Z.to_nat (Z.rem z 12)));
            octave := z / 12 - 1 |}.
Proof.
  intros Hr.
  assert (Hlt : Z.rem z 12 < 12).
  { pose proof (Z.rem_bound_abs z 12). lia. }
  set (k := Z.to_nat (Z.rem z 12)).
  assert (Hk : (k < 12)%nat) by (unfold k; lia).
  assert (Ek : Z.rem z 12 = Z.of_nat k) by (unfold k; lia).
  unfold formatPitch. cbv zeta. rewrite Ek.
  unfold named, withOctave.
  destruct (format settings).
  - rewrite nameAt_nth
      by (destruct (accidentalStyle settings); exact Hk).
    destruct (standardName _ _) as [baseName acc]. reflexivity.
  - rewrite nameAt_nth
      by (destruct (accidentalStyle settings); exact Hk).
    destruct (standardName _ _) as [baseName acc]. reflexivity.
  - rewrite nameAt_nth by exact Hk. reflexivity.
Qed.

(** A pitch with a negative remainder has no name. *)
Lemma formatPitch_negative z settings :
  Z.rem z 12 < 0 -> formatPitch (Fin z) settings = None.
Proof.
  intros Hr. unfold formatPitch. cbv zeta. unfold nameAt.
  apply Z.ltb_lt in Hr. rewrite Hr.
  now destruct (format settings).
Qed.

(** The twelve names of a setting are plain and pairwise distinct. *)
Definition table (settings : LabelSettings) : list string :=
  map (fun k => fst (named settings k)) (seq 0 12).

Lemma table_plain settings : forallb plain (table settings) = true.
Proof.
  destruct settings as [sl f a so sc p mc].
  destruct f, a; vm_compute; reflexivity.
Qed.

(** Distinct positions of the table hold distinct names. *)
Definition distinctFrom (l : list string) : bool :=
  (fix go (l : list string) : bool :=
     match l with
     | [] => true
     | x :: rest => negb (existsb (String.eqb x) rest) && go rest
     end) l.

Lemma distinctFrom_NoDup l : distinctFrom l = true -> List.NoDup l.
Proof.
  induction l as [|x l IH]; intros H; [constructor|].
  cbn in H. apply andb_true_iff in H as [Hx Hl].
  constructor; [|now apply IH].
  intros Hin. apply negb_true_iff in Hx.
  assert (existsb (String.eqb x) l = true).
  { apply existsb_exists. exists x. split; [assumption | apply String.eqb_refl]. }
  congruence.
Qed.

Lemma table_distinct settings : List.NoDup (table settings).
Proof.
  destruct settings as [sl f a so sc p mc].
  apply distinctFrom_NoDup.
  destruct f, a; vm_compute; reflexivity.
Qed.

Lemma named_table settings (k : nat) :
  (k < 12)%nat -> nth k (table settings) EmptyString = fst (named settings k).
Proof.
  intros Hk. unfold table.
  rewrite (nth_indep _ EmptyString (fst (named settings 0)))
    by (rewrite length_map, length_seq; exact Hk).
  rewrite (map_nth (fun k => fst (named settings k)) (seq 0 12) 0%nat k).
  rewrite seq_nth by exact Hk. reflexivity.
Qed.

Lemma named_plain settings (k : nat) :
  (k < 12)%nat -> plain (fst (named settings k)) = true.
Proof.
  intros Hk. pose proof (table_plain settings) as H.
  rewrite forallb_forall in H. apply H.
  rewrite <- named_table by exact Hk.
  apply nth_In. unfold table. now rewrite length_map, length_seq.
Qed.

Lemma named_inj settings (j k : nat) :
  (j < 12)%nat -> (k < 12)%nat ->
  fst (named settings j) = fst (named settings k) -> j = k.
Proof.
  intros Hj Hk E. rewrite <- !named_table in E by assumption.
  pose proof (table_distinct settings) as Hn.
  rewrite (List.NoDup_nth (table settings) EmptyString) in Hn.
  apply Hn; [| |exact E]; unfold table; now rewrite length_map, length_seq.
Qed.

(** The accidental flags, position by position. *)
Definition blackKey (k : nat) : bool :=
  existsb (Nat.eqb k) [1; 3; 6; 8; 10]%nat.

Definition solfegeFlag (k : nat) : bool :=
  existsb (Nat.eqb k) [1; 3; 4; 6; 8; 10; 11]%nat.

Lemma named_flag settings (k : nat) :
  (k < 12)%nat ->
  snd (named settings k)
  = match format settings with
    | solfege => solfegeFlag k
    | _ => blackKey k
    end.
Proof.
  intros Hk. destruct settings as [sl f a so sc p mc].
  cbn [format].
  do 12 (destruct k as [|k]; [destruct f, a; vm_compute; reflexivity|]).
  lia.
Qed.

(** The pitch is determined by its remainder and its octave. *)
Lemma pitch_of_parts z z' :
  0 <= Z.rem z 12 -> 0 <= Z.rem z' 12 ->
  Z.rem z 12 = Z.rem z' 12 -> z / 12 = z' / 12 -> z = z'.
Proof.
  intros H1 H2 Hr Hq.
  Z.quot_rem_to_equations. Z.div_mod_to_equations. lia.
Qed.

End LabelFacts.

(** X20. [formatPitch] returns a label exactly for a finite pitch whose
    remainder modulo 12 is not negative, that is for a pitch that is not
    negative or is a multiple of 12, and the octave of the label is the
    floor of pitch / 12, minus one.  For every other pitch (a negative one
    that is no multiple of 12, an infinite one, NaN) it raises an error. *)
Theorem X20_labels_exist_for_valid_pitches :
  forall z settings,
    (0 <= z \/ Z.rem z 12 = 0 ->
     exists label,
       PitchUtils.formatPitch (Fin z) settings = Some label
       /\ PitchUtils.octave label = z / 12 - 1)
    /\ (z < 0 /\ Z.rem z 12 <> 0 ->
        PitchUtils.formatPitch (Fin z) settings = None)
    /\ PitchUtils.formatPitch PosInf settings = None
    /\ PitchUtils.formatPitch NaN settings = None.
Proof.
  intros z settings. split; [|split; [|split; reflexivity]].
  - intros Hz.
    assert (Hr : 0 <= Z.rem z 12).
    { destruct Hz as [Hz | Hz]; [|lia]. apply Z.rem_nonneg; lia. }
    rewrite (LabelFacts.formatPitch_Fin z settings Hr).
    eexists. split; reflexivity.
  - intros [Hneg Hne].
    apply LabelFacts.formatPitch_negative.
    pose proof (Z.rem_nonpos z 12). lia.
Qed.

Lemma X20_labels_exist_for_valid_pitches_witness :
  let settings :=
    PitchUtils.mkSettings true PitchUtils.scientific PitchUtils.sharp true
      false PitchUtils.above (4 # 10) in
  (exists label,
     PitchUtils.formatPitch (Fin 60) settings = Some label
     /\ PitchUtils.octave label = 60 / 12 - 1)
  /\ PitchUtils.formatPitch (Fin (-1)) settings = None.
Proof.
  intros settings. split.
  - apply (proj1 (X20_labels_exist_for_valid_pitches 60 settings)).
    left. lia.
  - apply (proj1 (proj2 (X20_labels_exist_for_valid_pitches (-1) settings))).
    split; [lia | discriminate].
Defined.

(** X21. The accidental flag of a label: with the standard names it is set
    exactly for the five black keys (semitones 1, 3, 6, 8, 10); with the
    solfege names it is also set for Mi and Ti (semitones 4 and 11). *)
Theorem X21_accidental_flag :
  forall z settings,
    0 <= Z.rem z 12 ->
    option_map PitchUtils.isAccidental
      (PitchUtils.formatPitch (Fin z) settings)
    = Some match PitchUtils.format settings with
           | PitchUtils.solfege =>
               existsb (Z.eqb (Z.rem z 12)) [1; 3; 4; 6; 8; 10; 11]
           | _ => existsb (Z.eqb (Z.rem z 12)) [1; 3; 6; 8; 10]
           end.
Proof.
  intros z settings Hr.
  rewrite (LabelFacts.formatPitch_Fin z settings Hr).
  cbn [option_map PitchUtils.isAccidental]. f_equal.
  assert (Hlt : Z.rem z 12 < 12).
  { pose proof (Z.rem_bound_abs z 12). lia. }
  set (r := Z.rem z 12) in *.
  rewrite LabelFacts.named_flag by lia.
  assert (Hcases : r = 0 \/ r = 1 \/ r = 2 \/ r = 3 \/ r = 4 \/ r = 5
                   \/ r = 6 \/ r = 7 \/ r = 8 \/ r = 9 \/ r = 10 \/ r = 11)
    by lia.
  destruct (PitchUtils.format settings);
    repeat (destruct Hcases as [-> | Hcases]; [reflexivity|]);
    subst r; rewrite Hcases; reflexivity.
Qed.

Lemma X21_accidental_flag_witness :
  option_map PitchUtils.isAccidental
    (PitchUtils.formatPitch (Fin 64)
       (PitchUtils.mkSettings true PitchUtils.solfege PitchUtils.sharp true
          false PitchUtils.above (4 # 10)))
  = Some (existsb (Z.eqb (Z.rem 64 12)) [1; 3; 4; 6; 8; 10; 11]).
Proof.
  apply (X21_accidental_flag 64
           (PitchUtils.mkSettings true PitchUtils.solfege PitchUtils.sharp
              true false PitchUtils.above (4 # 10))).
  discriminate.
Defined.

(** X22. When octaves are shown, two pitches with the same label text are
    the same pitch; when they are not shown, the text only depends on the
    pitch class: it is the same twelve semitones higher. *)
Theorem X22_label_text_and_pitch :
  forall settings z z',
    0 <= Z.rem z 12 -> 0 <= Z.rem z' 12 ->
    let text p :=
      option_map PitchUtils.display (PitchUtils.formatPitch (Fin p) settings) in
    (PitchUtils.showOctave settings = true ->
     PitchUtils.format settings <> PitchUtils.note_only ->
     text z = text z' -> z = z')
    /\ ((PitchUtils.showOctave settings = false
         \/ PitchUtils.format settings = PitchUtils.note_only) ->
        Z.rem z 12 = Z.rem z' 12 -> text z = text z').
Proof.
  intros settings z z' Hr Hr' text. unfold text.
  rewrite (LabelFacts.formatPitch_Fin z settings Hr).
  rewrite (LabelFacts.formatPitch_Fin z' settings Hr').
  cbn [option_map PitchUtils.display].
  assert (Hlt : Z.rem z 12 < 12) by (pose proof (Z.rem_bound_abs z 12); lia).
  assert (Hlt' : Z.rem z' 12 < 12)
    by (pose proof (Z.rem_bound_abs z' 12); lia).
  split.
  - intros Hshow Hfmt E.
    assert (Hw : LabelFacts.withOctave settings = true).
    { unfold LabelFacts.withOctave. rewrite Hshow.
      destruct (PitchUtils.format settings); [reflexivity | | reflexivity].
      now contradiction Hfmt. }
    rewrite Hw in E. injection E as E.
    apply LabelFacts.split_unique in E as [En Eo];
      [| apply LabelFacts.named_plain; lia
       | apply LabelFacts.named_plain; lia].
    apply LabelFacts.named_inj in En; [|lia|lia].
    apply LabelFacts.pitch_of_parts; lia.
  - intros Hno Er.
    assert (Hw : LabelFacts.withOctave settings = false).
    { unfold LabelFacts.withOctave.
      destruct Hno as [-> | ->]; [reflexivity | apply andb_false_r]. }
    rewrite Hw, Er. reflexivity.
Qed.

Lemma X22_label_text_and_pitch_witness :
  let settings :=
    PitchUtils.mkSettings true PitchUtils.note_only PitchUtils.sharp true
      false PitchUtils.above (4 # 10) in
  option_map PitchUtils.display (PitchUtils.formatPitch (Fin 61) settings)
  = option_map PitchUtils.display (PitchUtils.formatPitch (Fin 73) settings).
Proof.
  intros settings.
  apply (proj2 (X22_label_text_and_pitch settings 61 73
                  ltac:(discriminate) ltac:(discriminate)));
    [right; reflexivity | reflexivity].
Defined.

(** ** The sheet and the spectrum bars *)

Module SheetFacts.

Import SheetMusic.
Local Open Scope Q_scope.

(** *** What the composer hands to the sheet *)

Lemma composed_times videoId startTime endTime n :
  0 <= startTime ->
  In n (Composer.generateDeterministicNotes videoId startTime endTime) ->
  0 <= start_time n /\ start_time n < endTime.
Proof.
  intros Hstart Hin.
  unfold Composer.generateDeterministicNotes in Hin.
  apply (proj1 (SortFacts.In_sortNotes _ _)) in Hin.
  unfold Composer.generated in Hin. cbv zeta in Hin.
  pose proof (ComposerFacts.setup_wf (Composer.seedOf videoId)) as HP.
  set (P := Composer.setup (Composer.seedOf videoId)) in *.
  pose proof (ComposerFacts.BAR_pos P HP) as Hpos.
  assert (Hbar : (0 <= Qfloor (startTime / Composer.BAR_DURATION P))%Z).
  { change 0%Z with (Qfloor 0). apply Qfloor_resp_le.
    apply Qle_shift_div_l; [assumption|]. now rewrite Qmult_0_l. }
  apply Placement.barLoop_placed in Hin as [bar [Hb Hp]].
  split; [|now apply (WindowFacts.placed_before_end P startTime endTime bar)].
  destruct (WindowFacts.placed_after_start P startTime endTime bar n Hp)
    as [H | [_ [-> _]]]; [now apply Qle_trans with startTime|].
  apply Qmult_le_0_compat; [|now apply Qlt_le_weak].
  change 0 with (inject_Z 0). rewrite <- Zle_Qle. lia.
Qed.

Lemma composed_confidence videoId startTime endTime n :
  In n (Composer.generateDeterministicNotes videoId startTime endTime) ->
  85 # 100 <= confidence n.
Proof.
  intros Hin.
  unfold Composer.generateDeterministicNotes in Hin.
  apply (proj1 (SortFacts.In_sortNotes _ _)) in Hin.
  unfold Composer.generated in Hin. cbv zeta in Hin.
  pose proof (ComposerFacts.setup_wf (Composer.seedOf videoId)) as HP.
  set (P := Composer.setup (Composer.seedOf videoId)) in *.
  pose proof (ComposerFacts.BEAT_pos P HP) as Hpos.
  match type of Hin with In n (fst (Composer.barLoop _ _ _ ?c ?b ?st)) =>
    pose proof (AttributeFacts.barLoop_shaped P startTime endTime Hpos c b st)
      as Hall
  end.
  rewrite List.Forall_forall in Hall.
  destruct (Hall n Hin) as [_ [_ [_ [_ [H _]]]]]. exact H.
Qed.

(** *** What the segmenter hands to the sheet *)

Definition Certain (n : Analyzer.RawNote) : Prop :=
  8 # 10 <= Analyzer.rawConfidence n.

Lemma step_certain sampleRate startTime i frame st :
  Forall Certain (Analyzer.notes st) ->
  Forall Certain (Analyzer.notes (Analyzer.step sampleRate startTime i frame st)).
Proof.
  intros H.
  assert (Hpush : forall conf, 8 # 10 <= conf ->
            Forall Certain (Analyzer.pushIfStable sampleRate startTime st i conf)).
  { intros conf Hc. unfold Analyzer.pushIfStable.
    destruct (4 <? Analyzer.framesInNote st)%Z; [|assumption].
    apply Forall_app_2; [assumption|]. repeat constructor. exact Hc. }
  destruct frame as [| | midiPitch]; cbn [Analyzer.step]; [|assumption|].
  - destruct (Analyzer.currentNoteStart st =? -1)%Z; [assumption|].
    cbn [Analyzer.notes]. apply Hpush. apply Qle_refl.
  - destruct (Analyzer.currentNoteStart st =? -1)%Z; [assumption|].
    destruct (JSInt.far midiPitch (Analyzer.currentNotePitch st));
      cbn [Analyzer.notes]; [|assumption].
    apply Hpush. discriminate.
Qed.

Lemma sweep_certain sampleRate startTime segmentData count : forall i st,
  Forall Certain (Analyzer.notes st) ->
  Forall Certain
    (Analyzer.notes (Analyzer.sweep sampleRate startTime segmentData count i st)).
Proof.
  induction count as [|count IH]; intros i st H; [assumption|].
  cbn [Analyzer.sweep]. apply IH. now apply step_certain.
Qed.

Lemma analysed_confidence audioBuffer startTime duration0 n :
  In n (Analyzer.analyzeAudioSegment audioBuffer startTime duration0) ->
  8 # 10 <= confidence n.
Proof.
  intros Hin. unfold Analyzer.analyzeAudioSegment in Hin.
  apply TimingFacts.mapIdx_In in Hin as [r [j [Hr ->]]].
  cbn [Analyzer.toEvent confidence].
  unfold Analyzer.rawNotes, Analyzer.closeFinal in Hr.
  match type of Hr with context [Analyzer.sweep ?a ?b ?c ?d ?e ?f] =>
    pose proof (sweep_certain a b c d e f) as Hall;
    set (st := Analyzer.sweep a b c d e f) in *
  end.
  assert (H0 : Forall Certain (Analyzer.notes st))
    by (apply Hall; constructor).
  rewrite List.Forall_forall in H0.
  destruct (negb (Analyzer.currentNoteStart st =? -1)%Z
            && (4 <? Analyzer.framesInNote st)%Z).
  - apply in_app_iff in Hr as [Hr | [<- | []]]; [exact (H0 r Hr)|].
    cbn [Analyzer.closing Analyzer.rawConfidence]. discriminate.
  - exact (H0 r Hr).
Qed.

(** *** One note on the sheet *)

(** The low-confidence mark needs a confidence below 0.8. *)
Lemma mark_needs_doubt selected settings n g :
  8 # 10 <= confidence n ->
  renderNote selected settings n = Some g ->
  lowConfidenceMark g = false.
Proof.
  intros Hc. unfold renderNote. cbv zeta.
  assert (E : Qltb (confidence n) (8 # 10) = false)
    by (now apply ComposerFacts.Qltb_false).
  destruct (PitchUtils.showLabels settings
            && Qgeb (confidence n) (PitchUtils.minConfidence settings)).
  - destruct (PitchUtils.formatPitch (midi_pitch n) settings);
      [|discriminate].
    intros [= <-]. cbn [lowConfidenceMark]. now rewrite E.
  - intros [= <-]. cbn [lowConfidenceMark]. now rewrite E.
Qed.

(** A note with a labelled pitch is drawn. *)
Lemma renderNote_defined selected settings n z :
  midi_pitch n = Fin z -> (0 <= z)%Z ->
  exists g,
    renderNote selected settings n = Some g
    /\ x g = PADDING_LEFT + start_time n * PIXELS_PER_SECOND
    /\ y g = Finite (80 - inject_Z (z - 71) * (STAFF_LINE_SPACING / 2)).
Proof.
  intros Hp Hz. unfold renderNote. cbv zeta. rewrite Hp.
  assert (Hr : (0 <= Z.rem z 12)%Z) by (apply Z.rem_nonneg; lia).
  rewrite (LabelFacts.formatPitch_Fin z settings Hr).
  destruct (PitchUtils.showLabels settings && _);
    eexists; (split; [reflexivity|]); split; reflexivity.
Qed.

(** *** The ruler *)

Lemma rulerFrom_seconds count : forall s width t,
  In t (rulerFrom count s width) ->
  (s <= second t < s + Z.of_nat count)%Z
  /\ tickX t = PADDING_LEFT + inject_Z (second t) * PIXELS_PER_SECOND
  /\ tickX t <= width
  /\ isMajor t = (Z.rem (second t) 5 =? 0)%Z
  /\ tickLabel t = if isMajor t then Some (timeLabel (second t)) else None.
Proof.
  induction count as [|count IH]; intros s width t; cbn [rulerFrom];
    [intros []|].
  destruct (Qgtb _ width) eqn:E; [intros []|].
  apply ComposerFacts.Qltb_false in E.
  intros [<- | Hin].
  - cbn [second tickX isMajor tickLabel].
    repeat split; try reflexivity; try lia. exact E.
  - destruct (IH _ _ _ Hin) as [H1 H2]. split; [lia | exact H2].
Qed.

Lemma rulerFrom_has count : forall s width k,
  (s <= k < s + Z.of_nat count)%Z ->
  PADDING_LEFT + inject_Z k * PIXELS_PER_SECOND <= width ->
  exists t, In t (rulerFrom count s width) /\ second t = k.
Proof.
  induction count as [|count IH]; intros s width k Hk Hx; [lia|].
  cbn [rulerFrom].
  assert (Hs : PADDING_LEFT + inject_Z s * PIXELS_PER_SECOND <= width).
  { apply Qle_trans with (PADDING_LEFT + inject_Z k * PIXELS_PER_SECOND);
      [|assumption].
    apply Qplus_le_r. apply Qmult_le_compat_r; [|discriminate].
    rewrite <- Zle_Qle. lia. }
  destruct (Qgtb _ width) eqn:E.
  { apply ComposerFacts.Qltb_true in E. now apply Qle_not_lt in Hs. }
  destruct (Z.eq_dec k s) as [-> | Hne].
  - eexists. split; [left; reflexivity | reflexivity].
  - destruct (IH (s + 1)%Z width k) as [t [Ht Hsec]]; [lia | assumption|].
    exists t. split; [now right | assumption].
Qed.

End SheetFacts.

(** X23. Every note that the composer returns for a window that starts at
    a non-negative time is drawn, under every label setting: its head lies
    at or right of the left padding, at least 100 pixels left of the right
    edge for a window that ends by the total duration, and between the
    heights 0 and 265 of the 320 pixel canvas; the low-confidence mark is
    not drawn. *)
Theorem X23_composed_notes_fit_the_sheet :
  forall videoId startTime endTime totalDuration selected settings n,
    (0 <= startTime)%Q -> (endTime <= totalDuration)%Q ->
    In n (Composer.generateDeterministicNotes videoId startTime endTime) ->
    exists g height,
      SheetMusic.renderNote selected settings n = Some g
      /\ (SheetMusic.PADDING_LEFT <= SheetMusic.x g)%Q
      /\ (SheetMusic.x g + 100 < SheetMusic.totalWidth totalDuration)%Q
      /\ SheetMusic.y g = Finite height
      /\ (0 <= height <= 265)%Q
      /\ SheetMusic.lowConfidenceMark g = false.
Proof.
  intros videoId startTime endTime totalDuration selected settings n
    Hstart Hend Hin.
  destruct (composed_pitches videoId startTime endTime n Hstart Hin)
    as [z [Hz Hrange]].
  destruct (SheetFacts.composed_times videoId startTime endTime n Hstart Hin)
    as [Ht0 Ht1].
  pose proof (SheetFacts.composed_confidence videoId startTime endTime n Hin)
    as Hc.
  destruct (SheetFacts.renderNote_defined selected settings n z Hz)
    as [g [Hg [Hx Hy]]]; [lia|].
  exists g. eexists. split; [exact Hg|].
  rewrite Hx. unfold SheetMusic.PADDING_LEFT, SheetMusic.PIXELS_PER_SECOND.
  split; [lra|]. split.
  - unfold SheetMusic.totalWidth, SheetMusic.PADDING_LEFT,
      SheetMusic.PIXELS_PER_SECOND. cbv zeta.
    assert (H1 : (totalDuration <= Qmax 1 totalDuration)%Q).
    { unfold Qmax. destruct (Qle_bool 1 totalDuration) eqn:E;
        [apply Qle_refl|].
      apply Qlt_le_weak, Qnot_le_lt. intros H.
      apply Qle_bool_iff in H. congruence. }
    set (m := Qmax 1 totalDuration) in *.
    assert (H2 : (40 + m * 80 + 100 <= Qmax 1000 (40 + m * 80 + 100))%Q).
    { unfold Qmax. destruct (Qle_bool 1000 (40 + m * 80 + 100)) eqn:E;
        [apply Qle_refl|].
      apply Qlt_le_weak, Qnot_le_lt. intros H.
      apply Qle_bool_iff in H. congruence. }
    lra.
  - split; [exact Hy|]. split.
    + unfold SheetMusic.STAFF_LINE_SPACING.
      assert (H1 : (inject_Z 34 <= inject_Z z)%Q) by (rewrite <- Zle_Qle; lia).
      assert (H2 : (inject_Z z <= inject_Z 87)%Q) by (rewrite <- Zle_Qle; lia).
      change (inject_Z 34) with 34%Q in H1. change (inject_Z 87) with 87%Q in H2.
      unfold Zminus. rewrite inject_Z_plus, inject_Z_opp.
      change (inject_Z 71) with 71%Q.
      assert (E : (10 / 2 == 5)%Q) by reflexivity.
      rewrite E. split; lra.
    + apply (SheetFacts.mark_needs_doubt selected settings n g); [lra | exact Hg].
Qed.

Lemma X23_composed_notes_fit_the_sheet_witness :
  let n := nth 0 (Composer.generateDeterministicNotes "test" 0 4)
             (mkNote "" 0 0 NaN 0 0) in
  let settings :=
    PitchUtils.mkSettings true PitchUtils.scientific PitchUtils.sharp true
      false PitchUtils.above (4 # 10) in
  exists g height,
    SheetMusic.renderNote None settings n = Some g
    /\ (SheetMusic.PADDING_LEFT <= SheetMusic.x g)%Q
    /\ (SheetMusic.x g + 100 < SheetMusic.totalWidth 30)%Q
    /\ SheetMusic.y g = Finite height
    /\ (0 <= height <= 265)%Q
    /\ SheetMusic.lowConfidenceMark g = false.
Proof.
  intros n settings.
  apply (X23_composed_notes_fit_the_sheet "test" 0%Q 4%Q 30%Q None settings n).
  - discriminate.
  - discriminate.
  - vm_compute. left. reflexivity.
Defined.

(** X24. A note that the segmenter returns is never drawn with the
    low-confidence mark: its confidence is 0.8 or 0.85, and the mark is
    kept for confidences below 0.8. *)
Theorem X24_analysed_notes_are_never_marked_doubtful :
  forall audioBuffer startTime duration0 selected settings n,
    In n (Analyzer.analyzeAudioSegment audioBuffer startTime duration0) ->
    match SheetMusic.renderNote selected settings n with
    | Some g => SheetMusic.lowConfidenceMark g = false
    | None => True
    end.
Proof.
  intros audioBuffer startTime duration0 selected settings n Hin.
  destruct (SheetMusic.renderNote selected settings n) as [g|] eqn:E;
    [|exact I].
  apply (SheetFacts.mark_needs_doubt selected settings n g); [|exact E].
  exact (SheetFacts.analysed_confidence audioBuffer startTime duration0 n Hin).
Qed.

Lemma X24_analysed_notes_are_never_marked_doubtful_witness :
  let n := nth 0 (Analyzer.analyzeAudioSegment
                    (Analyzer.mkBuffer 44100 Signals.tone) 0 1)
             ToneFacts.noNote in
  match SheetMusic.renderNote None
          (PitchUtils.mkSettings false PitchUtils.scientific PitchUtils.sharp
             true false PitchUtils.above (4 # 10)) n with
  | Some g => SheetMusic.lowConfidenceMark g = false
  | None => True
  end.
Proof.
  intros n.
  apply (X24_analysed_notes_are_never_marked_doubtful
           (Analyzer.mkBuffer 44100 Signals.tone) 0%Q 1%Q).
  exact ToneFacts.tone_first.
Defined.

(** X25. The ruler has one tick for every whole second whose abscissa
    [40 + 80 s] fits the width, and no other; the bound on the seconds of
    the loop is never what ends it.  A tick is major, and labelled, exactly
    every fifth second.  On a sheet as wide as [totalWidth] gives it,
    every whole second of the audio has its tick. *)
Theorem X25_ruler_ticks :
  forall width,
    (forall k,
       (exists t, In t (SheetMusic.renderRuler width) /\ SheetMusic.second t = k)
       <-> 0 <= k
           /\ (SheetMusic.PADDING_LEFT
               + inject_Z k * SheetMusic.PIXELS_PER_SECOND <= width)%Q)
    /\ (forall t, In t (SheetMusic.renderRuler width) ->
          SheetMusic.isMajor t = (Z.rem (SheetMusic.second t) 5 =? 0)
          /\ SheetMusic.tickLabel t
             = if SheetMusic.isMajor t
               then Some (SheetMusic.timeLabel (SheetMusic.second t))
               else None)
    /\ (forall totalDuration k,
          width = SheetMusic.totalWidth totalDuration ->
          0 <= k -> (inject_Z k <= totalDuration)%Q ->
          exists t, In t (SheetMusic.renderRuler width)
                    /\ SheetMusic.second t = k).
Proof.
  intros width.
  assert (Hiff : forall k,
     (exists t, In t (SheetMusic.renderRuler width) /\ SheetMusic.second t = k)
     <-> 0 <= k
         /\ (SheetMusic.PADDING_LEFT
             + inject_Z k * SheetMusic.PIXELS_PER_SECOND <= width)%Q).
  { intros k. unfold SheetMusic.renderRuler. cbv zeta. split.
    - intros [t [Hin <-]].
      apply SheetFacts.rulerFrom_seconds in Hin as [H1 [H2 [H3 _]]].
      split; [lia|]. now rewrite <- H2.
    - intros [Hk Hx].
      apply SheetFacts.rulerFrom_has; [|assumption].
      split; [lia|].
      unfold SheetMusic.PADDING_LEFT, SheetMusic.PIXELS_PER_SECOND in *.
      assert (Hlt : (inject_Z k < width / 80)%Q).
      { apply Qlt_shift_div_l; [reflexivity|]. lra. }
      pose proof (Qle_ceiling (width / 80)) as Hc.
      assert (Hkc : (inject_Z k < inject_Z (Qceiling (width / 80)))%Q)
        by (eapply Qlt_le_trans; eassumption).
      rewrite <- Zlt_Qlt in Hkc. lia. }
  split; [exact Hiff|]. split.
  - intros t Hin. unfold SheetMusic.renderRuler in Hin. cbv zeta in Hin.
    apply SheetFacts.rulerFrom_seconds in Hin as [_ [_ [_ [H4 H5]]]].
    split; assumption.
  - intros totalDuration k -> Hk Hd. apply Hiff. split; [assumption|].
    unfold SheetMusic.totalWidth, SheetMusic.PADDING_LEFT,
      SheetMusic.PIXELS_PER_SECOND. cbv zeta.
    assert (H1 : (totalDuration <= Qmax 1 totalDuration)%Q).
    { unfold Qmax. destruct (Qle_bool 1 totalDuration) eqn:E;
        [apply Qle_refl|].
      apply Qlt_le_weak, Qnot_le_lt. intros H.
      apply Qle_bool_iff in H. congruence. }
    set (m := Qmax 1 totalDuration) in *.
    assert (H2 : (40 + m * 80 + 100 <= Qmax 1000 (40 + m * 80 + 100))%Q).
    { unfold Qmax. destruct (Qle_bool 1000 (40 + m * 80 + 100)) eqn:E;
        [apply Qle_refl|].
      apply Qlt_le_weak, Qnot_le_lt. intros H.
      apply Qle_bool_iff in H. congruence. }
    lra.
Qed.

Lemma X25_ruler_ticks_witness :
  exists t, In t (SheetMusic.renderRuler (SheetMusic.totalWidth 30))
            /\ SheetMusic.second t = 30.
Proof.
  apply (proj2 (proj2 (X25_ruler_ticks (SheetMusic.totalWidth 30))) 30%Q 30);
    [reflexivity | lia | discriminate].
Defined.

Module BarsFacts.

Import Equalizer.
Local Open Scope Q_scope.

Lemma byte_range (b : Byte.byte) :
  0 <= inject_Z (Z.of_N (Byte.to_N b)) /\ inject_Z (Z.of_N (Byte.to_N b)) <= 255.
Proof.
  pose proof (Byte.to_N_bounded b) as H.
  split.
  - change 0 with (inject_Z 0). rewrite <- Zle_Qle. lia.
  - change 255 with (inject_Z 255). rewrite <- Zle_Qle. lia.
Qed.

(** The geometry of the bars drawn from abscissa [x0]. *)
Lemma drawFrom_geometry data : forall x0 bw width height r,
  0 <= x0 -> x0 <= inject_Z width -> 0 <= bw -> (0 <= height)%Z ->
  In r (drawFrom data x0 bw width height) ->
  x0 <= left r /\ left r <= inject_Z width
  /\ 0 <= rectHeight r /\ rectHeight r <= inject_Z height
  /\ top r + rectHeight r == inject_Z height
  /\ rectWidth r = bw.
Proof.
  induction data as [|b rest IH]; intros x0 bw width height r H0 Hw Hb Hh;
    cbn [drawFrom]; [intros []|].
  destruct (byte_range b) as [B0 B1].
  assert (HH : 0 <= inject_Z height).
  { change 0 with (inject_Z 0). now rewrite <- Zle_Qle. }
  set (v := inject_Z (Z.of_N (Byte.to_N b))) in *.
  assert (Hbar : 0 <= v / 255 * inject_Z height
                 /\ v / 255 * inject_Z height <= inject_Z height).
  { assert (E0 : 0 <= v / 255) by (apply Qle_shift_div_l; [reflexivity | lra]).
    assert (E1 : v / 255 <= 1) by (apply Qle_shift_div_r; [reflexivity | lra]).
    split; [now apply Qmult_le_0_compat|].
    rewrite <- (Qmult_1_l (inject_Z height)) at 2.
    now apply Qmult_le_compat_r. }
  assert (Hfirst : forall r0,
            r0 = {| left := x0; top := inject_Z height - v / 255 * inject_Z height;
                    rectWidth := bw; rectHeight := v / 255 * inject_Z height |} ->
            x0 <= left r0 /\ left r0 <= inject_Z width
            /\ 0 <= rectHeight r0 /\ rectHeight r0 <= inject_Z height
            /\ top r0 + rectHeight r0 == inject_Z height
            /\ rectWidth r0 = bw).
  { intros r0 ->. cbn [left top rectWidth rectHeight].
    repeat split; try tauto; lra. }
  destruct (Qgtb (x0 + (bw + 1)) (inject_Z width)) eqn:E.
  - intros [<- | []]. now apply Hfirst.
  - apply ComposerFacts.Qltb_false in E.
    intros [<- | Hin]; [now apply Hfirst|].
    assert (Hx : 0 <= x0 + (bw + 1)) by lra.
    destruct (IH _ _ _ _ _ Hx E Hb Hh Hin) as [H1 H2].
    split; [lra | exact H2].
Qed.

(** The last bar drawn starts inside the canvas. *)
Lemma drawFrom_count data : forall x0 bw width height,
  x0 <= inject_Z width ->
  data <> [] ->
  x0 + (inject_Z (Z.of_nat (length (drawFrom data x0 bw width height))) - 1)
       * (bw + 1)
  <= inject_Z width
  /\ (1 <= length (drawFrom data x0 bw width height) <= length data)%nat.
Proof.
  induction data as [|b rest IH]; intros x0 bw width height Hw Hne;
    [contradiction|].
  cbn [drawFrom].
  destruct (Qgtb (x0 + (bw + 1)) (inject_Z width)) eqn:E.
  - cbn [length]. split; [|lia]. change (inject_Z (Z.of_nat 1)) with 1. lra.
  - apply ComposerFacts.Qltb_false in E.
    destruct rest as [|b' rest'].
    + cbn [drawFrom length]. split; [|lia].
      change (inject_Z (Z.of_nat 1)) with 1. lra.
    + assert (Hne' : b' :: rest' <> []) by discriminate.
      destruct (IH (x0 + (bw + 1)) bw width height E Hne') as [H1 H2].
      set (tail := drawFrom (b' :: rest') (x0 + (bw + 1)) bw width height) in *.
      change (length (_ :: tail)) with (S (length tail)).
      split; [|cbn [length] in *; lia].
      rewrite Nat2Z.inj_succ. unfold Z.succ. rewrite inject_Z_plus.
      change (inject_Z 1) with 1.
      set (L := inject_Z (Z.of_nat (length tail))) in *.
      assert (Ering : x0 + (L + 1 - 1) * (bw + 1)
                      == x0 + (bw + 1) + (L - 1) * (bw + 1)) by ring.
      lra.
Qed.

End BarsFacts.

(** X26. One call of [draw] on a canvas of positive width fills at most
    two fifths of the frequency bins, plus one: five times the number of
    bars less one is at most twice the number of bins, so the upper three
    fifths of the spectrum are never shown.  Every bar starts inside the
    canvas and reaches from its top, which is not negative, down to the
    bottom edge. *)
Theorem X26_spectrum_bars :
  forall data width height,
    0 < width -> 0 <= height ->
    (5 * (length (Equalizer.draw data width height) - 1)
     <= 2 * length data)%nat
    /\ (length (Equalizer.draw data width height) <= length data)%nat
    /\ forall r, In r (Equalizer.draw data width height) ->
         (0 <= Equalizer.left r /\ Equalizer.left r <= inject_Z width
          /\ 0 <= Equalizer.top r
          /\ Equalizer.top r + Equalizer.rectHeight r == inject_Z height)%Q.
Proof.
  intros data width height Hw Hh.
  assert (HW : (0 < inject_Z width)%Q).
  { change 0%Q with (inject_Z 0). now rewrite <- Zlt_Qlt. }
  unfold Equalizer.draw.
  destruct data as [|b rest] eqn:Hdata.
  { cbn. split; [lia|]. split; [lia|]. intros r []. }
  rewrite <- Hdata.
  assert (Hne : data <> []) by (rewrite Hdata; discriminate).
  set (n := length data).
  assert (Hn : (1 <= n)%nat) by (unfold n; rewrite Hdata; cbn; lia).
  assert (HN : (1 <= inject_Z (Z.of_nat n))%Q).
  { change 1%Q with (inject_Z 1). rewrite <- Zle_Qle. lia. }
  set (bw := Equalizer.barWidth width n).
  assert (Hbw : (bw * inject_Z (Z.of_nat n) == inject_Z width * (25 # 10))%Q).
  { unfold bw, Equalizer.barWidth. field. intros Hz. lra. }
  assert (Hbw0 : (0 <= bw)%Q).
  { unfold bw, Equalizer.barWidth.
    apply Qmult_le_0_compat; [|discriminate].
    apply Qle_shift_div_l; [lra|]. lra. }
  destruct (BarsFacts.drawFrom_count data 0 bw width height
              (Qlt_le_weak _ _ HW) Hne) as [Hc [Hc1 Hc2]].
  set (L := length (Equalizer.drawFrom data 0 bw width height)) in *.
  split; [|split; [exact Hc2|]].
  - (* (L - 1) * (bw + 1) <= width and bw * n = 2.5 * width *)
    assert (HL : (1 <= inject_Z (Z.of_nat L))%Q).
    { change 1%Q with (inject_Z 1). rewrite <- Zle_Qle. lia. }
    set (l := inject_Z (Z.of_nat L)) in *.
    set (N := inject_Z (Z.of_nat n)) in *.
    assert (Hmul : ((l - 1) * (bw + 1) * N <= inject_Z width * N)%Q).
    { apply Qmult_le_compat_r; lra. }
    assert (Hexp : ((l - 1) * (bw + 1) * N
                    == (l - 1) * (bw * N) + (l - 1) * N)%Q) by ring.
    rewrite Hexp, Hbw in Hmul.
    assert (Hkey : ((l - 1) * (25 # 10) <= N)%Q).
    { assert (Hnn : (0 <= (l - 1) * N)%Q)
        by (apply Qmult_le_0_compat; lra).
      assert (Hcmp : ((l - 1) * (inject_Z width * (25 # 10))
                      <= inject_Z width * N)%Q) by lra.
      assert (Hre : ((l - 1) * (inject_Z width * (25 # 10))
                     == inject_Z width * ((l - 1) * (25 # 10)))%Q) by ring.
      rewrite Hre in Hcmp.
      apply Qmult_lt_0_le_reg_r with (z := inject_Z width); [assumption|].
      rewrite (Qmult_comm _ (inject_Z width)), (Qmult_comm N).
      exact Hcmp. }
    assert (Hz : (inject_Z (5 * (Z.of_nat L - 1)) <= inject_Z (2 * Z.of_nat n))%Q).
    { rewrite !inject_Z_mult. unfold Zminus.
      rewrite inject_Z_plus, inject_Z_opp.
      fold l N. change (inject_Z 5) with 5%Q. change (inject_Z 2) with 2%Q.
      change (inject_Z 1) with 1%Q. lra. }
    rewrite <- Zle_Qle in Hz. lia.
  - intros r Hin.
    destruct (BarsFacts.drawFrom_geometry data 0 bw width height r
                (Qle_refl 0) (Qlt_le_weak _ _ HW) Hbw0 Hh Hin)
      as [H1 [H2 [H3 [H4 [H5 _]]]]].
    repeat split; try assumption. lra.
Qed.

Lemma X26_spectrum_bars_witness :
  (5 * (length (Equalizer.draw (repeat Byte.xff 1024) 300 150) - 1)
   <= 2 * length (repeat Byte.xff 1024))%nat.
Proof.
  apply (X26_spectrum_bars (repeat Byte.xff 1024) 300 150); lia.
Defined.

(** ** The rhythm engine *)

Module RhythmFacts.

Import Rhythm.
Local Open Scope Q_scope.

(** *** The loop and the tempo *)

Lemma halfBeat_nonzero bpm :
  ~ bpm == 0 -> halfBeat bpm = Finite ((60 / bpm) * (1 # 2)).
Proof.
  intros H. unfold halfBeat.
  destruct (Qeq_bool bpm 0) eqn:E; [|reflexivity].
  apply Qeq_bool_iff in E. contradiction.
Qed.

Lemma halfBeat_sign bpm :
  ~ bpm == 0 -> (60 / bpm) * (1 # 2) == 30 / bpm.
Proof. intros H. now field. Qed.

Lemma due_Finite t now : due (Finite t) now = true <-> t < now + (1 # 10).
Proof. apply ComposerFacts.Qltb_true. Qed.

Lemma not_due_Finite t now :
  due (Finite t) now = false <-> now + (1 # 10) <= t.
Proof. apply ComposerFacts.Qltb_false. Qed.

Definition hitsOf (pattern : RhythmPattern.t) (now idx : Q) : list Hit :=
  map (fun step => mkHit now (sound step) (velocity step))
    (sounding pattern idx).

(** With a positive step the loop ends: [k] iterations are enough when
    [k] steps cover the distance to the horizon; it makes the least number
    [j] of steps that reaches the horizon. *)
Lemma scheduleLoop_ends pattern h now (k : nat) : forall t0 idx hits fuel,
  0 < h ->
  now + (1 # 10) - t0 <= inject_Z (Z.of_nat k) * h ->
  (k <= fuel)%nat ->
  exists t idx' hits' (j : nat),
    scheduleLoop fuel pattern (Finite h) now (Finite t0) idx hits
    = Some (Finite t, idx', hits')
    /\ t == t0 + inject_Z (Z.of_nat j) * h
    /\ now + (1 # 10) <= t
    /\ (j = O \/ t - h < now + (1 # 10)).
Proof.
  induction k as [|k IH]; intros t0 idx hits fuel Hh Hk Hfuel.
  - change (inject_Z (Z.of_nat 0)) with 0 in Hk.
    assert (Hle : now + (1 # 10) <= t0) by lra.
    assert (Hnot : due (Finite t0) now = false) by (now apply not_due_Finite).
    exists t0, idx, hits, O.
    destruct fuel; cbn [scheduleLoop]; rewrite Hnot;
      (split; [reflexivity|]);
      (split; [change (inject_Z (Z.of_nat 0)) with 0; ring|]);
      (split; [exact Hle | now left]).
  - destruct (due (Finite t0) now) eqn:Hdue.
    + destruct fuel as [|fuel]; [lia|].
      cbn [scheduleLoop]. rewrite Hdue. cbn [plus].
      apply due_Finite in Hdue.
      destruct (IH (t0 + h) (advanceBeat pattern idx)
                  (hits ++ map (fun step => mkHit now (sound step) (velocity step))
                             (sounding pattern idx)) fuel Hh)
        as [t [idx' [hits' [j [E [Ht [H1 H2]]]]]]].
      * rewrite Nat2Z.inj_succ in Hk. unfold Z.succ in Hk.
        rewrite inject_Z_plus in Hk. change (inject_Z 1) with 1 in Hk.
        assert (Er : (inject_Z (Z.of_nat k) + 1) * h
                     == inject_Z (Z.of_nat k) * h + h) by ring.
        lra.
      * lia.
      * exists t, idx', hits', (S j). split; [exact E|]. split.
        { rewrite Ht, Nat2Z.inj_succ. unfold Z.succ.
          rewrite inject_Z_plus. change (inject_Z 1) with 1. ring. }
        split; [exact H1|]. right.
        destruct H2 as [-> | H2]; [|exact H2].
        change (inject_Z (Z.of_nat 0)) with 0 in Ht. lra.
    + exists t0, idx, hits, O.
      destruct fuel; cbn [scheduleLoop]; rewrite Hdue;
        (split; [reflexivity|]);
        (split; [change (inject_Z (Z.of_nat 0)) with 0; ring|]);
        (split; [now apply not_due_Finite | now left]).
Qed.

(** Steps enough to cover a distance. *)
Lemma enough_steps d h :
  0 < h -> exists k : nat, d <= inject_Z (Z.of_nat k) * h.
Proof.
  intros Hh. exists (Z.to_nat (Qceiling (d / h))).
  assert (E : d == d / h * h).
  { field. intros Hz. rewrite Hz in Hh. now apply Qlt_irrefl in Hh. }
  rewrite E at 1. apply Qmult_le_compat_r; [|now apply Qlt_le_weak].
  apply Qle_trans with (inject_Z (Qceiling (d / h))); [apply Qle_ceiling|].
  rewrite <- Zle_Qle. lia.
Qed.

(** With a negative step the loop test holds for ever. *)
Lemma scheduleLoop_diverges pattern h now fuel : forall t0 idx hits,
  h < 0 -> t0 < now + (1 # 10) ->
  scheduleLoop fuel pattern (Finite h) now (Finite t0) idx hits = None.
Proof.
  induction fuel as [|fuel IH]; intros t0 idx hits Hh Ht;
    cbn [scheduleLoop];
    assert (Hdue : due (Finite t0) now = true) by (now apply due_Finite);
    rewrite Hdue; [reflexivity|].
  cbn [plus]. apply IH; [assumption | lra].
Qed.

(** An infinite time is never due. *)
Lemma scheduleLoop_stalled pattern half now fuel idx hits :
  scheduleLoop fuel pattern half now (Infinite true) idx hits
  = Some (Infinite true, idx, hits).
Proof. destruct fuel; reflexivity. Qed.

(** *** The positions of the loop *)

(** A position inside the pattern, on the grid of half beats. *)
Definition OnGrid (L idx : Q) : Prop :=
  0 <= idx /\ idx < L /\ exists k : Z, idx == inject_Z k / 2.

Lemma remainder_inside a b :
  0 <= a -> a < b -> exists r, remainder a b = Some r /\ r == a.
Proof.
  intros H0 Hb. unfold remainder.
  assert (Hpos : 0 < b) by lra.
  destruct (Qeq_bool b 0) eqn:E.
  { apply Qeq_bool_iff in E. lra. }
  eexists. split; [reflexivity|].
  assert (Hq0 : 0 <= a / b).
  { apply Qle_shift_div_l; [assumption|]. lra. }
  assert (Hq1 : a / b < 1).
  { apply Qlt_shift_div_r; [assumption|]. lra. }
  unfold truncate.
  assert (Hle : Qle_bool 0 (a / b) = true) by (now apply Qle_bool_iff).
  rewrite Hle.
  assert (Hf : Qfloor (a / b) = 0%Z).
  { assert (H1 : (0 <= Qfloor (a / b))%Z).
    { change 0%Z with (Qfloor 0). now apply Qfloor_resp_le. }
    assert (H2 : (Qfloor (a / b) < 1)%Z).
    { rewrite Zlt_Qlt. apply Qle_lt_trans with (a / b); [apply Qfloor_le|].
      exact Hq1. }
    lia. }
  rewrite Hf. change (inject_Z 0) with 0. ring.
Qed.

Lemma Qltb_proper a a' b : a == a' -> Qltb a b = Qltb a' b.
Proof.
  intros E. unfold Qltb. f_equal.
  destruct (Qle_bool b a) eqn:H1, (Qle_bool b a') eqn:H2; try reflexivity.
  - apply Qle_bool_iff in H1. rewrite E in H1.
    apply Qle_bool_iff in H1. congruence.
  - apply Qle_bool_iff in H2. rewrite <- E in H2.
    apply Qle_bool_iff in H2. congruence.
Qed.

(** On the grid, the steps that sound are those within 0.01 of the
    position. *)
Lemma sounding_spec pattern idx step :
  OnGrid (RhythmPattern.length pattern) idx ->
  In step (sounding pattern idx)
  <-> In step (RhythmPattern.steps pattern)
      /\ Qabs (beat step - idx) < 1 # 100.
Proof.
  intros [H0 [H1 _]]. unfold sounding.
  destruct (remainder_inside idx (RhythmPattern.length pattern) H0 H1)
    as [r [-> Er]].
  rewrite filter_In.
  assert (E : Qltb (Qabs (beat step - r)) (1 # 100)
              = Qltb (Qabs (beat step - idx)) (1 # 100)).
  { apply Qltb_proper. now rewrite Er. }
  rewrite E, ComposerFacts.Qltb_true. reflexivity.
Qed.

Lemma advanceBeat_grid pattern idx :
  0 < RhythmPattern.length pattern ->
  OnGrid (RhythmPattern.length pattern) idx ->
  OnGrid (RhythmPattern.length pattern) (advanceBeat pattern idx).
Proof.
  intros HL [H0 [H1 [k Hk]]]. unfold advanceBeat. cbv zeta.
  destruct (Qgeb (idx + (1 # 2)) (RhythmPattern.length pattern)) eqn:E.
  - split; [apply Qle_refl|]. split; [assumption|].
    exists 0%Z. reflexivity.
  - assert (Hlt : idx + (1 # 2) < RhythmPattern.length pattern).
    { apply Qnot_le_lt. intros H. apply Qle_bool_iff in H.
      unfold Qgeb in E. congruence. }
    split; [lra|]. split; [assumption|].
    exists (k + 1)%Z. rewrite Hk, inject_Z_plus. change (inject_Z 1) with 1.
    field.
Qed.

(** What one call of the loop adds to the sounds. *)
Definition FromGrid (pattern : RhythmPattern.t) (now : Q) (h : Hit) : Prop :=
  at_time h = now
  /\ exists step (k : Z),
       In step (RhythmPattern.steps pattern)
       /\ hit_sound h = sound step /\ hit_velocity h = velocity step
       /\ (0 <= k)%Z
       /\ inject_Z k / 2 < RhythmPattern.length pattern
       /\ Qabs (beat step - inject_Z k / 2) < 1 # 100.

Lemma hits_from_grid pattern now idx h :
  OnGrid (RhythmPattern.length pattern) idx ->
  In h (hitsOf pattern now idx) -> FromGrid pattern now h.
Proof.
  intros HG Hin. unfold hitsOf in Hin.
  apply in_map_iff in Hin as [step [<- Hs]].
  apply (sounding_spec pattern idx step HG) in Hs as [Hs Hd].
  destruct HG as [H0 [H1 [k Hk]]].
  split; [reflexivity|].
  exists step, k. cbn [hit_sound hit_velocity].
  split; [assumption|]. split; [reflexivity|]. split; [reflexivity|].
  split.
  - rewrite Hk in H0.
    assert (Hk0 : 0 <= inject_Z k).
    { assert (Ex : inject_Z k == inject_Z k / 2 * 2) by field. lra. }
    change 0 with (inject_Z 0) in Hk0. now rewrite <- Zle_Qle in Hk0.
  - split; [now rewrite <- Hk|].
    assert (E : Qabs (beat step - inject_Z k / 2) == Qabs (beat step - idx)).
    { now rewrite Hk. }
    now rewrite E.
Qed.

Lemma scheduleLoop_grid pattern half now fuel : forall t idx hits t' idx' hits',
  0 < RhythmPattern.length pattern ->
  OnGrid (RhythmPattern.length pattern) idx ->
  scheduleLoop fuel pattern half now t idx hits = Some (t', idx', hits') ->
  OnGrid (RhythmPattern.length pattern) idx'
  /\ exists new, hits' = hits ++ new /\ Forall (FromGrid pattern now) new.
Proof.
  induction fuel as [|fuel IH]; intros t idx hits t' idx' hits' HL HG;
    cbn [scheduleLoop]; destruct (due t now); try discriminate.
  - intros [= <- <- <-]. split; [assumption|].
    exists []. split; [now rewrite app_nil_r | constructor].
  - intros E.
    apply IH in E as [HG' [new [-> Hnew]]];
      [|assumption | now apply advanceBeat_grid].
    split; [assumption|].
    exists (hitsOf pattern now idx ++ new).
    split; [unfold hitsOf; now rewrite app_assoc|].
    apply Forall_app_2; [|assumption].
    apply List.Forall_forall. intros h Hh.
    now apply (hits_from_grid pattern now idx).
  - intros [= <- <- <-]. split; [assumption|].
    exists []. split; [now rewrite app_nil_r | constructor].
Qed.

(** *** One cycle of the pattern *)

Lemma advanceBeat_value pattern (m k : Z) idx :
  RhythmPattern.length pattern == inject_Z m / 2 ->
  idx == inject_Z k / 2 ->
  ((k + 1 < m)%Z -> advanceBeat pattern idx == inject_Z (k + 1) / 2)
  /\ ((m <= k + 1)%Z -> advanceBeat pattern idx = 0).
Proof.
  intros HL Hk. unfold advanceBeat. cbv zeta.
  assert (E : idx + (1 # 2) == inject_Z (k + 1) / 2).
  { rewrite Hk, inject_Z_plus. change (inject_Z 1) with 1. field. }
  split; intros H.
  - destruct (Qgeb (idx + (1 # 2)) (RhythmPattern.length pattern)) eqn:G;
      [|exact E].
    apply ComposerFacts.Qgeb_true in G. rewrite HL, E in G.
    assert (Hz : inject_Z m <= inject_Z (k + 1)).
    { assert (E1 : inject_Z m == inject_Z m / 2 * 2) by field.
      assert (E2 : inject_Z (k + 1) == inject_Z (k + 1) / 2 * 2) by field.
      lra. }
    rewrite <- Zle_Qle in Hz. lia.
  - destruct (Qgeb (idx + (1 # 2)) (RhythmPattern.length pattern)) eqn:G;
      [reflexivity|].
    exfalso.
    assert (Hlt : idx + (1 # 2) < RhythmPattern.length pattern).
    { apply Qnot_le_lt. intros Hle. apply Qle_bool_iff in Hle.
      unfold Qgeb in G. congruence. }
    rewrite HL, E in Hlt.
    assert (Hz : inject_Z (k + 1) < inject_Z m).
    { assert (E1 : inject_Z m == inject_Z m / 2 * 2) by field.
      assert (E2 : inject_Z (k + 1) == inject_Z (k + 1) / 2 * 2) by field.
      lra. }
    rewrite <- Zlt_Qlt in Hz. lia.
Qed.

Lemma cycle_positions pattern (m : nat) :
  RhythmPattern.length pattern == inject_Z (Z.of_nat m) / 2 ->
  forall k : nat, (k < m)%nat ->
    Nat.iter k (advanceBeat pattern) 0 == inject_Z (Z.of_nat k) / 2.
Proof.
  intros HL k. induction k as [|k IH]; intros Hk; [reflexivity|].
  cbn [Nat.iter].
  destruct (advanceBeat_value pattern (Z.of_nat m) (Z.of_nat k)
              (Nat.iter k (advanceBeat pattern) 0) HL) as [H1 _].
  { apply IH. lia. }
  rewrite H1 by lia. rewrite Nat2Z.inj_succ. reflexivity.
Qed.

(** *** Timers *)

(** At most one timeout is pending, it is the one that the engine
    remembers, and none is pending while the rhythm is stopped. *)
Definition Single (e : Engine) : Prop :=
  (isRhythmPlaying e = false -> timers e = [])
  /\ (timers e = []
      \/ exists i, timers e = [i] /\ rhythmTimerID e = Some i).

Lemma scheduleNote_single fuel now e e' :
  timers e = [] ->
  scheduleNote fuel now e = Some e' -> Single e'.
Proof.
  intros Ht. unfold scheduleNote.
  destruct (currentPattern e) as [pattern|], (hasContext e);
    try (intros [= <-]; split; [now intros _ | now left]).
  destruct (scheduleLoop _ _ _ _ _ _ _) as [[[t b] hits]|]; [|discriminate].
  destruct (isRhythmPlaying e); intros [= <-];
    cbn [isRhythmPlaying timers rhythmTimerID]; rewrite Ht.
  - split; [discriminate|]. right. now exists (nextTimer e).
  - split; [reflexivity | now left].
Qed.

Lemma filter_single (i j : nat) :
  List.filter (fun k => negb (Nat.eqb k i)) [j] = [] \/ i <> j.
Proof.
  cbn. destruct (Nat.eqb j i) eqn:E; [now left|].
  right. apply Nat.eqb_neq in E. congruence.
Qed.

Lemma react_single fuel ev e e' :
  Single e -> react fuel ev e = Some e' -> Single e'.
Proof.
  intros [Hstop Hone]. destruct ev as [pattern bpm now | | i now];
    cbn [react].
  - unfold startRhythm. destruct (isRhythmPlaying e) eqn:Ep.
    + intros [= <-]. split; [intros H; rewrite Ep in H; discriminate H|].
      exact Hone.
    + apply scheduleNote_single. cbn [timers]. now apply Hstop.
  - intros [= <-]. unfold stopRhythm.
    split; cbn [isRhythmPlaying timers rhythmTimerID]; [intros _|left];
      (destruct Hone as [-> | [i [-> ->]]];
       [now destruct (rhythmTimerID e) | cbn; now rewrite Nat.eqb_refl]).
  - unfold timeout.
    destruct (existsb (Nat.eqb i) (timers e)) eqn:Ex.
    + apply scheduleNote_single. cbn [timers].
      destruct Hone as [Ht | [j [Ht _]]]; rewrite Ht in *; [reflexivity|].
      cbn in Ex. rewrite orb_false_r in Ex. apply Nat.eqb_eq in Ex. subst j.
      cbn. now rewrite Nat.eqb_refl.
    + intros [= <-]. now split.
Qed.

Lemma run_single fuel events : forall e e',
  Single e -> run fuel events e = Some e' -> Single e'.
Proof.
  induction events as [|ev rest IH]; intros e e' HS; cbn [run].
  - now intros [= <-].
  - destruct (react fuel ev e) as [e1|] eqn:E; [|discriminate].
    apply IH. now apply (react_single fuel ev e).
Qed.

End RhythmFacts.

(** X27. The scheduling loop and the tempo, for an engine with a context,
    a pattern and a finite next note time.  With a positive tempo the loop
    ends, for every fuel above some bound, with the next note time at or
    beyond the horizon [now + 0.1], by less than half a beat when it moved.
    With a negative tempo and a note due, the loop never ends.  With a zero
    tempo and a note due, the next note time becomes infinite, and no later
    call plays anything. *)
Theorem X27_scheduling_loop_and_tempo :
  forall e pattern t0 now,
    Rhythm.currentPattern e = Some pattern ->
    Rhythm.hasContext e = true ->
    Rhythm.nextNoteTime e = Finite t0 ->
    ((0 < Rhythm.currentBpm e)%Q ->
     exists fuel, forall fuel', (fuel <= fuel')%nat ->
       exists e' t,
         Rhythm.scheduleNote fuel' now e = Some e'
         /\ Rhythm.nextNoteTime e' = Finite t
         /\ (now + (1 # 10) <= t)%Q
         /\ (t == t0 \/ t - 30 / Rhythm.currentBpm e < now + (1 # 10))%Q)
    /\ ((Rhythm.currentBpm e < 0)%Q -> (t0 < now + (1 # 10))%Q ->
        forall fuel, Rhythm.scheduleNote fuel now e = None)
    /\ ((Rhythm.currentBpm e == 0)%Q -> (t0 < now + (1 # 10))%Q ->
        forall fuel, (1 <= fuel)%nat ->
          exists e',
            Rhythm.scheduleNote fuel now e = Some e'
            /\ Rhythm.nextNoteTime e' = Infinite true
            /\ forall fuel2 now2,
                 exists e'',
                   Rhythm.scheduleNote fuel2 now2 e' = Some e''
                   /\ Rhythm.played e'' = Rhythm.played e').
Proof.
  intros e pattern t0 now Hp Hc Ht.
  split; [|split].
  - intros Hbpm.
    assert (Hne : ~ (Rhythm.currentBpm e == 0)%Q) by lra.
    pose proof (RhythmFacts.halfBeat_nonzero _ Hne) as Hh.
    pose proof (RhythmFacts.halfBeat_sign _ Hne) as Hs.
    set (h := (60 / Rhythm.currentBpm e * (1 # 2))%Q) in *.
    assert (Hpos : (0 < h)%Q).
    { rewrite Hs. apply Qlt_shift_div_l; [assumption|].
      rewrite Qmult_0_l. reflexivity. }
    destruct (RhythmFacts.enough_steps (now + (1 # 10) - t0) h Hpos)
      as [k Hk].
    exists k. intros fuel' Hfuel.
    destruct (RhythmFacts.scheduleLoop_ends pattern h now k t0
                (Rhythm.currentBeatIndex e) (Rhythm.played e) fuel'
                Hpos Hk Hfuel)
      as [t [idx' [hits' [j [E [Et [H1 H2]]]]]]].
    unfold Rhythm.scheduleNote. rewrite Hp, Hc, Hh, Ht, E.
    destruct (Rhythm.isRhythmPlaying e);
      eexists; exists t; (split; [reflexivity|]);
      (split; [reflexivity|]); (split; [exact H1|]);
      (destruct H2 as [-> | H2]; [left; rewrite Et;
                                   change (inject_Z (Z.of_nat 0)) with 0%Q; ring
                                 | right; rewrite <- Hs; exact H2]).
  - intros Hbpm Hdue fuel.
    assert (Hne : ~ (Rhythm.currentBpm e == 0)%Q) by lra.
    pose proof (RhythmFacts.halfBeat_nonzero _ Hne) as Hh.
    pose proof (RhythmFacts.halfBeat_sign _ Hne) as Hs.
    set (h := (60 / Rhythm.currentBpm e * (1 # 2))%Q) in *.
    assert (Hneg : (h < 0)%Q).
    { rewrite Hs.
      assert (Hinv : (0 < / (- Rhythm.currentBpm e))%Q)
        by (apply Qinv_lt_0_compat; lra).
      assert (Eq : (30 / Rhythm.currentBpm e
                    == - (30 * / (- Rhythm.currentBpm e)))%Q) by (now field).
      rewrite Eq.
      assert ((0 < 30 * / (- Rhythm.currentBpm e))%Q)
        by (apply Qmult_lt_0_compat; [reflexivity | assumption]).
      lra. }
    unfold Rhythm.scheduleNote. rewrite Hp, Hc, Hh, Ht.
    now rewrite RhythmFacts.scheduleLoop_diverges.
  - intros Hbpm Hdue fuel Hfuel.
    assert (Hh : Rhythm.halfBeat (Rhythm.currentBpm e) = Infinite true).
    { unfold Rhythm.halfBeat.
      apply Qeq_bool_iff in Hbpm. now rewrite Hbpm. }
    destruct fuel as [|fuel]; [lia|].
    assert (D : Rhythm.due (Finite t0) now = true)
      by (now apply RhythmFacts.due_Finite).
    assert (E : Rhythm.scheduleLoop (S fuel) pattern (Infinite true) now
                  (Finite t0) (Rhythm.currentBeatIndex e) (Rhythm.played e)
                = Some (Infinite true,
                        Rhythm.advanceBeat pattern (Rhythm.currentBeatIndex e),
                        (Rhythm.played e
                         ++ map (fun step =>
                                   Rhythm.mkHit now (Rhythm.sound step)
                                     (Rhythm.velocity step))
                              (Rhythm.sounding pattern
                                 (Rhythm.currentBeatIndex e))))).
    { cbn [Rhythm.scheduleLoop]. rewrite D. cbn [Rhythm.plus].
      apply RhythmFacts.scheduleLoop_stalled. }
    unfold Rhythm.scheduleNote at 1. rewrite Hp, Hc, Hh, Ht, E.
    destruct (Rhythm.isRhythmPlaying e);
      eexists; (split; [reflexivity|]); (split; [reflexivity|]);
      intros fuel2 now2; unfold Rhythm.scheduleNote;
      cbn [Rhythm.currentPattern Rhythm.hasContext Rhythm.nextNoteTime
             Rhythm.currentBeatIndex Rhythm.played Rhythm.isRhythmPlaying];
      rewrite RhythmFacts.scheduleLoop_stalled;
      eexists; (split; [reflexivity|]); reflexivity.
Qed.

Lemma X27_scheduling_loop_and_tempo_witness :
  let pattern :=
    Rhythm.RhythmPattern.mk 4
      [Rhythm.mkStep 0 "kick" 1; Rhythm.mkStep 2 "snare" 1] in
  let e :=
    Rhythm.mkEngine true (Finite 0) 0 None true (Some pattern) (-120) [] 1 [] in
  Rhythm.scheduleNote 1000 0 e = None.
Proof.
  intros pattern e.
  apply (proj1 (proj2 (X27_scheduling_loop_and_tempo e pattern 0%Q 0%Q
                         eq_refl eq_refl eq_refl)));
    reflexivity.
Defined.

(** X28. In a pattern of positive length, from a position on the grid of
    half beats inside the pattern, the scheduling loop only reaches such
    positions, and every sound that one call starts belongs to a step
    whose beat is within 0.01 of a half beat of the pattern: a step placed
    elsewhere (on a quarter of a beat, or at the length of the pattern)
    never sounds.  All the sounds of one call start at the same instant,
    the time of the call, however many notes were due. *)
Theorem X28_sounds_come_from_the_half_beat_grid :
  forall fuel pattern half now t idx hits,
    (0 < Rhythm.RhythmPattern.length pattern)%Q ->
    RhythmFacts.OnGrid (Rhythm.RhythmPattern.length pattern) idx ->
    match Rhythm.scheduleLoop fuel pattern half now t idx hits with
    | Some (_, idx', hits') =>
        RhythmFacts.OnGrid (Rhythm.RhythmPattern.length pattern) idx'
        /\ exists new,
             hits' = hits ++ new
             /\ Forall (RhythmFacts.FromGrid pattern now) new
    | None => True
    end.
Proof.
  intros fuel pattern half now t idx hits HL HG.
  destruct (Rhythm.scheduleLoop fuel pattern half now t idx hits)
    as [[[t' idx'] hits']|] eqn:E; [|exact I].
  now apply (RhythmFacts.scheduleLoop_grid pattern half now fuel t idx hits t').
Qed.

Lemma X28_sounds_come_from_the_half_beat_grid_witness :
  let pattern :=
    Rhythm.RhythmPattern.mk 4
      [Rhythm.mkStep 0 "kick" 1; Rhythm.mkStep (1 # 4) "hihat" 1] in
  match Rhythm.scheduleLoop 3 pattern (Finite (1 # 4)) 0 (Finite 0) 0 [] with
  | Some (_, idx', hits') =>
      RhythmFacts.OnGrid (Rhythm.RhythmPattern.length pattern) idx'
      /\ exists new,
           hits' = [] ++ new
           /\ Forall (RhythmFacts.FromGrid pattern 0) new
  | None => True
  end.
Proof.
  intros pattern.
  apply (X28_sounds_come_from_the_half_beat_grid 3 pattern (Finite (1 # 4))
           0%Q (Finite 0) 0%Q []).
  - reflexivity.
  - split; [discriminate|]. split; [reflexivity|]. now exists 0%Z.
Defined.

(** X29. For a pattern whose length is a whole number [m >= 1] of half
    beats, the positions of the loop cycle with the pattern: from position
    0, the k-th advance stands at k/2 for every k below m, and the m-th is
    back at 0. *)
Theorem X29_positions_cycle_with_the_pattern :
  forall pattern (m : nat),
    (0 < m)%nat ->
    (Rhythm.RhythmPattern.length pattern == inject_Z (Z.of_nat m) / 2)%Q ->
    (forall k : nat, (k < m)%nat ->
       (Nat.iter k (Rhythm.advanceBeat pattern) 0
        == inject_Z (Z.of_nat k) / 2)%Q)
    /\ Nat.iter m (Rhythm.advanceBeat pattern) 0%Q = 0%Q.
Proof.
  intros pattern m Hm HL.
  split; [now apply RhythmFacts.cycle_positions|].
  destruct m as [|m]; [lia|].
  cbn [Nat.iter].
  destruct (RhythmFacts.advanceBeat_value pattern (Z.of_nat (S m))
              (Z.of_nat m) (Nat.iter m (Rhythm.advanceBeat pattern) 0%Q) HL)
    as [_ H2].
  { apply RhythmFacts.cycle_positions with (m := S m); [assumption | lia]. }
  apply H2. lia.
Qed.

Lemma X29_positions_cycle_with_the_pattern_witness :
  Nat.iter 8
    (Rhythm.advanceBeat
       (Rhythm.RhythmPattern.mk 4 [Rhythm.mkStep 0 "kick" 1])) 0%Q = 0%Q.
Proof.
  apply (X29_positions_cycle_with_the_pattern
           (Rhythm.RhythmPattern.mk 4 [Rhythm.mkStep 0 "kick" 1]) 8);
    [lia | reflexivity].
Defined.

(** X30. Whatever calls reach a new engine (starting a rhythm, stopping
    it, a timeout firing), and in whatever order, at most one timeout of
    the rhythm is pending afterwards, and none while the rhythm is
    stopped: two chains of timeouts never run side by side. *)
Theorem X30_one_rhythm_timer_at_most :
  forall fuel events hasContext,
    match Rhythm.run fuel events (Rhythm.initial hasContext) with
    | Some e =>
        (length (Rhythm.timers e) <= 1)%nat
        /\ (Rhythm.isRhythmPlaying e = false -> Rhythm.timers e = [])
    | None => True
    end.
Proof.
  intros fuel events hasContext.
  destruct (Rhythm.run fuel events (Rhythm.initial hasContext)) as [e|] eqn:E;
    [|exact I].
  assert (H0 : RhythmFacts.Single (Rhythm.initial hasContext)).
  { split; [reflexivity | now left]. }
  destruct (RhythmFacts.run_single fuel events _ e H0 E) as [H1 H2].
  split; [|exact H1].
  destruct H2 as [-> | [i [-> _]]]; cbn; lia.
Qed.
